(** * LastTick: detection-and-execution pipeline

    A shallow embedding of the TypeScript sources of the bot
    (market scanner, opportunity detector, order executor, position
    manager, reconnecting feed and the opportunity handler that wires
    them) together with the properties stated about them.

    Conventions of the embedding.
    - A JavaScript [number] that carries a price, a size or an amount of
      money is a rational ([Q]); arithmetic is exact, so the rounding of
      IEEE doubles is outside the model, and so are NaN and the
      infinities (a division is only meaningful here when the divisor is
      not zero).  Equalities between amounts are stated with [==].
      The one place where the rounding decides a cent is the order size
      of the executor, which ends in a [Math.floor]: [Rounded] models it
      a second time, with every quotient and product rounded to a
      double ([Double.round]).
    - A counter that starts at 0 and is only ever incremented is a [nat].
    - A [Date] is the integer [getTime()] returns (milliseconds); a
      numeric string that the code reads through [parseFloat] is the
      rational it parses to.
    - A [Map<string, V>] is an association list in insertion order, with
      the behaviour of [get], [has], [set] and [delete] written out.
    - What a method reads from its environment ([Date.now()], a venue
      reply, a generated id) is a parameter of its model; what it emits
      is part of its result. *)

From Stdlib Require Import QArith Qround Qminmax Qabs Qpower Qreduction.
From Stdlib Require Import ZArith List String Bool Lia Lqa.
Import ListNotations.

Open Scope string_scope.
Open Scope Q_scope.

(** ** JavaScript comparisons on numbers *)

Definition Qltb (x y : Q) : bool := negb (Qle_bool y x).

Notation "x <=? y" := (Qle_bool x y) (at level 70, no associativity) : Q_scope.
Notation "x <? y" := (Qltb x y) (at level 70, no associativity) : Q_scope.
Notation "x >=? y" := (Qle_bool y x) (at level 70, no associativity) : Q_scope.
Notation "x >? y" := (Qltb y x) (at level 70, no associativity) : Q_scope.

(** ** JavaScript numbers: rounding to a double

    The result of an arithmetic operation on doubles is its exact result
    rounded to the nearest double, a tie going to the even significand.
    [round x] is that double for a rational [x]: 53 significant bits,
    the exponent of the last bit from -1074 up (so the subnormal numbers
    are there).  A result beyond the largest double is an infinity in
    JavaScript and stays finite here. *)

Module Double.

Definition pow2 (e : Z) : Q := 2 ^ e.

(** The exponent of the leading bit of a positive [x]:
    2^(ilog2 x) <= x < 2^(ilog2 x + 1). *)
Definition ilog2 (x : Q) : Z :=
  let l := (Z.log2 (Qnum x) - Z.log2 (Zpos (Qden x)))%Z in
  if Qle_bool (pow2 l) x then l else (l - 1)%Z.

Definition emin : Z := -1074.

(** The exponent of the last bit of the double nearest to [x]. *)
Definition cexp (x : Q) : Z := Z.max emin (ilog2 x - 52).

(** The integer nearest to [t], a tie going to the even one. *)
Definition rne (t : Q) : Z :=
  let f := Qfloor t in
  match Qcompare (t - inject_Z f) (1 # 2) with
  | Lt => f
  | Gt => (f + 1)%Z
  | Eq => if Z.even f then f else (f + 1)%Z
  end.

Definition roundPos (x : Q) : Q :=
  inject_Z (rne (x / pow2 (cexp x))) * pow2 (cexp x).

Definition round (x : Q) : Q :=
  match Qnum x with
  | Z0 => 0
  | Zpos _ => roundPos (Qred x)
  | Zneg _ => - roundPos (Qred (- x))
  end.

End Double.

(** ** [Map<string, V>]: insertion-ordered association list *)

Module JsMap.
Section Ops.
Context {V : Type}.

Definition t := list (string * V).

Definition empty : t := [].

Fixpoint get (m : t) (k : string) : option V :=
  match m with
  | [] => None
  | (k', v) :: m' => if String.eqb k' k then Some v else get m' k
  end.

Definition has (m : t) (k : string) : bool :=
  match get m k with Some _ => true | None => false end.

(** [set] on a key already present keeps the entry's place. *)
Fixpoint set (m : t) (k : string) (v : V) : t :=
  match m with
  | [] => [(k, v)]
  | (k', v') :: m' =>
      if String.eqb k' k then (k', v) :: m' else (k', v') :: set m' k v
  end.

Fixpoint delete (m : t) (k : string) : t :=
  match m with
  | [] => []
  | (k', v') :: m' =>
      if String.eqb k' k then m' else (k', v') :: delete m' k
  end.

Definition keys (m : t) : list string := map fst m.
Definition values (m : t) : list V := map snd m.

(** Keys are unique in every map built from [empty] by [set] and
    [delete]. *)
Definition wf (m : t) : Prop := NoDup (keys m).
End Ops.
Arguments t : clear implicits.
End JsMap.

(** ** config.ts *)

Record Config := {
  minProfitThreshold : Q;
  maxPositionSize : Q;
  maxTotalExposure : Q;
  defaultOrderSize : Q;
  minCertaintyPrice : Q;
  maxBuyPrice : Q;
  dailyLossLimit : Q;
  maxPositionsPerMarket : Q
}.

(** The values [config] takes when no environment variable overrides
    them. *)
Definition config : Config := {|
  minProfitThreshold := 5 / 1000;
  maxPositionSize := 500;
  maxTotalExposure := 5000;
  defaultOrderSize := 100;
  minCertaintyPrice := 98 / 100;
  maxBuyPrice := 995 / 1000;
  dailyLossLimit := 500;
  maxPositionsPerMarket := 1
|}.

(** ** types/index.ts

    Records carry the fields the pipeline reads or writes; the
    remaining descriptive strings of [Market] and [OrderBook] play no
    part in it. *)

Record Token := {
  token_tokenId : string;
  token_outcome : string;
  token_price : Q;
  token_winner : bool
}.

Record Market := {
  market_id : string;
  market_question : string;
  market_endDate : Z;
  market_active : bool;
  market_closed : bool;
  market_archived : bool;
  market_tokens : list Token
}.

Record PriceLevel := {
  level_price : Q;
  level_size : Q
}.

Record OrderBook := {
  book_market : string;
  book_assetId : string;
  book_bids : list PriceLevel;
  book_asks : list PriceLevel;
  book_minOrderSize : Q;
  book_tickSize : Q
}.

Record Opportunity := {
  opp_marketId : string;
  opp_tokenId : string;
  opp_outcome : string;
  opp_currentPrice : Q;
  opp_expectedProfit : Q;
  opp_confidence : Q;
  opp_timestamp : Z
}.

Inductive PositionStatus :=
  OPEN | PENDING_RESOLUTION | RESOLVED_WIN | RESOLVED_LOSS.

Record Position := {
  pos_id : string;
  pos_marketId : string;
  pos_tokenId : string;
  pos_outcome : string;
  pos_entryPrice : Q;
  pos_size : Q;
  pos_timestamp : Z;
  pos_status : PositionStatus
}.

Inductive TradeStatus := PENDING | MATCHED | CONFIRMED | FAILED.

Inductive Side := BUY | SELL.

Inductive OrderType := GTC | GTD | FOK.

Record Trade := {
  trade_id : string;
  trade_marketId : string;
  trade_tokenId : string;
  trade_side : Side;
  trade_price : Q;
  trade_size : Q;
  trade_timestamp : Z;
  trade_orderId : option string;
  trade_status : TradeStatus
}.

Record OrderRequest := {
  req_tokenId : string;
  req_price : Q;
  req_size : Q;
  req_side : Side;
  req_orderType : OrderType
}.

Record OrderResponse := {
  resp_success : bool;
  resp_orderId : option string;
  resp_errorMsg : option string
}.

Record TradingStats := {
  totalTrades : nat;
  winningTrades : nat;
  losingTrades : nat;
  totalProfit : Q;
  totalLoss : Q;
  winRate : Q;
  averageProfit : Q;
  largestWin : Q;
  largestLoss : Q
}.

Definition status_eqb (a b : PositionStatus) : bool :=
  match a, b with
  | OPEN, OPEN | PENDING_RESOLUTION, PENDING_RESOLUTION
  | RESOLVED_WIN, RESOLVED_WIN | RESOLVED_LOSS, RESOLVED_LOSS => true
  | _, _ => false
  end.

(** The number of elements of an array, as a JavaScript number. *)
Definition jsLength {A : Type} (l : list A) : Q := inject_Z (Z.of_nat (List.length l)).

(** ** core/market-scanner.ts *)

Record WatchedMarket := {
  watched_market : Market;
  watched_addedAt : Z;
  watched_highPriceToken : option Token
}.

Module Scanner.

Definition msPerHour : Q := 1000 * 60 * 60.

Definition hoursUntilEnd (now : Z) (market : Market) : Q :=
  inject_Z (market_endDate market - now) / msPerHour.

(** The body of the loop of [filterEligibleMarkets]: what one market
    contributes to [eligibleMarkets]. *)
Definition eligibleEntries (cfg : Config) (now : Z) (market : Market)
  : list Market :=
  if negb (market_active market) || market_closed market
     || market_archived market
  then []
  else
    let h := hoursUntilEnd now market in
    (if (h >? 0) && (h <=? 24) then
       if existsb (fun t => token_price t >=? minCertaintyPrice cfg)
                  (market_tokens market)
       then [market] else []
     else [])
    ++
    (if h >? 24 then
       if existsb (fun t => token_price t >=? 99 / 100)
                  (market_tokens market)
       then [market] else []
     else []).

Fixpoint filterEligibleMarkets (cfg : Config) (now : Z)
         (markets : list Market) : list Market :=
  match markets with
  | [] => []
  | market :: rest =>
      eligibleEntries cfg now market ++ filterEligibleMarkets cfg now rest
  end.

Fixpoint findHighPriceTokenFrom (highestPrice : Q)
         (highestToken : option Token) (tokens : list Token)
  : option Token :=
  match tokens with
  | [] => highestToken
  | token :: rest =>
      if token_price token >? highestPrice
      then findHighPriceTokenFrom (token_price token) (Some token) rest
      else findHighPriceTokenFrom highestPrice highestToken rest
  end.

Definition findHighPriceToken (market : Market) : option Token :=
  findHighPriceTokenFrom 0 None (market_tokens market).

(** First loop of [scan]: add the eligible markets not yet watched. *)
Fixpoint addEligible (now : Z) (eligibleMarkets : list Market)
         (watchedMarkets : JsMap.t WatchedMarket)
  : JsMap.t WatchedMarket :=
  match eligibleMarkets with
  | [] => watchedMarkets
  | market :: rest =>
      addEligible now rest
        (if negb (JsMap.has watchedMarkets (market_id market))
         then JsMap.set watchedMarkets (market_id market)
                {| watched_market := market;
                   watched_addedAt := now;
                   watched_highPriceToken := findHighPriceToken market |}
         else watchedMarkets)
  end.

(** [eligibleMarkets.find((m) => m.id === id)], used as a truth value. *)
Definition foundIn (eligibleMarkets : list Market) (id : string) : bool :=
  match find (fun m => String.eqb (market_id m) id) eligibleMarkets with
  | Some _ => true
  | None => false
  end.

(** Second loop of [scan]: the entries of the map are visited in
    order, and an entry whose id is not among the eligible markets is
    deleted as it is visited. *)
Definition removeIneligible (eligibleMarkets : list Market)
           (watchedMarkets : JsMap.t WatchedMarket)
  : JsMap.t WatchedMarket :=
  fold_left
    (fun w id => if negb (foundIn eligibleMarkets id)
                 then JsMap.delete w id else w)
    (JsMap.keys watchedMarkets) watchedMarkets.

(** [scan] once [clobService.getMarkets()] has answered [markets]. *)
Definition scan (cfg : Config) (now : Z) (markets : list Market)
           (watchedMarkets : JsMap.t WatchedMarket)
  : JsMap.t WatchedMarket :=
  let eligibleMarkets := filterEligibleMarkets cfg now markets in
  removeIneligible eligibleMarkets
    (addEligible now eligibleMarkets watchedMarkets).

Definition getTokenIds (watchedMarkets : JsMap.t WatchedMarket)
  : list string :=
  flat_map (fun m => map token_tokenId (market_tokens (watched_market m)))
           (JsMap.values watchedMarkets).

End Scanner.

(** ** core/opportunity-detector.ts *)

Module Detector.

(** The loop of [analyzeOpportunity] that looks the token up in the
    watched markets; [marketId] and [outcome] start as empty strings
    and stay so when no market has the token. *)
Fixpoint findMarketInfo (markets : JsMap.t WatchedMarket)
         (tokenId : string) : string * string :=
  match markets with
  | [] => ("", "")
  | (id, market) :: rest =>
      match find (fun t => String.eqb (token_tokenId t) tokenId)
                 (market_tokens (watched_market market)) with
      | Some token => (id, token_outcome token)
      | None => findMarketInfo rest tokenId
      end
  end.

(** [analyzeOpportunity]: [Some o] when [emit('opportunity', o)] is
    reached, [None] when the method returns without emitting. *)
Definition analyzeOpportunity (cfg : Config)
           (markets : JsMap.t WatchedMarket) (now : Z)
           (tokenId : string) (orderBook : OrderBook)
  : option Opportunity :=
  match book_asks orderBook with
  | [] => None
  | ask0 :: _ =>
      let bestAsk := level_price ask0 in
      let askSize := level_size ask0 in
      if (bestAsk >=? minCertaintyPrice cfg)
         && (bestAsk <=? maxBuyPrice cfg)
         && (askSize >=? book_minOrderSize orderBook)
      then
        let expectedProfit :=
          (1 - bestAsk) * Qmin askSize (maxPositionSize cfg) in
        if expectedProfit >=? minProfitThreshold cfg then
          let (marketId, outcome) := findMarketInfo markets tokenId in
          Some {| opp_marketId := marketId;
                  opp_tokenId := tokenId;
                  opp_outcome := outcome;
                  opp_currentPrice := bestAsk;
                  opp_expectedProfit := expectedProfit;
                  opp_confidence := bestAsk * 100;
                  opp_timestamp := now |}
        else None
      else None
  end.

(** A ['book'] message of the feed; [min_tick_size] and [tick_size]
    may be missing. *)
Record BookMessage := {
  msg_market : string;
  msg_asset_id : string;
  msg_bids : list PriceLevel;
  msg_asks : list PriceLevel;
  msg_min_tick_size : option Q;
  msg_tick_size : option Q
}.

Definition orElse (x : option Q) (d : Q) : Q :=
  match x with Some v => v | None => d end.

Definition handleBookUpdate (cfg : Config)
           (markets : JsMap.t WatchedMarket) (now : Z)
           (data : BookMessage) : option Opportunity :=
  match msg_asks data with
  | [] => None
  | ask0 :: _ =>
      let bestAsk := level_price ask0 in
      if (bestAsk >=? minCertaintyPrice cfg) && (bestAsk <=? maxBuyPrice cfg)
      then
        analyzeOpportunity cfg markets now (msg_asset_id data)
          {| book_market := msg_market data;
             book_assetId := msg_asset_id data;
             book_bids := msg_bids data;
             book_asks := msg_asks data;
             book_minOrderSize := orElse (msg_min_tick_size data) 1;
             book_tickSize := orElse (msg_tick_size data) (1 / 100) |}
      else None
  end.

End Detector.

(** ** core/executor.ts *)

Module Executor.

Inductive ExecutorEvent :=
| trade_executed (trade : Trade)
| trade_failed (trade : Trade) (reason : option string).

(** [clobService.placeOrder] answers with a response or throws. *)
Inductive VenueReply :=
| Answered (response : OrderResponse)
| Thrown.

(** What one call of [executeOpportunity] reads from outside the
    executor: [clobService.canTrade()], the id [generateTradeId]
    produces, the clock, and the venue. *)
Record ExecEnv := {
  env_canTrade : bool;
  env_tradeId : string;
  env_now : Z;
  env_placeOrder : OrderRequest -> VenueReply
}.

Definition calculateOrderSize (cfg : Config) (opportunity : Opportunity) : Q :=
  let orderSize := defaultOrderSize cfg in
  let profitMultiplier :=
    opp_expectedProfit opportunity / minProfitThreshold cfg in
  let orderSize :=
    if profitMultiplier >? 1
    then orderSize * Qmin profitMultiplier 2
    else orderSize in
  let orderSize := Qmin orderSize (maxPositionSize cfg) in
  inject_Z (Qfloor (orderSize * 100)) / 100.

Definition withOutcome (trade : Trade) (orderId : option string)
           (status : TradeStatus) : Trade :=
  {| trade_id := trade_id trade;
     trade_marketId := trade_marketId trade;
     trade_tokenId := trade_tokenId trade;
     trade_side := trade_side trade;
     trade_price := trade_price trade;
     trade_size := trade_size trade;
     trade_timestamp := trade_timestamp trade;
     trade_orderId := orderId;
     trade_status := status |}.

(** [executeOpportunity]: the trade returned ([None] for [null]) and the
    events emitted on the way. *)
Definition executeOpportunity (cfg : Config) (isEnabled : bool)
           (env : ExecEnv) (opportunity : Opportunity)
  : option Trade * list ExecutorEvent :=
  if negb isEnabled then (None, [])
  else if negb (env_canTrade env) then (None, [])
  else
    let orderSize := calculateOrderSize cfg opportunity in
    if orderSize <=? 0 then (None, [])
    else
      let trade :=
        {| trade_id := env_tradeId env;
           trade_marketId := opp_marketId opportunity;
           trade_tokenId := opp_tokenId opportunity;
           trade_side := BUY;
           trade_price := opp_currentPrice opportunity;
           trade_size := orderSize;
           trade_timestamp := env_now env;
           trade_orderId := None;
           trade_status := PENDING |} in
      let orderRequest :=
        {| req_tokenId := opp_tokenId opportunity;
           req_price := opp_currentPrice opportunity;
           req_size := orderSize;
           req_side := BUY;
           req_orderType := FOK |} in
      match env_placeOrder env orderRequest with
      | Answered response =>
          if resp_success response then
            let trade := withOutcome trade (resp_orderId response) MATCHED in
            (Some trade, [trade_executed trade])
          else
            let trade := withOutcome trade None FAILED in
            (Some trade, [trade_failed trade (resp_errorMsg response)])
      | Thrown =>
          let trade := withOutcome trade None FAILED in
          (Some trade, [trade_failed trade None])
      end.

Record QueueState := {
  executionQueue : list Opportunity;
  isProcessing : bool
}.

(** What the worker did with one dequeued opportunity: dropped it as
    expired, or called [executeOpportunity] on it (with the result of
    the call). *)
Inductive QueueOutcome :=
| Expired (opportunity : Opportunity)
| Executed (opportunity : Opportunity)
           (result : option Trade * list ExecutorEvent).

Definition stalenessWindow : Z := 5000.

(** The [while] loop of [processQueue].  [clock k] is what [Date.now()]
    returns at the [k]-th turn of the loop and [env k] what the call of
    [executeOpportunity] made in that turn reads. *)
Fixpoint drain (cfg : Config) (isEnabled : bool) (clock : nat -> Z)
         (env : nat -> ExecEnv) (k : nat) (queue : list Opportunity)
  : list QueueOutcome :=
  match queue with
  | [] => []
  | opportunity :: rest =>
      if (clock k - opp_timestamp opportunity >? stalenessWindow)%Z
      then Expired opportunity :: drain cfg isEnabled clock env (S k) rest
      else Executed opportunity
             (executeOpportunity cfg isEnabled (env k) opportunity)
           :: drain cfg isEnabled clock env (S k) rest
  end.

Definition processQueue (cfg : Config) (isEnabled : bool) (clock : nat -> Z)
           (env : nat -> ExecEnv) (s : QueueState)
  : QueueState * list QueueOutcome :=
  if isProcessing s || (List.length (executionQueue s) =? 0)%nat
  then (s, [])
  else ({| executionQueue := []; isProcessing := false |},
        drain cfg isEnabled clock env 0 (executionQueue s)).

Definition queueOpportunity (cfg : Config) (isEnabled : bool)
           (clock : nat -> Z) (env : nat -> ExecEnv)
           (opportunity : Opportunity) (s : QueueState)
  : QueueState * list QueueOutcome :=
  processQueue cfg isEnabled clock env
    {| executionQueue := executionQueue s ++ [opportunity];
       isProcessing := isProcessing s |}.

(** The calls of [executeOpportunity] a run of the worker made, in
    order. *)
Fixpoint executionCalls (outcomes : list QueueOutcome) : list Opportunity :=
  match outcomes with
  | [] => []
  | Expired _ :: rest => executionCalls rest
  | Executed opportunity _ :: rest => opportunity :: executionCalls rest
  end.

End Executor.

(** ** core/executor.ts, with the rounding of its arithmetic

    [calculateOrderSize] ends in [Math.floor(orderSize * 100) / 100],
    and a floor shows what the rounding did: a product that the
    rounding left just under a whole number of cents loses the cent.
    Here every quotient and product of [calculateOrderSize] is rounded
    by [fl] ([Double.round] for the doubles of JavaScript, the identity
    for the exact arithmetic of [Executor]); [Math.min] and
    [Math.floor] return one of their arguments or an integer and need
    no rounding.  A division by zero gives an infinity or NaN in
    JavaScript, so the quotient is the code's only when
    [minProfitThreshold] is not zero.  A quotient too large for a double
    is an infinity there and a large number here; the code only compares
    it with 1 and takes its minimum with 2, which come out the same. *)

Module Rounded.
Import Executor.

Section Arithmetic.
Variable fl : Q -> Q.

Definition calculateOrderSize (cfg : Config) (opportunity : Opportunity) : Q :=
  let orderSize := defaultOrderSize cfg in
  let profitMultiplier :=
    fl (opp_expectedProfit opportunity / minProfitThreshold cfg) in
  let orderSize :=
    if profitMultiplier >? 1
    then fl (orderSize * Qmin profitMultiplier 2)
    else orderSize in
  let orderSize := Qmin orderSize (maxPositionSize cfg) in
  fl (inject_Z (Qfloor (fl (orderSize * 100))) / 100).

(** [executeOpportunity], as in [Executor] but for the size. *)
Definition executeOpportunity (cfg : Config) (isEnabled : bool)
           (env : ExecEnv) (opportunity : Opportunity)
  : option Trade * list ExecutorEvent :=
  if negb isEnabled then (None, [])
  else if negb (env_canTrade env) then (None, [])
  else
    let orderSize := calculateOrderSize cfg opportunity in
    if orderSize <=? 0 then (None, [])
    else
      let trade :=
        {| trade_id := env_tradeId env;
           trade_marketId := opp_marketId opportunity;
           trade_tokenId := opp_tokenId opportunity;
           trade_side := BUY;
           trade_price := opp_currentPrice opportunity;
           trade_size := orderSize;
           trade_timestamp := env_now env;
           trade_orderId := None;
           trade_status := PENDING |} in
      let orderRequest :=
        {| req_tokenId := opp_tokenId opportunity;
           req_price := opp_currentPrice opportunity;
           req_size := orderSize;
           req_side := BUY;
           req_orderType := FOK |} in
      match env_placeOrder env orderRequest with
      | Answered response =>
          if resp_success response then
            let trade := withOutcome trade (resp_orderId response) MATCHED in
            (Some trade, [trade_executed trade])
          else
            let trade := withOutcome trade None FAILED in
            (Some trade, [trade_failed trade (resp_errorMsg response)])
      | Thrown =>
          let trade := withOutcome trade None FAILED in
          (Some trade, [trade_failed trade None])
      end.

End Arithmetic.

(** A configuration as the program holds it: every number is the double
    its text parses to. *)
Definition parsed (cfg : Config) : Config :=
  {| minProfitThreshold := Double.round (minProfitThreshold cfg);
     maxPositionSize := Double.round (maxPositionSize cfg);
     maxTotalExposure := Double.round (maxTotalExposure cfg);
     defaultOrderSize := Double.round (defaultOrderSize cfg);
     minCertaintyPrice := Double.round (minCertaintyPrice cfg);
     maxBuyPrice := Double.round (maxBuyPrice cfg);
     dailyLossLimit := Double.round (dailyLossLimit cfg);
     maxPositionsPerMarket := Double.round (maxPositionsPerMarket cfg) |}.

End Rounded.

(** ** core/position-manager.ts *)

Module Ledger.

Inductive LedgerEvent :=
| position_opened (position : Position)
| position_resolved (position : Position) (pnl : Q).

(** What [saveState] writes: the values of the position map and the
    stats. *)
Record Snapshot := {
  snap_positions : list Position;
  snap_stats : TradingStats
}.

(** The fields of a [PositionManager], the events it has emitted so far
    (oldest first) and the snapshot last written to disk. *)
Record State := {
  positions : JsMap.t Position;
  stats : TradingStats;
  dailyPnL : Q;
  dailyStartDate : string;
  emitted : list LedgerEvent;
  saved : option Snapshot
}.

Definition initialStats : TradingStats :=
  {| totalTrades := 0; winningTrades := 0; losingTrades := 0;
     totalProfit := 0; totalLoss := 0; winRate := 0; averageProfit := 0;
     largestWin := 0; largestLoss := 0 |}.

(** A manager constructed on [today] with nothing on disk. *)
Definition initial (today : string) : State :=
  {| positions := JsMap.empty; stats := initialStats; dailyPnL := 0;
     dailyStartDate := today; emitted := []; saved := None |}.

(** *** The methods run in a state monad over [State]. *)

Definition M (A : Type) : Type := State -> A * State.

Definition ret {A : Type} (a : A) : M A := fun s => (a, s).

Definition bind {A B : Type} (c : M A) (k : A -> M B) : M B :=
  fun s => let (a, s') := c s in k a s'.

Definition get : M State := fun s => (s, s).

Definition gets {A : Type} (f : State -> A) : M A := fun s => (f s, s).

Definition modify (f : State -> State) : M unit := fun s => (tt, f s).

Definition when (b : bool) (c : M unit) : M unit := if b then c else ret tt.

Notation "x <- c1 ;; c2" := (bind c1 (fun x => c2))
  (at level 61, c1 at next level, right associativity).
Notation "c1 ;; c2" := (bind c1 (fun _ => c2))
  (at level 61, right associativity).

Definition setPositions (f : JsMap.t Position -> JsMap.t Position) : M unit :=
  modify (fun s =>
    {| positions := f (positions s); stats := stats s;
       dailyPnL := dailyPnL s; dailyStartDate := dailyStartDate s;
       emitted := emitted s; saved := saved s |}).

Definition setStats (f : TradingStats -> TradingStats) : M unit :=
  modify (fun s =>
    {| positions := positions s; stats := f (stats s);
       dailyPnL := dailyPnL s; dailyStartDate := dailyStartDate s;
       emitted := emitted s; saved := saved s |}).

Definition setDaily (pnl : Q -> Q) (date : string -> string) : M unit :=
  modify (fun s =>
    {| positions := positions s; stats := stats s;
       dailyPnL := pnl (dailyPnL s); dailyStartDate := date (dailyStartDate s);
       emitted := emitted s; saved := saved s |}).

Definition emit (e : LedgerEvent) : M unit :=
  modify (fun s =>
    {| positions := positions s; stats := stats s;
       dailyPnL := dailyPnL s; dailyStartDate := dailyStartDate s;
       emitted := emitted s ++ [e]; saved := saved s |}).

(** [saveState]; a write that fails is only logged by the code, and is
    taken here to succeed. *)
Definition saveState : M unit :=
  modify (fun s =>
    {| positions := positions s; stats := stats s;
       dailyPnL := dailyPnL s; dailyStartDate := dailyStartDate s;
       emitted := emitted s;
       saved := Some {| snap_positions := JsMap.values (positions s);
                        snap_stats := stats s |} |}).

(** [today] is [new Date().toDateString()]. *)
Definition checkDailyReset (today : string) : M unit :=
  s <- get ;;
  when (negb (String.eqb today (dailyStartDate s)))
       (setDaily (fun _ => 0) (fun _ => today)).

Definition withStatus (p : Position) (status : PositionStatus) : Position :=
  {| pos_id := pos_id p; pos_marketId := pos_marketId p;
     pos_tokenId := pos_tokenId p; pos_outcome := pos_outcome p;
     pos_entryPrice := pos_entryPrice p; pos_size := pos_size p;
     pos_timestamp := pos_timestamp p; pos_status := status |}.

Definition addPosition (today : string) (trade : Trade) : M Position :=
  checkDailyReset today ;;
  let position :=
    {| pos_id := trade_id trade;
       pos_marketId := trade_marketId trade;
       pos_tokenId := trade_tokenId trade;
       pos_outcome := "";
       pos_entryPrice := trade_price trade;
       pos_size := trade_size trade;
       pos_timestamp := trade_timestamp trade;
       pos_status := OPEN |} in
  setPositions (fun m => JsMap.set m (pos_id position) position) ;;
  setStats (fun st =>
    {| totalTrades := S (totalTrades st);
       winningTrades := winningTrades st; losingTrades := losingTrades st;
       totalProfit := totalProfit st; totalLoss := totalLoss st;
       winRate := winRate st; averageProfit := averageProfit st;
       largestWin := largestWin st; largestLoss := largestLoss st |}) ;;
  saveState ;;
  emit (position_opened position) ;;
  ret position.

Definition jsNum (n : nat) : Q := inject_Z (Z.of_nat n).

(** The branch of [resolvePosition] taken for a winner. *)
Definition recordWin (pnl : Q) (st : TradingStats) : TradingStats :=
  {| totalTrades := totalTrades st;
     winningTrades := S (winningTrades st);
     losingTrades := losingTrades st;
     totalProfit := totalProfit st + pnl;
     totalLoss := totalLoss st;
     winRate := winRate st; averageProfit := averageProfit st;
     largestWin := if pnl >? largestWin st then pnl else largestWin st;
     largestLoss := largestLoss st |}.

(** The branch of [resolvePosition] taken for a loser. *)
Definition recordLoss (pnl : Q) (st : TradingStats) : TradingStats :=
  {| totalTrades := totalTrades st;
     winningTrades := winningTrades st;
     losingTrades := S (losingTrades st);
     totalProfit := totalProfit st;
     totalLoss := totalLoss st + Qabs pnl;
     winRate := winRate st; averageProfit := averageProfit st;
     largestWin := largestWin st;
     largestLoss :=
       if Qabs pnl >? largestLoss st then Qabs pnl else largestLoss st |}.

(** The two assignments that close [resolvePosition]'s bookkeeping. *)
Definition updateRates (st : TradingStats) : TradingStats :=
  let totalResolved := (winningTrades st + losingTrades st)%nat in
  let winRate' :=
    if jsNum totalResolved >? 0
    then (jsNum (winningTrades st) / jsNum totalResolved) * 100
    else 0 in
  let averageProfit' :=
    if jsNum totalResolved >? 0
    then (totalProfit st - totalLoss st) / jsNum totalResolved
    else 0 in
  {| totalTrades := totalTrades st;
     winningTrades := winningTrades st; losingTrades := losingTrades st;
     totalProfit := totalProfit st; totalLoss := totalLoss st;
     winRate := winRate'; averageProfit := averageProfit';
     largestWin := largestWin st; largestLoss := largestLoss st |}.

(** The profit or loss [resolvePosition] computes for a position. *)
Definition pnlOf (position : Position) (isWinner : bool) : Q :=
  let cost := pos_entryPrice position * pos_size position in
  let payout := if isWinner then pos_size position else 0 in
  payout - cost.

(** The position object lives in the map, so assigning its [status]
    changes the entry stored under [positionId] in place. *)
Definition resolvePosition (positionId : string) (resolvedPrice : Q)
           (isWinner : bool) : M unit :=
  s <- get ;;
  match JsMap.get (positions s) positionId with
  | None => ret tt
  | Some position =>
      let pnl := pnlOf position isWinner in
      let position' :=
        withStatus position (if isWinner then RESOLVED_WIN else RESOLVED_LOSS) in
      setPositions (fun m => JsMap.set m positionId position') ;;
      setStats (if isWinner then recordWin pnl else recordLoss pnl) ;;
      setDaily (fun d => d + pnl) (fun date => date) ;;
      setStats updateRates ;;
      saveState ;;
      emit (position_resolved position' pnl)
  end.

Definition getOpenPositions (s : State) : list Position :=
  filter (fun p => status_eqb (pos_status p) OPEN) (JsMap.values (positions s)).

Definition getTotalExposure (s : State) : Q :=
  fold_left (fun sum p => sum + pos_entryPrice p * pos_size p)
            (getOpenPositions s) 0.

Definition canOpenNewPosition (cfg : Config) (size price : Q) : M bool :=
  total <- gets getTotalExposure ;;
  let newExposure := total + size * price in
  if newExposure >? maxTotalExposure cfg then ret false
  else
    daily <- gets dailyPnL ;;
    if daily <? - dailyLossLimit cfg then ret false
    else ret true.

Definition getPositionsByMarket (marketId : string) (s : State)
  : list Position :=
  filter (fun p => String.eqb (pos_marketId p) marketId
                   && status_eqb (pos_status p) OPEN)
         (JsMap.values (positions s)).

End Ledger.

(** ** index.ts: the handler of ['opportunity'] *)

Module Bot.
Import Ledger.

Definition isMatched (status : TradeStatus) : bool :=
  match status with MATCHED => true | _ => false end.

(** The handler registered by [setupEventHandlers], with the executor's
    events as its result.  [today] is the date [addPosition] reads.  One
    run of the handler is taken whole: no other handler runs while it
    awaits the executor. *)
Definition onOpportunity (cfg : Config) (isEnabled : bool) (today : string)
           (env : Executor.ExecEnv) (opportunity : Opportunity)
  : M (list Executor.ExecutorEvent) :=
  ok <- canOpenNewPosition cfg (defaultOrderSize cfg)
                           (opp_currentPrice opportunity) ;;
  if negb ok then ret []
  else
    existingPositions <- gets (getPositionsByMarket (opp_marketId opportunity)) ;;
    if jsLength existingPositions >=? maxPositionsPerMarket cfg then ret []
    else if Executor.env_canTrade env then
      let (trade, events) :=
        Executor.executeOpportunity cfg isEnabled env opportunity in
      match trade with
      | Some trade =>
          if isMatched (trade_status trade)
          then addPosition today trade ;; ret events
          else ret events
      | None => ret events
      end
    else ret [].

(** The handler run on a sequence of opportunities, one after the
    other, each with its own environment. *)
Fixpoint onOpportunities (cfg : Config) (isEnabled : bool) (today : string)
         (inputs : list (Executor.ExecEnv * Opportunity)) : M unit :=
  match inputs with
  | [] => ret tt
  | (env, opportunity) :: rest =>
      onOpportunity cfg isEnabled today env opportunity ;;
      onOpportunities cfg isEnabled today rest
  end.

End Bot.

(** ** index.ts: the handler of ['opportunity'], across its [await]

    The handler checks the ledger, then awaits the executor (which
    awaits the venue), then adds the position.  While it waits, other
    runs of the handler and resolutions go on, so the ledger that
    [addPosition] writes to need not be the one the checks read. *)

Module Interleaved.
Import Ledger.

(** The handler up to the call of the executor: whether it gets
    there. *)
Definition untilAwait (cfg : Config) (env : Executor.ExecEnv)
           (opportunity : Opportunity) : M bool :=
  ok <- canOpenNewPosition cfg (defaultOrderSize cfg)
                           (opp_currentPrice opportunity) ;;
  if negb ok then ret false
  else
    existingPositions <- gets (getPositionsByMarket (opp_marketId opportunity)) ;;
    if jsLength existingPositions >=? maxPositionsPerMarket cfg then ret false
    else ret (Executor.env_canTrade env).

(** The handler from the moment the executor's promise settles. *)
Definition fromAwait (today : string)
           (result : option Trade * list Executor.ExecutorEvent)
  : M (list Executor.ExecutorEvent) :=
  match fst result with
  | Some trade =>
      if Bot.isMatched (trade_status trade)
      then addPosition today trade ;; ret (snd result)
      else ret (snd result)
  | None => ret (snd result)
  end.

(** One run of the handler.  [meanwhile] is what was done to the ledger
    while the run awaited the executor; [fl] is the rounding of the
    executor's arithmetic. *)
Definition onOpportunity (fl : Q -> Q) (cfg : Config) (isEnabled : bool)
           (today : string) (env : Executor.ExecEnv)
           (opportunity : Opportunity) (meanwhile : M unit)
  : M (list Executor.ExecutorEvent) :=
  go <- untilAwait cfg env opportunity ;;
  if go then
    meanwhile ;;
    fromAwait today (Rounded.executeOpportunity fl cfg isEnabled env opportunity)
  else ret [].

(** A second run that starts and ends while the first one waits. *)
Definition overlapping (fl : Q -> Q) (cfg : Config) (isEnabled : bool)
           (today : string)
           (first second : Executor.ExecEnv * Opportunity)
  : M (list Executor.ExecutorEvent) :=
  onOpportunity fl cfg isEnabled today (fst first) (snd first)
    (onOpportunity fl cfg isEnabled today (fst second) (snd second) (ret tt) ;;
     ret tt).

End Interleaved.

(** ** services/websocket.ts: connection and reconnection *)

Module Feed.

Inductive ReadyState := CONNECTING | SOCKET_OPEN | CLOSING | CLOSED.

Inductive FeedEvent := connected | disconnected | max_reconnect_failed.

(** What the feed does to the outside, in order: an event emitted, a
    timer awaited, a socket opened, a subscription sent. *)
Inductive Action :=
| Emit (e : FeedEvent)
| Wait (delay : Z)
| OpenSocket
| Subscribe (assetId : string).

(** [ws] is [None] for [null], otherwise the ready state of the
    socket. *)
Record State := {
  ws : option ReadyState;
  subscribedAssets : list string;
  reconnectAttempts : nat;
  isConnecting : bool;
  pinging : bool
}.

Definition maxReconnectAttempts : nat := 10.
Definition reconnectDelay : Z := 1000.

Definition initial : State :=
  {| ws := None; subscribedAssets := []; reconnectAttempts := 0;
     isConnecting := false; pinging := false |}.

Definition isOpen (s : State) : bool :=
  match ws s with Some SOCKET_OPEN => true | _ => false end.

Definition connect (s : State) : State * list Action :=
  if isOpen s || isConnecting s then (s, [])
  else
    ({| ws := Some CONNECTING; subscribedAssets := subscribedAssets s;
        reconnectAttempts := reconnectAttempts s;
        isConnecting := true; pinging := pinging s |},
     [OpenSocket]).

Definition attemptReconnect (s : State) : State * list Action :=
  if (maxReconnectAttempts <=? reconnectAttempts s)%nat
  then (s, [Emit max_reconnect_failed])
  else
    let attempts := S (reconnectAttempts s) in
    let delay := (reconnectDelay * 2 ^ (Z.of_nat attempts - 1))%Z in
    let s1 :=
      {| ws := ws s; subscribedAssets := subscribedAssets s;
         reconnectAttempts := attempts;
         isConnecting := isConnecting s; pinging := pinging s |} in
    let (s2, actions) := connect s1 in
    (s2, Wait delay :: actions).

(** The handler of the socket's ['open']. *)
Definition onOpen (s : State) : State * list Action :=
  ({| ws := Some SOCKET_OPEN; subscribedAssets := subscribedAssets s;
      reconnectAttempts := 0; isConnecting := false; pinging := true |},
   (map Subscribe (subscribedAssets s) ++ [Emit connected])%list).

(** The handler of the socket's ['close']; the socket that closed is
    the one [ws] holds, when it holds one. *)
Definition onClose (s : State) : State * list Action :=
  let s1 :=
    {| ws := match ws s with Some _ => Some CLOSED | None => None end;
       subscribedAssets := subscribedAssets s;
       reconnectAttempts := reconnectAttempts s;
       isConnecting := false; pinging := false |} in
  let (s2, actions) := attemptReconnect s1 in
  (s2, Emit disconnected :: actions).

(** [n] closes in a row, no ['open'] in between: the state reached and
    what each close made the feed do. *)
Fixpoint closes (n : nat) (s : State) : State * list (list Action) :=
  match n with
  | O => (s, [])
  | S n' =>
      let (s1, actions) := onClose s in
      let (s2, later) := closes n' s1 in
      (s2, actions :: later)
  end.

End Feed.

(** ** The statements' vocabulary

    Definitions that follow the wording of the specification, to be
    compared with the code above. *)

Module Stated.

(** "rounded down to cent precision" *)
Definition floorToCents (x : Q) : Q := inject_Z (Qfloor (x * 100)) / 100.

Definition profitRatio (cfg : Config) (opportunity : Opportunity) : Q :=
  opp_expectedProfit opportunity / minProfitThreshold cfg.

(** The order size as the specification words it:
    min(maxPositionSize, defaultOrderSize x min(2, ratio)), rounded down
    to the cent. *)
Definition statedOrderSize (cfg : Config) (opportunity : Opportunity) : Q :=
  floorToCents
    (Qmin (maxPositionSize cfg)
          (defaultOrderSize cfg * Qmin 2 (profitRatio cfg opportunity))).

(** The same with the multiplier kept between 1 and 2. *)
Definition clampedOrderSize (cfg : Config) (opportunity : Opportunity) : Q :=
  floorToCents
    (Qmin (maxPositionSize cfg)
          (defaultOrderSize cfg
           * Qmax 1 (Qmin 2 (profitRatio cfg opportunity)))).

(** "win rate = winners/(winners+losers)" *)
Definition statedWinRate (st : TradingStats) : Q :=
  Ledger.jsNum (winningTrades st)
  / Ledger.jsNum (winningTrades st + losingTrades st).

(** "average profit = (totalProfit - totalLoss)/(winners+losers)" *)
Definition statedAverageProfit (st : TradingStats) : Q :=
  (totalProfit st - totalLoss st)
  / Ledger.jsNum (winningTrades st + losingTrades st).

(** "pnl = (isWinner ? size : 0) - entryPrice x size" *)
Definition statedPnl (position : Position) (isWinner : bool) : Q :=
  (if isWinner then pos_size position else 0)
  - pos_entryPrice position * pos_size position.

(** 24 hours, in milliseconds. *)
Definition dayMs : Z := 24 * 60 * 60 * 1000.

(** "at least one Token's price must be >= the threshold" *)
Definition hasTokenAtLeast (threshold : Q) (market : Market) : Prop :=
  exists t, In t (market_tokens market) /\ threshold <= token_price t.

(** The eligibility rule of the scanner: active, not closed, not
    archived, and either time-to-end in (0, 24h] with a token priced at
    the certainty threshold or more, or time-to-end above 24h with a
    token priced at the near-1.0 threshold (0.99) or more. *)
Definition eligible (cfg : Config) (now : Z) (market : Market) : Prop :=
  market_active market = true /\
  market_closed market = false /\
  market_archived market = false /\
  let timeToEnd := (market_endDate market - now)%Z in
  ((0 < timeToEnd <= dayMs)%Z
   /\ hasTokenAtLeast (minCertaintyPrice cfg) market)
  \/ ((dayMs < timeToEnd)%Z /\ hasTokenAtLeast (99 / 100) market).

(** What a close makes the feed do when [a] attempts have already been
    counted. *)
Definition closeActions (a : nat) : list Feed.Action :=
  if (Feed.maxReconnectAttempts <=? a)%nat
  then [Feed.Emit Feed.disconnected; Feed.Emit Feed.max_reconnect_failed]
  else [Feed.Emit Feed.disconnected;
        Feed.Wait (Feed.reconnectDelay * 2 ^ Z.of_nat a);
        Feed.OpenSocket].

(** The order size with the multiplier kept between 1 and 2, in an
    arithmetic that rounds every quotient and product with [fl] before
    it is used. *)
Definition roundedOrderSize (fl : Q -> Q) (cfg : Config)
           (opportunity : Opportunity) : Q :=
  let ratio := fl (profitRatio cfg opportunity) in
  let scaled := fl (defaultOrderSize cfg * Qmax 1 (Qmin 2 ratio)) in
  let capped := Qmin (maxPositionSize cfg) scaled in
  fl (inject_Z (Qfloor (fl (capped * 100))) / 100).



End Stated.

(** ** Scenarios

    Concrete markets, books and runs the properties below are
    evaluated on. *)

Module Scenario.
Import Executor.

Definition today : string := "Mon Nov 02 2026".

Definition hourMs : Z := 3600000.

(** A market that ends one hour after time 0, with one token priced at
    [price]. *)
Definition marketNamed (name : string) (price : Q) (closed : bool) : Market :=
  {| market_id := "market_" ++ name;
     market_question := "Will it settle?";
     market_endDate := hourMs;
     market_active := true;
     market_closed := closed;
     market_archived := false;
     market_tokens :=
       [ {| token_tokenId := "token_" ++ name; token_outcome := "Yes";
            token_price := price; token_winner := false |} ] |}.

(** A book whose best ask offers [size] shares at [price]. *)
Definition bookFor (name : string) (price size : Q) : OrderBook :=
  {| book_market := "market_" ++ name;
     book_assetId := "token_" ++ name;
     book_bids := [];
     book_asks := [ {| level_price := price; level_size := size |} ];
     book_minOrderSize := 1;
     book_tickSize := 1 / 100 |}.

(** The ['book'] message of the feed for the same ask. *)
Definition messageFor (name : string) (price size : Q) : Detector.BookMessage :=
  {| Detector.msg_market := "market_" ++ name;
     Detector.msg_asset_id := "token_" ++ name;
     Detector.msg_bids := [];
     Detector.msg_asks := [ {| level_price := price; level_size := size |} ];
     Detector.msg_min_tick_size := None;
     Detector.msg_tick_size := None |}.

(** A venue that accepts trading and fills every order. *)
Definition fillingEnv (tradeId : string) : ExecEnv :=
  {| env_canTrade := true; env_tradeId := tradeId; env_now := 0;
     env_placeOrder := fun _ =>
       Answered {| resp_success := true; resp_orderId := Some "order";
                   resp_errorMsg := None |} |}.

(** The watchlist after market A was found eligible by one scan and
    closed by the time of the next. *)
Definition watchingA : JsMap.t WatchedMarket :=
  Scanner.scan config 0 [marketNamed "A" (99 / 100) false] JsMap.empty.

Definition afterEviction : JsMap.t WatchedMarket :=
  Scanner.scan config 30000 [marketNamed "A" (99 / 100) true] watchingA.

(** A stale entry: market B is watched, the scan fetches market A only. *)
Definition watchingB : JsMap.t WatchedMarket :=
  Scanner.scan config 0 [marketNamed "B" (99 / 100) false] JsMap.empty.

(** Twenty-six markets, each with a token at 0.98. *)
Definition names : list string :=
  map (fun i => String (Ascii.ascii_of_nat (65 + i)) "") (seq 0 26).

Definition manyMarkets : list Market :=
  map (fun name => marketNamed name (98 / 100) false) names.

Definition watchingMany : JsMap.t WatchedMarket :=
  Scanner.scan config 0 manyMarkets JsMap.empty.

(** The detector evaluates one book and the handler of ['opportunity']
    runs on what it emits. *)
Definition detectAndHandle (watched : JsMap.t WatchedMarket) (name : string)
  : Ledger.M unit :=
  match Detector.analyzeOpportunity config watched 1000 ("token_" ++ name)
                                    (bookFor name (98 / 100) 500) with
  | Some opportunity =>
      Ledger.bind
        (Bot.onOpportunity config true today (fillingEnv ("trade_" ++ name))
                           opportunity)
        (fun _ => Ledger.ret tt)
  | None => Ledger.ret tt
  end.

Fixpoint detectAndHandleAll (watched : JsMap.t WatchedMarket)
         (ns : list string) : Ledger.M unit :=
  match ns with
  | [] => Ledger.ret tt
  | name :: rest =>
      Ledger.bind (detectAndHandle watched name)
                  (fun _ => detectAndHandleAll watched rest)
  end.

(** The ledger after the first [n] of the twenty-six books were
    handled, starting from an empty ledger. *)
Definition ledgerAfter (n : nat) : Ledger.State :=
  snd (detectAndHandleAll watchingMany (firstn n names) (Ledger.initial today)).

(** An opportunity whose expected profit is half the threshold. *)
Definition halfThresholdOpportunity : Opportunity :=
  {| opp_marketId := "m1"; opp_tokenId := "t1"; opp_outcome := "Yes";
     opp_currentPrice := 99 / 100; opp_expectedProfit := 25 / 10000;
     opp_confidence := 99; opp_timestamp := 0 |}.

(** The first trade of a ledger and the position it opens. *)
Definition firstTrade : Trade :=
  {| trade_id := "trade_1"; trade_marketId := "m1"; trade_tokenId := "t1";
     trade_side := BUY; trade_price := 98 / 100; trade_size := 100;
     trade_timestamp := 0; trade_orderId := Some "order";
     trade_status := MATCHED |}.

Definition firstPosition : Position :=
  {| pos_id := "trade_1"; pos_marketId := "m1"; pos_tokenId := "t1";
     pos_outcome := ""; pos_entryPrice := 98 / 100; pos_size := 100;
     pos_timestamp := 0; pos_status := OPEN |}.

(** A ledger that has admitted one trade: 100 shares at 0.98. *)
Definition oneOpen : Ledger.State :=
  snd (Ledger.addPosition today firstTrade (Ledger.initial today)).

(** An opportunity detected at time [t]. *)
Definition detectedAt (t : Z) : Opportunity :=
  {| opp_marketId := "m1"; opp_tokenId := "t1"; opp_outcome := "Yes";
     opp_currentPrice := 99 / 100; opp_expectedProfit := 5;
     opp_confidence := 99; opp_timestamp := t |}.

(** The default configuration as the program holds it. *)
Definition config64 : Config := Rounded.parsed config.

(** An opportunity at 0.99 whose expected profit is the double
    [profit] parses to. *)
Definition profiting (profit : Q) : Opportunity :=
  {| opp_marketId := "m1"; opp_tokenId := "t1"; opp_outcome := "Yes";
     opp_currentPrice := Double.round (99 / 100);
     opp_expectedProfit := Double.round profit;
     opp_confidence := 99; opp_timestamp := 0 |}.

(** A venue that accepts trading and rejects every order. *)
Definition rejectingEnv (tradeId : string) : ExecEnv :=
  {| env_canTrade := true; env_tradeId := tradeId; env_now := 0;
     env_placeOrder := fun _ =>
       Answered {| resp_success := false; resp_orderId := None;
                   resp_errorMsg := Some "not filled" |} |}.




(** A ledger holding 5000 shares bought at the double of 0.98: an
    exposure of about 4900. *)
Definition nearCeiling : Ledger.State :=
  snd (Ledger.addPosition today
         {| trade_id := "trade_0"; trade_marketId := "market_0";
            trade_tokenId := "token_0"; trade_side := BUY;
            trade_price := Double.round (98 / 100); trade_size := 5000;
            trade_timestamp := 0; trade_orderId := Some "order";
            trade_status := MATCHED |}
         (Ledger.initial today)).

(** An opportunity in the market [name], at the double of 0.98 with an
    expected profit of 10. *)
Definition opportunityIn (name : string) : Opportunity :=
  {| opp_marketId := "market_" ++ name; opp_tokenId := "token_" ++ name;
     opp_outcome := "Yes"; opp_currentPrice := Double.round (98 / 100);
     opp_expectedProfit := 10; opp_confidence := 98; opp_timestamp := 0 |}.

(** The handler runs for market Y while its run for market X waits for
    the venue. *)
Definition overlappingRuns : Ledger.M (list ExecutorEvent) :=
  Interleaved.overlapping Double.round config64 true today
    (fillingEnv "trade_X", opportunityIn "X")
    (fillingEnv "trade_Y", opportunityIn "Y").

End Scenario.

(** ** core/market-scanner.ts: the remaining methods *)

Module ScannerOps.
Import Scanner.

Definition getWatchedMarketIds (watchedMarkets : JsMap.t WatchedMarket)
  : list string :=
  JsMap.keys watchedMarkets.

(** An element of the array [getHighPriceTokens] returns. *)
Record HighPriceEntry := {
  high_marketId : string;
  high_token : Token;
  high_market : WatchedMarket
}.

Fixpoint getHighPriceTokens (watchedMarkets : JsMap.t WatchedMarket)
  : list HighPriceEntry :=
  match watchedMarkets with
  | [] => []
  | (marketId, market) :: rest =>
      match watched_highPriceToken market with
      | Some token =>
          {| high_marketId := marketId; high_token := token;
             high_market := market |} :: getHighPriceTokens rest
      | None => getHighPriceTokens rest
      end
  end.

(** [refreshMarket] once [clobService.getMarketById] has answered
    [fetched] ([None] for [null]): the new map and the value returned.
    The entry is rewritten only when a market came back and the id is
    watched. *)
Definition refreshMarket (marketId : string) (fetched : option Market)
           (watchedMarkets : JsMap.t WatchedMarket)
  : JsMap.t WatchedMarket * option Market :=
  match fetched with
  | Some market =>
      match JsMap.get watchedMarkets marketId with
      | Some watched =>
          (JsMap.set watchedMarkets marketId
             {| watched_market := market;
                watched_addedAt := watched_addedAt watched;
                watched_highPriceToken := findHighPriceToken market |},
           fetched)
      | None => (watchedMarkets, fetched)
      end
  | None => (watchedMarkets, None)
  end.

(** The entry [scan] stores for a market it starts to watch. *)
Definition freshEntry (now : Z) (market : Market) : WatchedMarket :=
  {| watched_market := market;
     watched_addedAt := now;
     watched_highPriceToken := findHighPriceToken market |}.

(** Every cached highest-priced token is one of the tokens of the
    market stored with it. *)
Definition cachedTokensOk (watchedMarkets : JsMap.t WatchedMarket) : Prop :=
  forall id wm t,
    In (id, wm) watchedMarkets ->
    watched_highPriceToken wm = Some t ->
    In t (market_tokens (watched_market wm)).

End ScannerOps.

(** ** core/opportunity-detector.ts: the remaining methods *)

Module DetectorOps.
Import Detector ScannerOps.

(** What [clobService.getOrderBook] does for the detector: it answers a
    book, answers [null] (the fetch failed), or throws (the client is
    not initialised). *)
Inductive BookReply :=
| Book (orderBook : OrderBook)
| NoBook
| BookThrown.

(** What a call of [checkOrderBook] comes to: it ran to its end, having
    emitted an opportunity or not, or the exception of [getOrderBook]
    left it. *)
Inductive CheckResult :=
| Checked (emitted : option Opportunity)
| CheckThrew.

Definition checkOrderBook (cfg : Config) (markets : JsMap.t WatchedMarket)
           (now : Z) (getOrderBook : string -> BookReply) (tokenId : string)
  : CheckResult :=
  match getOrderBook tokenId with
  | Book orderBook =>
      Checked (analyzeOpportunity cfg markets now tokenId orderBook)
  | NoBook => Checked None
  | BookThrown => CheckThrew
  end.

(** The loop of [scanOrderBooks]: the opportunities emitted, in order.
    An exception is caught and logged and the loop goes on.  Each turn
    awaits the book and only then reads the watchlist, which the
    scanner's own timer may have changed meanwhile: [marketsAt k] is the
    watchlist, [clock k] the time and [getOrderBook k] the venue when
    the book of the [k]-th turn comes back. *)
Fixpoint scanEntries (cfg : Config) (marketsAt : nat -> JsMap.t WatchedMarket)
         (clock : nat -> Z) (getOrderBook : nat -> string -> BookReply)
         (k : nat) (entries : list HighPriceEntry) : list Opportunity :=
  match entries with
  | [] => []
  | entry :: rest =>
      match checkOrderBook cfg (marketsAt k) (clock k) (getOrderBook k)
                           (token_tokenId (high_token entry)) with
      | Checked (Some opportunity) =>
          opportunity
          :: scanEntries cfg marketsAt clock getOrderBook (S k) rest
      | Checked None | CheckThrew =>
          scanEntries cfg marketsAt clock getOrderBook (S k) rest
      end
  end.

(** [isRunning] is read once, before the loop, and so is the list of
    tokens to poll, taken from the watchlist [atStart]. *)
Definition scanOrderBooks (cfg : Config) (isRunning : bool)
           (atStart : JsMap.t WatchedMarket)
           (marketsAt : nat -> JsMap.t WatchedMarket) (clock : nat -> Z)
           (getOrderBook : nat -> string -> BookReply) : list Opportunity :=
  if negb isRunning then []
  else scanEntries cfg marketsAt clock getOrderBook 0
                   (getHighPriceTokens atStart).

(** A [PriceChangeEvent], with the price its string parses to. *)
Record PriceChangeEvent := {
  event_market : string;
  event_assetId : string;
  event_price : Q
}.

(** [handlePriceChange]: the new [lastPrices] and what the book check it
    may start comes to ([Checked None] when none is started). *)
Definition handlePriceChange (cfg : Config) (markets : JsMap.t WatchedMarket)
           (now : Z) (getOrderBook : string -> BookReply)
           (event : PriceChangeEvent) (lastPrices : JsMap.t Q)
  : JsMap.t Q * CheckResult :=
  let price := event_price event in
  let lastPrices' := JsMap.set lastPrices (event_assetId event) price in
  if (price >=? minCertaintyPrice cfg) && (price <=? maxBuyPrice cfg)
  then (lastPrices',
        checkOrderBook cfg markets now getOrderBook (event_assetId event))
  else (lastPrices', Checked None).

Definition getLastPrice (lastPrices : JsMap.t Q) (tokenId : string)
  : option Q :=
  JsMap.get lastPrices tokenId.

End DetectorOps.

(** ** core/executor.ts: reading the worker's trace *)

Module ExecutorOps.
Import Executor.

(** The opportunity an outcome of the worker is about. *)
Definition dequeued (outcome : QueueOutcome) : Opportunity :=
  match outcome with
  | Expired opportunity => opportunity
  | Executed opportunity _ => opportunity
  end.

(** The amount [calculateOrderSize] rounds down: the default size, scaled
    when the profit ratio is above 1, capped at [maxPositionSize]. *)
Definition cappedOrderSize (cfg : Config) (opportunity : Opportunity) : Q :=
  let profitMultiplier :=
    opp_expectedProfit opportunity / minProfitThreshold cfg in
  Qmin (if profitMultiplier >? 1
        then defaultOrderSize cfg * Qmin profitMultiplier 2
        else defaultOrderSize cfg)
       (maxPositionSize cfg).

End ExecutorOps.

(** ** core/position-manager.ts: loading, and the remaining getters *)

Module LedgerOps.
Import Ledger.

Definition getStats : M TradingStats := gets stats.

Definition getDailyPnL (today : string) : M Q :=
  checkDailyReset today ;; gets dailyPnL.

(** The loop of [loadState] over the positions of the file. *)
Definition loadPositions (ps : list Position) (m : JsMap.t Position)
  : JsMap.t Position :=
  fold_left (fun m pos => JsMap.set m (pos_id pos) pos) ps m.

(** [loadState], [disk] being what the two files hold ([None] when they
    do not exist). *)
Definition loadState (disk : option Snapshot) : M unit :=
  match disk with
  | Some snapshot =>
      setPositions (loadPositions (snap_positions snapshot)) ;;
      setStats (fun _ => snap_stats snapshot)
  | None => ret tt
  end.

(** [new PositionManager()] on the day [today] over the files [disk]. *)
Definition construct (today : string) (disk : option Snapshot) : State :=
  snd (loadState disk
         {| positions := JsMap.empty; stats := initialStats; dailyPnL := 0;
            dailyStartDate := today; emitted := []; saved := disk |}).

(** The process stops and a new manager is constructed over the files
    the old one left. *)
Definition restart (today : string) (s : State) : State :=
  construct today (saved s).

(** The calls that change a ledger. *)
Inductive Op :=
| AddPosition (today : string) (trade : Trade)
| ResolvePosition (positionId : string) (resolvedPrice : Q) (isWinner : bool)
| GetDailyPnL (today : string).

Definition step (op : Op) : M unit :=
  match op with
  | AddPosition today trade => addPosition today trade ;; ret tt
  | ResolvePosition positionId resolvedPrice isWinner =>
      resolvePosition positionId resolvedPrice isWinner
  | GetDailyPnL today => getDailyPnL today ;; ret tt
  end.

Fixpoint run (ops : list Op) : M unit :=
  match ops with
  | [] => ret tt
  | op :: rest => step op ;; run rest
  end.

(** Every position is stored under its own id. *)
Definition keyed (m : JsMap.t Position) : Prop :=
  forall k p, In (k, p) m -> pos_id p = k.

(** The files hold the current positions and stats, or nothing was ever
    written and there is nothing to write. *)
Definition persisted (s : State) : Prop :=
  saved s = Some {| snap_positions := JsMap.values (positions s);
                    snap_stats := stats s |}
  \/ (saved s = None /\ positions s = JsMap.empty /\ stats s = initialStats).

(** What every reachable ledger satisfies. *)
Definition ledgerInv (s : State) : Prop :=
  JsMap.wf (positions s) /\ keyed (positions s) /\ persisted s.

(** "netProfit" as [printSummary] prints it. *)
Definition netProfit (st : TradingStats) : Q := totalProfit st - totalLoss st.

(** What a position cost, and what the open positions of a map cost
    together ([getTotalExposure] on the map alone). *)
Definition costOf (p : Position) : Q := pos_entryPrice p * pos_size p.

Definition exposureOf (m : JsMap.t Position) : Q :=
  fold_left (fun sum p => sum + pos_entryPrice p * pos_size p)
            (filter (fun p => status_eqb (pos_status p) OPEN) (JsMap.values m))
            0.

(** The part of a position's cost that counts as exposure. *)
Definition openCost (p : Position) : Q :=
  if status_eqb (pos_status p) OPEN then costOf p else 0.

End LedgerOps.

(** ** services/websocket.ts: subscriptions and disconnection *)

Module FeedOps.
Import Feed.

(** [Set.prototype.add] and [delete] on a set kept in insertion order. *)
Definition setAdd (x : string) (l : list string) : list string :=
  if existsb (String.eqb x) l then l else (l ++ [x])%list.

Definition setDelete (x : string) (l : list string) : list string :=
  filter (fun y => negb (String.eqb x y)) l.

Definition withSubscribed (s : State) (assets : list string) : State :=
  {| ws := ws s; subscribedAssets := assets;
     reconnectAttempts := reconnectAttempts s;
     isConnecting := isConnecting s; pinging := pinging s |}.

Definition subscribeToAsset (assetId : string) (s : State)
  : State * list Action :=
  let s1 := withSubscribed s (setAdd assetId (subscribedAssets s)) in
  if negb (isOpen s) then (s1, []) else (s1, [Subscribe assetId]).

(** [subscribeToAssets]: the new state and the [assets_ids] of the one
    message it sends, if it sends one. *)
Definition subscribeToAssets (assetIds : list string) (s : State)
  : State * option (list string) :=
  let s1 :=
    withSubscribed s
      (fold_left (fun l assetId => setAdd assetId l) assetIds
                 (subscribedAssets s)) in
  if negb (isOpen s) then (s1, None) else (s1, Some assetIds).

Definition unsubscribeFromAsset (assetId : string) (s : State) : State :=
  withSubscribed s (setDelete assetId (subscribedAssets s)).

(** [disconnect]: the new state, and whether there was a socket to
    close. *)
Definition disconnect (s : State) : State * bool :=
  ({| ws := None; subscribedAssets := [];
      reconnectAttempts := reconnectAttempts s;
      isConnecting := isConnecting s; pinging := false |},
   match ws s with Some _ => true | None => false end).

Definition isConnected (s : State) : bool := isOpen s.

Definition getSubscribedAssets (s : State) : list string :=
  subscribedAssets s.

(** [OpportunityDetector.subscribeToMarkets] over the scanner's
    watchlist. *)
Definition subscribeToMarkets (watchedMarkets : JsMap.t WatchedMarket)
           (s : State) : State * option (list string) :=
  let tokenIds := Scanner.getTokenIds watchedMarkets in
  if (0 <? List.length tokenIds)%nat
  then subscribeToAssets tokenIds s
  else (s, None).

End FeedOps.

(** ** utils/helpers.ts *)

Module Helpers.

(** [truncate].  A string is its sequence of characters and
    [maxLength] an integer; [substring(0, e)] takes nothing when [e] is
    negative. *)
Definition truncate (str : string) (maxLength : Z) : string :=
  if (Z.of_nat (String.length str) <=? maxLength)%Z then str
  else substring 0 (Z.to_nat (maxLength - 3)) str ++ "...".

Section Retry.
Context {T E : Type}.

(** What one call of [fn] settles to; a rejection carries the error as
    [retry] keeps it (a value that is not an [Error] is wrapped into
    one). *)
Inductive Attempt :=
| Resolved (value : T)
| Rejected (error : E).

(** What [retry] settles to: the value returned, or [lastError] thrown
    ([None] for [undefined]). *)
Inductive Settled :=
| Returned (value : T)
| Threw (lastError : option E).

(** The loop of [retry] from [attempt] on, [remaining] being
    [maxRetries - attempt]: how it settles and the delays it slept, in
    order.  [fn i] is what the call of [fn] made in turn [i] settles
    to. *)
Fixpoint retryFrom (fn : nat -> Attempt) (baseDelay : Z)
         (remaining attempt : nat) (lastError : option E)
  : Settled * list Z :=
  match remaining with
  | O => (Threw lastError, [])
  | S remaining' =>
      match fn attempt with
      | Resolved value => (Returned value, [])
      | Rejected error =>
          let (settled, sleeps) :=
            retryFrom fn baseDelay remaining' (S attempt) (Some error) in
          (settled, (baseDelay * 2 ^ Z.of_nat attempt)%Z :: sleeps)
      end
  end.

Definition retry (fn : nat -> Attempt) (maxRetries : nat) (baseDelay : Z)
  : Settled * list Z :=
  retryFrom fn baseDelay maxRetries 0 None.

End Retry.

End Helpers.

(** * Properties *)

(** ** Comparisons *)

Lemma Qltb_lt (x y : Q) : (x <? y) = true <-> x < y.
Proof.
  unfold Qltb. rewrite negb_true_iff, <- not_true_iff_false, Qle_bool_iff.
  split; [apply Qnot_le_lt | apply Qlt_not_le].
Qed.

Lemma Qltb_ge (x y : Q) : (x <? y) = false <-> y <= x.
Proof.
  unfold Qltb. rewrite negb_false_iff. apply Qle_bool_iff.
Qed.

(** ** The position manager's risk gate *)

Section RiskGate.
Import Ledger.
Variable cfg : Config.

Lemma canOpenNewPosition_cases (size price : Q) (s : State) :
  snd (canOpenNewPosition cfg size price s) = s /\
  (fst (canOpenNewPosition cfg size price s) = false <->
   maxTotalExposure cfg < getTotalExposure s + size * price \/
   dailyPnL s < - dailyLossLimit cfg) /\
  (fst (canOpenNewPosition cfg size price s) = true <->
   ~ (maxTotalExposure cfg < getTotalExposure s + size * price \/
      dailyPnL s < - dailyLossLimit cfg)).
Proof.
  unfold canOpenNewPosition, bind, gets, ret.
  destruct (getTotalExposure s + size * price >? maxTotalExposure cfg) eqn:Hexp.
  - apply Qltb_lt in Hexp. cbn.
    intuition (try discriminate; try lra).
  - apply Qltb_ge in Hexp.
    destruct (dailyPnL s <? - dailyLossLimit cfg) eqn:Hday.
    + apply Qltb_lt in Hday. cbn.
      intuition (try discriminate; try lra).
    + apply Qltb_ge in Hday. cbn.
      intuition (try discriminate; try lra).
Qed.

End RiskGate.

(** ** Resolution of a position the ledger does not hold *)

Section UnknownPosition.
Import Ledger.

(** C10. [resolvePosition] on an id the position map does not hold
    changes nothing: positions, stats, daily P&L, the snapshot on disk
    and the list of emitted events (so no [position_resolved]) are what
    they were. *)
Theorem resolvePosition_unknown_id (positionId : string) (resolvedPrice : Q)
        (isWinner : bool) (s : State) :
  JsMap.get (positions s) positionId = None ->
  resolvePosition positionId resolvedPrice isWinner s = (tt, s).
Proof.
  intros Hget. unfold resolvePosition, bind, get. now rewrite Hget.
Qed.

Lemma resolvePosition_unknown_id_witness :
  resolvePosition "trade_1" 1 true (initial Scenario.today)
  = (tt, initial "Mon Nov 02 2026").
Proof.
  apply resolvePosition_unknown_id. reflexivity.
Defined.

End UnknownPosition.

(** ** Order sizing *)

Section OrderSizing.
Import Executor Stated Scenario.

Lemma scale_clamp (d r : Q) :
  (if r >? 1 then d * Qmin r 2 else d) == d * Qmax 1 (Qmin 2 r).
Proof.
  destruct (r >? 1) eqn:Hr.
  - apply Qltb_lt in Hr.
    destruct (Q.min_spec r 2) as [[H1 E1] | [H1 E1]];
      destruct (Q.min_spec 2 r) as [[H2 E2] | [H2 E2]];
      rewrite E1, E2; try lra;
      rewrite Q.max_r by lra; try reflexivity.
    assert (E : r == 2) by lra. now rewrite E.
  - apply Qltb_ge in Hr.
    rewrite (Q.min_r 2 r) by lra. rewrite Q.max_l by lra. ring.
Qed.

Lemma calculateOrderSize_clamped (cfg : Config) (opportunity : Opportunity) :
  calculateOrderSize cfg opportunity == clampedOrderSize cfg opportunity.
Proof.
  unfold calculateOrderSize, clampedOrderSize, floorToCents, profitRatio.
  cbv zeta. rewrite scale_clamp. rewrite Q.min_comm. reflexivity.
Qed.

End OrderSizing.

(** ** Lookups in a [Map] *)

Section JsMapFacts.
Context {V : Type}.
Implicit Types (m : JsMap.t V) (k : string) (v : V).

Lemma get_set_same m k v : JsMap.get (JsMap.set m k v) k = Some v.
Proof.
  induction m as [| [k' v'] m IH]; cbn.
  - now rewrite String.eqb_refl.
  - destruct (String.eqb k' k) eqn:E; cbn; rewrite E; [reflexivity | exact IH].
Qed.

Lemma get_set_other m k k' v :
  k <> k' -> JsMap.get (JsMap.set m k v) k' = JsMap.get m k'.
Proof.
  intros Hne. induction m as [| [k0 v0] m IH]; cbn.
  - apply String.eqb_neq in Hne. now rewrite Hne.
  - destruct (String.eqb k0 k) eqn:E; cbn.
    + apply String.eqb_eq in E. subst k0.
      apply String.eqb_neq in Hne. now rewrite Hne.
    + now rewrite IH.
Qed.

Lemma has_In_keys m k : JsMap.has m k = true <-> In k (JsMap.keys m).
Proof.
  unfold JsMap.has. induction m as [| [k' v'] m IH]; cbn.
  - split; [discriminate | tauto].
  - destruct (String.eqb k' k) eqn:E.
    + apply String.eqb_eq in E. tauto.
    + apply String.eqb_neq in E. rewrite IH. tauto.
Qed.

Lemma In_keys_set m k v k' :
  In k' (JsMap.keys (JsMap.set m k v)) <-> k' = k \/ In k' (JsMap.keys m).
Proof.
  induction m as [| [k0 v0] m IH]; cbn.
  - intuition congruence.
  - destruct (String.eqb k0 k) eqn:E; cbn.
    + apply String.eqb_eq in E. subst k0. intuition congruence.
    + rewrite IH. tauto.
Qed.

Lemma wf_set m k v : JsMap.wf m -> JsMap.wf (JsMap.set m k v).
Proof.
  unfold JsMap.wf. induction m as [| [k0 v0] m IH]; cbn; intros Hwf.
  - constructor; [tauto | constructor].
  - inversion Hwf as [| ? ? Hnotin Hrest]; subst.
    destruct (String.eqb k0 k) eqn:E; cbn.
    + now constructor.
    + apply String.eqb_neq in E. constructor; [| now apply IH].
      fold (JsMap.keys (JsMap.set m k v)). rewrite In_keys_set.
      intros [-> | Hin]; [now apply E | now apply Hnotin].
Qed.

Lemma In_keys_delete m k k' :
  JsMap.wf m ->
  (In k' (JsMap.keys (JsMap.delete m k)) <-> In k' (JsMap.keys m) /\ k' <> k).
Proof.
  unfold JsMap.wf. induction m as [| [k0 v0] m IH]; cbn; intros Hwf.
  - tauto.
  - inversion Hwf as [| ? ? Hnotin Hrest]; subst.
    destruct (String.eqb k0 k) eqn:E; cbn.
    + apply String.eqb_eq in E. subst k0. split.
      * intros Hin. split; [now right |]. intros ->. now apply Hnotin.
      * intros [[-> | Hin] Hne]; [now elim Hne | exact Hin].
    + apply String.eqb_neq in E. rewrite (IH Hrest). split.
      * intros [<- | [Hin Hne]]; [split; [now left | exact E] | tauto].
      * intros [[<- | Hin] Hne]; [now left | right; tauto].
Qed.

Lemma wf_delete m k : JsMap.wf m -> JsMap.wf (JsMap.delete m k).
Proof.
  unfold JsMap.wf. induction m as [| [k0 v0] m IH]; cbn; intros Hwf.
  - constructor.
  - inversion Hwf as [| ? ? Hnotin Hrest]; subst.
    destruct (String.eqb k0 k) eqn:E; cbn; [exact Hrest |].
    constructor; [| now apply IH].
    fold (JsMap.keys (JsMap.delete m k)).
    rewrite (In_keys_delete m k k0 Hrest). tauto.
Qed.

End JsMapFacts.

(** ** Resolution of a held position *)

Section Resolution.
Import Ledger Stated Scenario.

Lemma jsNum_pos (n : nat) : (0 < n)%nat -> (jsNum n >? 0) = true.
Proof.
  intros Hn. apply Qltb_lt. unfold jsNum.
  change 0 with (inject_Z 0). rewrite <- Zlt_Qlt. lia.
Qed.

Lemma updateRates_rates (st : TradingStats) :
  (0 < winningTrades st + losingTrades st)%nat ->
  winRate (updateRates st) == 100 * statedWinRate (updateRates st) /\
  averageProfit (updateRates st) == statedAverageProfit (updateRates st).
Proof.
  intros Hpos. unfold updateRates, statedWinRate, statedAverageProfit.
  cbn. rewrite (jsNum_pos _ Hpos). split; [ring | reflexivity].
Qed.

(** C4, as the code has it.  Resolving a position the ledger holds
    computes pnl = (isWinner ? size : 0) - entryPrice x size, stores the
    position with status RESOLVED_WIN or RESOLVED_LOSS (the other
    positions are untouched), adds pnl to the daily P&L and emits
    [position_resolved]; afterwards the stored win
    rate is the percentage 100 x winners/(winners+losers) and the stored
    average profit is (totalProfit - totalLoss)/(winners+losers).  A
    winner adds pnl to totalProfit and one to winningTrades; with
    entryPrice 0.98 and size 100 that pnl is 2. *)
Theorem resolvePosition_bookkeeping (positionId : string) (resolvedPrice : Q)
        (isWinner : bool) (s : State) (position : Position) :
  JsMap.get (positions s) positionId = Some position ->
  let s' := snd (resolvePosition positionId resolvedPrice isWinner s) in
  let pnl := statedPnl position isWinner in
  let resolved :=
    withStatus position (if isWinner then RESOLVED_WIN else RESOLVED_LOSS) in
  JsMap.get (positions s') positionId = Some resolved /\
  (forall other, other <> positionId ->
     JsMap.get (positions s') other = JsMap.get (positions s) other) /\
  emitted s' = (emitted s ++ [position_resolved resolved pnl])%list /\
  dailyPnL s' = dailyPnL s + pnl /\
  winRate (stats s') == 100 * statedWinRate (stats s') /\
  averageProfit (stats s') == statedAverageProfit (stats s') /\
  (isWinner = true ->
   winningTrades (stats s') = S (winningTrades (stats s)) /\
   losingTrades (stats s') = losingTrades (stats s) /\
   totalProfit (stats s') = totalProfit (stats s) + pnl /\
   (pos_entryPrice position == 98 / 100 -> pos_size position == 100 ->
    pnl == 2 /\ totalProfit (stats s') == totalProfit (stats s) + 2)) /\
  (isWinner = false ->
   losingTrades (stats s') = S (losingTrades (stats s)) /\
   winningTrades (stats s') = winningTrades (stats s) /\
   totalLoss (stats s') = totalLoss (stats s) + Qabs pnl).
Proof.
  intros Hget. unfold resolvePosition, bind, get. rewrite Hget.
  unfold setPositions, setStats, setDaily, saveState, emit, modify.
  cbn -[updateRates JsMap.get JsMap.set].
  split; [apply get_set_same |].
  split; [intros other Hne; apply get_set_other; congruence |].
  split; [reflexivity |]. split; [reflexivity |].
  destruct isWinner.
  - destruct (updateRates_rates (recordWin (pnlOf position true) (stats s)))
      as [Hw Ha]; [cbn; lia |].
    split; [exact Hw |]. split; [exact Ha |]. split; [| discriminate].
    intros _. cbn. do 3 (split; [reflexivity |]).
    intros Hprice Hsize. unfold pnlOf, statedPnl. rewrite Hprice, Hsize.
    split; field.
  - destruct (updateRates_rates (recordLoss (pnlOf position false) (stats s)))
      as [Hw Ha]; [cbn; lia |].
    split; [exact Hw |]. split; [exact Ha |]. split; [discriminate |].
    intros _. cbn. repeat split; reflexivity.
Qed.

Lemma resolvePosition_bookkeeping_witness :
  let s' := snd (resolvePosition "trade_1" 1 true oneOpen) in
  JsMap.get (positions s') "trade_1"
  = Some (withStatus firstPosition RESOLVED_WIN) /\
  winRate (stats s') == 100 * statedWinRate (stats s').
Proof.
  pose proof (resolvePosition_bookkeeping "trade_1" 1 true oneOpen
                firstPosition eq_refl) as H.
  cbv zeta in H. destruct H as (Hpos & _ & _ & _ & Hrate & _).
  split; [exact Hpos | exact Hrate].
Defined.

(** After the first position (0.98 x 100) resolves as a winner the
    stored win rate is 100, where winners/(winners+losers) is 1. *)
Lemma winRate_is_a_percentage :
  let s' := snd (resolvePosition "trade_1" 1 true oneOpen) in
  winRate (stats s') == 100 /\
  statedWinRate (stats s') == 1 /\
  ~ winRate (stats s') == statedWinRate (stats s').
Proof.
  repeat split; vm_compute; discriminate.
Qed.

End Resolution.

(** ** The opportunity rule *)

Section OpportunityRule.
Import Detector.
Variable cfg : Config.

(** C5. An evaluated order book makes the detector emit an opportunity
    exactly when it has a first ask whose price lies in
    [minCertaintyPrice, maxBuyPrice], whose size is at least the book's
    minimum order size, and for which
    (1 - price) x min(size, maxPositionSize) is at least
    minProfitThreshold; the opportunity emitted carries that price and
    that expected profit. *)
Theorem analyzeOpportunity_emits_iff (markets : JsMap.t WatchedMarket)
        (now : Z) (tokenId : string) (orderBook : OrderBook) :
  (exists o, analyzeOpportunity cfg markets now tokenId orderBook = Some o) <->
  (exists ask rest,
     book_asks orderBook = ask :: rest /\
     minCertaintyPrice cfg <= level_price ask /\
     level_price ask <= maxBuyPrice cfg /\
     book_minOrderSize orderBook <= level_size ask /\
     minProfitThreshold cfg
     <= (1 - level_price ask) * Qmin (level_size ask) (maxPositionSize cfg)).
Proof.
  unfold analyzeOpportunity.
  destruct (book_asks orderBook) as [| ask rest].
  - split; [intros [o Ho]; discriminate | intros (a & r & Hnil & _); discriminate].
  - destruct (level_price ask >=? minCertaintyPrice cfg) eqn:Hmin;
    destruct (level_price ask <=? maxBuyPrice cfg) eqn:Hmax;
    destruct (level_size ask >=? book_minOrderSize orderBook) eqn:Hsize;
    cbn [andb];
    try (destruct ((1 - level_price ask)
                   * Qmin (level_size ask) (maxPositionSize cfg)
                   >=? minProfitThreshold cfg) eqn:Hprofit);
    try (destruct (findMarketInfo markets tokenId) as [marketId outcome]);
    (split;
     [ intros [o Ho]; try discriminate;
       exists ask, rest; repeat split; now apply Qle_bool_iff
     | intros (a & r & [= <- <-] & H1 & H2 & H3 & H4);
       apply Qle_bool_iff in H1, H2, H3, H4;
       try congruence; eexists; reflexivity ]).
Qed.

(** A ['book'] message is evaluated by the same rule: the check
    [handleBookUpdate] makes first is part of it. *)
Lemma handleBookUpdate_analyzes (markets : JsMap.t WatchedMarket) (now : Z)
      (data : BookMessage) :
  handleBookUpdate cfg markets now data
  = analyzeOpportunity cfg markets now (msg_asset_id data)
      {| book_market := msg_market data;
         book_assetId := msg_asset_id data;
         book_bids := msg_bids data;
         book_asks := msg_asks data;
         book_minOrderSize := orElse (msg_min_tick_size data) 1;
         book_tickSize := orElse (msg_tick_size data) (1 / 100) |}.
Proof.
  unfold handleBookUpdate, analyzeOpportunity. cbn [book_asks].
  destruct (msg_asks data) as [| ask rest]; [reflexivity |].
  destruct (level_price ask >=? minCertaintyPrice cfg);
    destruct (level_price ask <=? maxBuyPrice cfg); reflexivity.
Qed.

End OpportunityRule.

(** ** The execution queue *)

Section Staleness.
Import Executor.
Variables (cfg : Config) (isEnabled : bool).
Variables (clock : nat -> Z) (env : nat -> ExecEnv).

Lemma drain_nth (queue : list Opportunity) :
  forall (k i : nat) (opportunity : Opportunity),
    nth_error queue i = Some opportunity ->
    nth_error (drain cfg isEnabled clock env k queue) i
    = Some (if (clock (k + i)%nat - opp_timestamp opportunity
                >? stalenessWindow)%Z
            then Expired opportunity
            else Executed opportunity
                   (executeOpportunity cfg isEnabled (env (k + i)%nat)
                                       opportunity)).
Proof.
  induction queue as [| o queue IH]; intros k i opportunity Hnth.
  - destruct i; discriminate.
  - destruct i as [| i]; cbn in Hnth |- *.
    + injection Hnth as ->. rewrite Nat.add_0_r.
      destruct (clock k - opp_timestamp opportunity >? stalenessWindow)%Z;
        reflexivity.
    + replace (k + S i)%nat with (S k + i)%nat by lia.
      destruct (clock k - opp_timestamp o >? stalenessWindow)%Z;
        cbn; now apply IH.
Qed.

Lemma drain_length (queue : list Opportunity) (k : nat) :
  List.length (drain cfg isEnabled clock env k queue) = List.length queue.
Proof.
  revert k. induction queue as [| o queue IH]; intros k; cbn;
    [reflexivity |].
  destruct (clock k - opp_timestamp o >? stalenessWindow)%Z;
    cbn; now rewrite IH.
Qed.

(** C7. When the worker drains a queue, the opportunity it dequeues in
    turn [i] is dropped without a call of [executeOpportunity] if its
    detection timestamp lies more than 5000 ms before the clock of that
    turn, and [executeOpportunity] is called on it if it is at most
    5000 ms old. *)
Theorem processQueue_staleness (s : QueueState) (i : nat)
        (opportunity : Opportunity) :
  isProcessing s = false ->
  nth_error (executionQueue s) i = Some opportunity ->
  let age := (clock i - opp_timestamp opportunity)%Z in
  let outcomes := snd (processQueue cfg isEnabled clock env s) in
  ((5000 < age)%Z -> nth_error outcomes i = Some (Expired opportunity)) /\
  ((age <= 5000)%Z ->
   nth_error outcomes i
   = Some (Executed opportunity
             (executeOpportunity cfg isEnabled (env i) opportunity))) /\
  List.length outcomes = List.length (executionQueue s) /\
  executionQueue (fst (processQueue cfg isEnabled clock env s)) = [].
Proof.
  intros Hidle Hnth. unfold processQueue. rewrite Hidle. cbn [orb].
  destruct (executionQueue s) as [| o queue] eqn:Hq.
  - destruct i; discriminate.
  - cbn [List.length Nat.eqb fst snd]. rewrite <- Hq in *.
    pose proof (drain_nth (executionQueue s) 0 i opportunity Hnth) as Hd.
    cbn [Nat.add] in Hd. unfold stalenessWindow in Hd.
    repeat split.
    + intros Hold. rewrite Hd.
      destruct (Z.gtb_spec (clock i - opp_timestamp opportunity) 5000);
        [reflexivity | lia].
    + intros Hfresh. rewrite Hd.
      destruct (Z.gtb_spec (clock i - opp_timestamp opportunity) 5000);
        [lia | reflexivity].
    + rewrite drain_length, Hq. reflexivity.
Qed.

End Staleness.

Section StalenessExample.
Import Executor Scenario.

(** A queue of one opportunity detected at 1000, drained at 7000: it is
    6000 ms old and is dropped; no call of [executeOpportunity] is
    made. *)
Lemma processQueue_staleness_witness :
  let s := {| executionQueue := [detectedAt 1000]; isProcessing := false |} in
  let outcomes :=
    snd (processQueue config true (fun _ => 7000%Z)
                      (fun _ => fillingEnv "trade_1") s) in
  nth_error outcomes 0 = Some (Expired (detectedAt 1000)) /\
  executionCalls outcomes = [].
Proof.
  cbv zeta.
  destruct (processQueue_staleness config true (fun _ => 7000%Z)
              (fun _ => fillingEnv "trade_1")
              {| executionQueue := [detectedAt 1000]; isProcessing := false |}
              0 (detectedAt 1000) eq_refl eq_refl) as (Hold & _).
  split; [apply Hold; cbn; lia | reflexivity].
Defined.

End StalenessExample.

(** ** Reconnection of the feed *)

Section Reconnection.
Import Feed Stated.

Lemma onClose_actions (s : State) :
  snd (onClose s) = closeActions (reconnectAttempts s) /\
  reconnectAttempts (fst (onClose s))
  = if (maxReconnectAttempts <=? reconnectAttempts s)%nat
    then reconnectAttempts s else S (reconnectAttempts s).
Proof.
  unfold onClose, attemptReconnect, closeActions. cbn [reconnectAttempts].
  destruct (maxReconnectAttempts <=? reconnectAttempts s)%nat.
  - split; reflexivity.
  - unfold connect, isOpen. cbn [ws isConnecting orb].
    replace (Z.of_nat (S (reconnectAttempts s)) - 1)%Z
      with (Z.of_nat (reconnectAttempts s)) by lia.
    destruct (ws s); split; reflexivity.
Qed.

Lemma closes_actions (n : nat) :
  forall s : State,
    (reconnectAttempts s + n <= maxReconnectAttempts)%nat ->
    snd (closes n s) = map closeActions (seq (reconnectAttempts s) n) /\
    reconnectAttempts (fst (closes n s)) = (reconnectAttempts s + n)%nat.
Proof.
  induction n as [| n IH]; intros s Hle; cbn [closes seq map].
  - split; [reflexivity | cbn; lia].
  - destruct (onClose_actions s) as [Hact Hcount].
    destruct (onClose s) as [s1 actions]. cbn [fst snd] in Hact, Hcount.
    destruct (Nat.leb_spec maxReconnectAttempts (reconnectAttempts s));
      [lia |].
    destruct (IH s1) as [Hlater Hfinal]; [lia |].
    destruct (closes n s1) as [s2 later]. cbn [fst snd] in *.
    rewrite Hact, Hlater, Hfinal, Hcount. split; [reflexivity | lia].
Qed.

Lemma closes_S (n : nat) (s : State) :
  closes (S n) s
  = let (s1, actions) := onClose s in
    let (s2, later) := closes n s1 in (s2, actions :: later).
Proof. reflexivity. Qed.

Lemma closes_snoc (n : nat) :
  forall s : State,
    closes (S n) s
    = (fst (onClose (fst (closes n s))),
       (snd (closes n s) ++ [snd (onClose (fst (closes n s)))])%list).
Proof.
  induction n as [| n IH]; intros s.
  - cbn. destruct (onClose s); reflexivity.
  - rewrite (closes_S (S n) s), (closes_S n s).
    destruct (onClose s) as [s1 actions]. rewrite (IH s1).
    destruct (closes n s1) as [s2 later]. reflexivity.
Qed.

(** C9. From a feed with no failed attempt counted, eleven closes in a
    row (no successful open in between) do this: the n-th close, for
    n = 1..10, announces the disconnection, waits 1000 x 2^(n-1) ms and
    opens a socket; the eleventh announces the disconnection, emits
    [max_reconnect_failed] and opens no socket. *)
Theorem reconnect_backoff (s : State) :
  reconnectAttempts s = 0%nat ->
  (forall n : nat,
     (1 <= n <= 10)%nat ->
     nth_error (snd (closes 11 s)) (n - 1)
     = Some [Emit disconnected; Wait (1000 * 2 ^ (Z.of_nat n - 1)); OpenSocket]) /\
  nth_error (snd (closes 11 s)) 10
  = Some [Emit disconnected; Emit max_reconnect_failed] /\
  List.length (snd (closes 11 s)) = 11%nat.
Proof.
  intros Hzero.
  assert (Hall : snd (closes 11 s) = map closeActions (seq 0 11)).
  { destruct (closes_actions 10 s) as [Hten Hcount];
      [rewrite Hzero; unfold maxReconnectAttempts; lia |].
    rewrite Hzero in Hten, Hcount. cbn [Nat.add] in Hcount.
    rewrite (closes_snoc 10 s). cbn [snd].
    destruct (onClose_actions (fst (closes 10 s))) as [Hlast _].
    rewrite Hlast, Hcount, Hten. reflexivity. }
  rewrite Hall. repeat split.
  intros n Hn.
  assert (Hcases : (n = 1 \/ n = 2 \/ n = 3 \/ n = 4 \/ n = 5 \/ n = 6
                    \/ n = 7 \/ n = 8 \/ n = 9 \/ n = 10)%nat) by lia.
  repeat (destruct Hcases as [-> | Hcases]; [reflexivity |]).
  subst n. reflexivity.
Qed.

Lemma reconnect_backoff_witness :
  nth_error (snd (closes 11 initial)) 3
  = Some [Emit disconnected; Wait 8000; OpenSocket] /\
  nth_error (snd (closes 11 initial)) 10
  = Some [Emit disconnected; Emit max_reconnect_failed].
Proof.
  destruct (reconnect_backoff initial eq_refl) as (Hn & Hlast & _).
  split; [apply (Hn 4%nat); lia | exact Hlast].
Defined.

End Reconnection.

(** ** The watchlist after a scan *)

Section Watchlist.
Import Scanner Stated.
Variables (cfg : Config) (now : Z).

Lemma hoursUntilEnd_pos (market : Market) :
  (hoursUntilEnd now market >? 0) = true
  <-> (0 < market_endDate market - now)%Z.
Proof.
  rewrite Qltb_lt, Zlt_Qlt. unfold hoursUntilEnd.
  generalize (inject_Z (market_endDate market - now)). intros d.
  assert (E : d / msPerHour == d * (1 # 3600000)) by (unfold msPerHour; field).
  rewrite E. change (inject_Z 0) with 0. split; intros H; lra.
Qed.

Lemma hoursUntilEnd_within_day (market : Market) :
  (hoursUntilEnd now market <=? 24) = true
  <-> (market_endDate market - now <= dayMs)%Z.
Proof.
  rewrite Qle_bool_iff, Zle_Qle. unfold hoursUntilEnd.
  generalize (inject_Z (market_endDate market - now)). intros d.
  assert (E : d / msPerHour == d * (1 # 3600000)) by (unfold msPerHour; field).
  rewrite E. change (inject_Z dayMs) with 86400000. split; intros H; lra.
Qed.

Lemma hoursUntilEnd_beyond_day (market : Market) :
  (hoursUntilEnd now market >? 24) = true
  <-> (dayMs < market_endDate market - now)%Z.
Proof.
  rewrite Qltb_lt, Zlt_Qlt. unfold hoursUntilEnd.
  generalize (inject_Z (market_endDate market - now)). intros d.
  assert (E : d / msPerHour == d * (1 # 3600000)) by (unfold msPerHour; field).
  rewrite E. change (inject_Z dayMs) with 86400000. split; intros H; lra.
Qed.

Lemma existsb_price (threshold : Q) (market : Market) :
  existsb (fun t => token_price t >=? threshold) (market_tokens market) = true
  <-> hasTokenAtLeast threshold market.
Proof.
  unfold hasTokenAtLeast. rewrite existsb_exists.
  split; intros (t & Hin & Hp); exists t; split; auto;
    now apply Qle_bool_iff.
Qed.

Lemma eligibleEntries_In (market m : Market) :
  In m (eligibleEntries cfg now market) <-> m = market /\ eligible cfg now market.
Proof.
  unfold eligibleEntries, eligible. cbv zeta.
  rewrite <- hoursUntilEnd_pos, <- hoursUntilEnd_within_day,
    <- hoursUntilEnd_beyond_day, <- !existsb_price.
  destruct (market_active market), (market_closed market),
    (market_archived market); cbn [negb orb];
    try (split; [intros [] | intros (_ & ? & ? & ? & _); discriminate]).
  destruct (hoursUntilEnd now market >? 0);
    destruct (hoursUntilEnd now market <=? 24);
    destruct (hoursUntilEnd now market >? 24);
    destruct (existsb _ _); destruct (existsb _ _);
    cbn [andb app In];
    intuition (subst; try discriminate; auto).
Qed.

Lemma filterEligibleMarkets_In (markets : list Market) (m : Market) :
  In m (filterEligibleMarkets cfg now markets)
  <-> In m markets /\ eligible cfg now m.
Proof.
  induction markets as [| market rest IH]; cbn.
  - tauto.
  - rewrite in_app_iff, eligibleEntries_In, IH.
    intuition (subst; auto).
Qed.

Lemma foundIn_iff (eligibleMarkets : list Market) (id : string) :
  foundIn eligibleMarkets id = true
  <-> exists m, In m eligibleMarkets /\ market_id m = id.
Proof.
  unfold foundIn.
  destruct (find _ eligibleMarkets) as [m |] eqn:Hfind.
  - apply find_some in Hfind. destruct Hfind as [Hin Heq].
    apply String.eqb_eq in Heq. split; [intros _; now exists m | reflexivity].
  - split; [discriminate |]. intros (m & Hin & Hid).
    apply (find_none _ _ Hfind) in Hin. apply String.eqb_neq in Hin.
    contradiction.
Qed.

Lemma addEligible_keys (eligibleMarkets : list Market) :
  forall (watched : JsMap.t WatchedMarket) (id : string),
    In id (JsMap.keys (addEligible now eligibleMarkets watched))
    <-> In id (JsMap.keys watched)
        \/ exists m, In m eligibleMarkets /\ market_id m = id.
Proof.
  induction eligibleMarkets as [| market rest IH]; intros watched id;
    cbn [addEligible In].
  - split; [tauto | intros [H | (m & [] & _)]; exact H].
  - rewrite IH. destruct (JsMap.has watched (market_id market)) eqn:Hhas;
      cbn [negb].
    + apply has_In_keys in Hhas. split.
      * intros [H | (m & Hin & Hid)]; [now left | right; exists m; tauto].
      * intros [H | (m & [<- | Hin] & Hid)];
          [now left | subst id; now left | right; exists m; tauto].
    + rewrite In_keys_set. split.
      * intros [[-> | H] | (m & Hin & Hid)];
          [right; exists market; tauto | now left | right; exists m; tauto].
      * intros [H | (m & [<- | Hin] & Hid)];
          [left; now right | left; left; now symmetry
          | right; exists m; tauto].
Qed.

Lemma addEligible_wf (eligibleMarkets : list Market) :
  forall watched : JsMap.t WatchedMarket,
    JsMap.wf watched -> JsMap.wf (addEligible now eligibleMarkets watched).
Proof.
  induction eligibleMarkets as [| market rest IH]; intros watched Hwf;
    cbn [addEligible].
  - exact Hwf.
  - apply IH. destruct (negb _); [now apply wf_set | exact Hwf].
Qed.

(** Deleting while iterating: after the visit of the keys [ks], what is
    left of a map is what it held, minus the visited keys that are not
    among the eligible markets. *)
Lemma removal_keys (eligibleMarkets : list Market) (ks : list string) :
  forall (watched : JsMap.t WatchedMarket) (id : string),
    JsMap.wf watched ->
    let watched' :=
      fold_left
        (fun w k => if negb (foundIn eligibleMarkets k)
                    then JsMap.delete w k else w) ks watched in
    JsMap.wf watched' /\
    (In id (JsMap.keys watched')
     <-> In id (JsMap.keys watched)
         /\ (In id ks -> foundIn eligibleMarkets id = true)).
Proof.
  induction ks as [| k ks IH]; intros watched id Hwf; cbn [fold_left In].
  - split; [exact Hwf | tauto].
  - destruct (foundIn eligibleMarkets k) eqn:Hfound; cbn [negb].
    + destruct (IH watched id Hwf) as [Hwf' Hiff]. split; [exact Hwf' |].
      rewrite Hiff. split; intros [Hin Hks]; split; auto.
      intros [<- | H]; auto.
    + destruct (IH (JsMap.delete watched k) id (wf_delete _ _ Hwf))
        as [Hwf' Hiff].
      split; [exact Hwf' |]. rewrite Hiff, (In_keys_delete _ _ _ Hwf).
      split.
      * intros [[Hin Hne] Hks]. split; [exact Hin |].
        intros [-> | H]; [now elim Hne | auto].
      * intros [Hin Hks]. split; [split; [exact Hin |] | auto].
        intros ->. rewrite Hks in Hfound by now left. discriminate.
Qed.

(** C6. After a scan of any fetched market set, a market id is in the
    watchlist exactly when a fetched market with that id satisfies the
    eligibility rule (active, not closed, not archived, and either
    time-to-end in (0, 24h] with a token priced at the certainty
    threshold or more, or time-to-end above 24h with a token priced at
    0.99 or more); in particular every market watched before that no
    longer does is gone after the scan. *)
Theorem scan_watchlist_exact (markets : list Market)
        (watched : JsMap.t WatchedMarket) :
  JsMap.wf watched ->
  let watched' := scan cfg now markets watched in
  JsMap.wf watched' /\
  (forall id : string,
     JsMap.has watched' id = true
     <-> exists m, In m markets /\ market_id m = id /\ eligible cfg now m) /\
  (forall id : string,
     JsMap.has watched id = true ->
     ~ (exists m, In m markets /\ market_id m = id /\ eligible cfg now m) ->
     JsMap.has watched' id = false).
Proof.
  intros Hwf. cbv zeta. unfold scan, removeIneligible.
  set (eligibleMarkets := filterEligibleMarkets cfg now markets).
  set (added := addEligible now eligibleMarkets watched).
  assert (Hadded : JsMap.wf added) by now apply addEligible_wf.
  assert (Hexact : forall id,
            JsMap.has
              (fold_left
                 (fun w k => if negb (foundIn eligibleMarkets k)
                             then JsMap.delete w k else w)
                 (JsMap.keys added) added) id = true
            <-> exists m, In m markets /\ market_id m = id
                          /\ eligible cfg now m).
  { intros id.
    destruct (removal_keys eligibleMarkets (JsMap.keys added) added id Hadded)
      as [_ Hiff].
    rewrite has_In_keys, Hiff. clear Hiff. split.
    - intros [Hin Hfound]. specialize (Hfound Hin).
      apply foundIn_iff in Hfound. destruct Hfound as (m & Hm & Hid).
      apply filterEligibleMarkets_In in Hm. exists m. tauto.
    - intros (m & Hin & Hid & Hel).
      assert (Hm : In m eligibleMarkets)
        by (apply filterEligibleMarkets_In; tauto).
      split.
      + apply addEligible_keys. right. now exists m.
      + intros _. apply foundIn_iff. now exists m. }
  split; [| split].
  - apply (removal_keys eligibleMarkets (JsMap.keys added) added "" Hadded).
  - exact Hexact.
  - intros id _ Hno. apply not_true_is_false. intros Hhas.
    apply Hno. now apply Hexact.
Qed.

End Watchlist.

Section WatchlistExample.
Import Scanner Stated Scenario.

Lemma scan_watchlist_exact_witness :
  let watched' := scan config 0 [marketNamed "A" (99 / 100) false] watchingB in
  JsMap.wf watched' /\
  (forall id : string,
     JsMap.has watched' id = true
     <-> exists m, In m [marketNamed "A" (99 / 100) false]
                   /\ market_id m = id /\ eligible config 0 m).
Proof.
  assert (Hwf : JsMap.wf watchingB).
  { vm_compute. constructor; [intros [] | constructor]. }
  destruct (scan_watchlist_exact config 0 [marketNamed "A" (99 / 100) false]
              watchingB Hwf) as (Hwf' & Hexact & _).
  split; [exact Hwf' | exact Hexact].
Defined.

Example scan_evicts_and_adds :
  JsMap.keys (scan config 0 [marketNamed "A" (99 / 100) false] watchingB)
  = ["market_A"].
Proof. reflexivity. Qed.

End WatchlistExample.

(** ** Market and outcome of an emitted opportunity *)

Section MarketInfo.
Import Scanner Detector.

Lemma In_getTokenIds (markets : JsMap.t WatchedMarket) (tokenId : string) :
  In tokenId (getTokenIds markets)
  <-> exists id wm t,
        In (id, wm) markets
        /\ In t (market_tokens (watched_market wm))
        /\ token_tokenId t = tokenId.
Proof.
  unfold getTokenIds, JsMap.values. rewrite in_flat_map. split.
  - intros (wm & Hwm & Hin). apply in_map_iff in Hwm.
    destruct Hwm as ([id wm'] & Heq & Hpair). cbn in Heq. subst wm'.
    apply in_map_iff in Hin. destruct Hin as (t & Ht & Hin).
    now exists id, wm, t.
  - intros (id & wm & t & Hpair & Hin & Ht). exists wm. split.
    + apply in_map_iff. now exists (id, wm).
    + apply in_map_iff. now exists t.
Qed.

Lemma findMarketInfo_found (markets : JsMap.t WatchedMarket)
      (tokenId : string) :
  In tokenId (getTokenIds markets) ->
  exists wm t,
    In (fst (findMarketInfo markets tokenId), wm) markets
    /\ In t (market_tokens (watched_market wm))
    /\ token_tokenId t = tokenId
    /\ snd (findMarketInfo markets tokenId) = token_outcome t.
Proof.
  induction markets as [| [id wm] rest IH]; intros Hin.
  - destruct Hin.
  - cbn [findMarketInfo].
    destruct (find _ (market_tokens (watched_market wm))) as [t |] eqn:Hfind.
    + apply find_some in Hfind. destruct Hfind as [Ht Heq].
      apply String.eqb_eq in Heq. exists wm, t. cbn. tauto.
    + assert (Hrest : In tokenId (getTokenIds rest)).
      { apply In_getTokenIds in Hin.
        destruct Hin as (id' & wm' & t & [[= <- <-] | Hpair] & Ht & Hid).
        - apply (find_none _ _ Hfind) in Ht.
          apply String.eqb_neq in Ht. contradiction.
        - apply In_getTokenIds. now exists id', wm', t. }
      destruct (IH Hrest) as (wm' & t & Hpair & Ht & Hid & Hout).
      exists wm', t. cbn [In]. tauto.
Qed.

Lemma findMarketInfo_missing (markets : JsMap.t WatchedMarket)
      (tokenId : string) :
  ~ In tokenId (getTokenIds markets) ->
  findMarketInfo markets tokenId = ("", "").
Proof.
  induction markets as [| [id wm] rest IH]; intros Hnot; [reflexivity |].
  cbn [findMarketInfo].
  destruct (find _ (market_tokens (watched_market wm))) as [t |] eqn:Hfind.
  - apply find_some in Hfind. destruct Hfind as [Ht Heq].
    apply String.eqb_eq in Heq. elim Hnot.
    apply In_getTokenIds. exists id, wm, t. cbn. tauto.
  - apply IH. intros Hin. apply Hnot. apply In_getTokenIds.
    apply In_getTokenIds in Hin. destruct Hin as (id' & wm' & t & H & Ht & Hid).
    exists id', wm', t. cbn [In]. tauto.
Qed.

Lemma analyzeOpportunity_fields (cfg : Config)
      (markets : JsMap.t WatchedMarket) (now : Z) (tokenId : string)
      (orderBook : OrderBook) (o : Opportunity) :
  analyzeOpportunity cfg markets now tokenId orderBook = Some o ->
  opp_tokenId o = tokenId
  /\ opp_marketId o = fst (findMarketInfo markets tokenId)
  /\ opp_outcome o = snd (findMarketInfo markets tokenId).
Proof.
  unfold analyzeOpportunity.
  destruct (book_asks orderBook) as [| ask rest]; [discriminate |].
  destruct (_ && _); [| discriminate].
  destruct (_ >=? _); [| discriminate].
  destruct (findMarketInfo markets tokenId) as [marketId outcome].
  intros [= <-]. cbn. tauto.
Qed.

(** C2, as the code has it.  An opportunity the detector emits carries
    the token id it was evaluated for.  When some watched market has a
    token with that id, the opportunity's market id is the key of a
    watched market holding such a token and its outcome is that token's
    label; when no watched market has one, the opportunity is emitted
    all the same, with empty market id and outcome. *)
Theorem analyzeOpportunity_market_info (cfg : Config)
        (markets : JsMap.t WatchedMarket) (now : Z) (tokenId : string)
        (orderBook : OrderBook) (o : Opportunity) :
  analyzeOpportunity cfg markets now tokenId orderBook = Some o ->
  opp_tokenId o = tokenId /\
  (In tokenId (getTokenIds markets) ->
   exists wm t,
     In (opp_marketId o, wm) markets
     /\ In t (market_tokens (watched_market wm))
     /\ token_tokenId t = tokenId
     /\ opp_outcome o = token_outcome t) /\
  (~ In tokenId (getTokenIds markets) ->
   opp_marketId o = "" /\ opp_outcome o = "").
Proof.
  intros Hemit. apply analyzeOpportunity_fields in Hemit.
  destruct Hemit as (Htok & Hid & Hout). split; [exact Htok |]. split.
  - intros Hin. rewrite Hid, Hout. now apply findMarketInfo_found.
  - intros Hnot. rewrite Hid, Hout, (findMarketInfo_missing _ _ Hnot).
    split; reflexivity.
Qed.

End MarketInfo.

Section MarketInfoExample.
Import Scanner Detector Scenario.

Lemma analyzeOpportunity_market_info_witness :
  exists o,
    analyzeOpportunity config watchingA 1000 "token_A"
                       (bookFor "A" (99 / 100) 500) = Some o
    /\ opp_tokenId o = "token_A"
    /\ exists wm t,
         In (opp_marketId o, wm) watchingA
         /\ In t (market_tokens (watched_market wm))
         /\ token_tokenId t = "token_A"
         /\ opp_outcome o = token_outcome t.
Proof.
  eexists. split; [reflexivity |].
  destruct (analyzeOpportunity_market_info config watchingA 1000 "token_A"
              (bookFor "A" (99 / 100) 500) _ eq_refl) as (Htok & Hin & _).
  split; [exact Htok |]. apply Hin. left. reflexivity.
Defined.

(** Market A was watched, then closed and evicted by the next scan; the
    feed still delivers its book, and the detector emits an opportunity
    for a token no watched market holds, with empty market id and
    outcome. *)
Lemma opportunity_outside_watchlist :
  JsMap.has watchingA "market_A" = true /\
  exists o,
    handleBookUpdate config afterEviction 31000
                     (messageFor "A" (99 / 100) 500) = Some o
    /\ ~ In (opp_tokenId o) (getTokenIds afterEviction)
    /\ opp_marketId o = "" /\ opp_outcome o = "".
Proof.
  split; [reflexivity |]. eexists. split; [reflexivity |].
  split; [intros [] | split; reflexivity].
Qed.

End MarketInfoExample.

(** ** Exposure against the ceiling *)

Section Exposure.
Import Ledger.

Lemma set_fresh {V : Type} (m : JsMap.t V) (k : string) (v : V) :
  JsMap.has m k = false -> JsMap.set m k v = (m ++ [(k, v)])%list.
Proof.
  unfold JsMap.has. induction m as [| [k' v'] m IH]; cbn; [reflexivity |].
  destruct (String.eqb k' k); [discriminate |].
  intros H. now rewrite IH.
Qed.

Lemma addPosition_exposure (today : string) (trade : Trade) (s : State) :
  JsMap.has (positions s) (trade_id trade) = false ->
  getTotalExposure (snd (addPosition today trade s))
  = getTotalExposure s + trade_price trade * trade_size trade.
Proof.
  intros Hfresh.
  unfold addPosition, checkDailyReset, bind, get, when, setDaily,
    setPositions, setStats, saveState, emit, modify, ret.
  destruct (negb (String.eqb today (dailyStartDate s)));
    cbn [fst snd]; unfold getTotalExposure, getOpenPositions;
    cbn [positions pos_id];
    rewrite (set_fresh _ _ _ Hfresh);
    unfold JsMap.values; rewrite map_app, filter_app, fold_left_app;
    reflexivity.
Qed.

(** Had the gate been asked about the trade that is then admitted, the
    ceiling would hold after [addPosition]. *)
Lemma gate_on_actual_size (cfg : Config) (today : string) (trade : Trade)
      (s : State) :
  JsMap.has (positions s) (trade_id trade) = false ->
  fst (canOpenNewPosition cfg (trade_size trade) (trade_price trade) s) = true ->
  getTotalExposure (snd (addPosition today trade s)) <= maxTotalExposure cfg.
Proof.
  intros Hfresh Hgate. rewrite (addPosition_exposure _ _ _ Hfresh).
  destruct (canOpenNewPosition_cases cfg (trade_size trade) (trade_price trade) s)
    as (_ & _ & Hyes).
  apply Hyes in Hgate. apply Qnot_lt_le. intros Hlt. apply Hgate. left.
  lra.
Qed.

End Exposure.

Section ExposureRun.
Import Ledger Scenario.

(** C1 does not hold of the code.  With the default configuration,
    twenty-six books (ask 0.98 x 500, one market each) are detected and
    handled in turn from an empty ledger.  Every one passes the gate,
    which is asked about [defaultOrderSize] = 100 shares, and every
    trade is sized 200 by [calculateOrderSize].  Before the last one the
    open exposure is 4900 and the gate accepts (4900 + 98 <= 5000);
    after its [addPosition] the open exposure is 5096, above the ceiling
    of 5000. *)
Theorem exposure_exceeds_ceiling :
  getTotalExposure (ledgerAfter 25) == 4900 /\
  fst (canOpenNewPosition config (defaultOrderSize config) (98 / 100)
                          (ledgerAfter 25)) = true /\
  List.length (getOpenPositions (ledgerAfter 26)) = 26%nat /\
  (forall p, In p (getOpenPositions (ledgerAfter 26)) -> pos_size p == 200) /\
  getTotalExposure (ledgerAfter 26) == 5096 /\
  maxTotalExposure config < getTotalExposure (ledgerAfter 26).
Proof.
  split; [vm_compute; reflexivity |].
  split; [vm_compute; reflexivity |].
  split; [vm_compute; reflexivity |].
  split.
  - apply Forall_forall. vm_compute. repeat constructor.
  - split; vm_compute; reflexivity.
Qed.

End ExposureRun.

(** * Further properties *)

(** ** The highest-priced token *)

Section HighPriceToken.
Import Scanner ScannerOps.

Lemma findHighPriceTokenFrom_cases (tokens : list Token) :
  forall (highestPrice : Q) (highestToken : option Token),
    (findHighPriceTokenFrom highestPrice highestToken tokens = highestToken
     /\ forall t, In t tokens -> token_price t <= highestPrice)
    \/ exists pre t post,
         tokens = (pre ++ t :: post)%list
         /\ findHighPriceTokenFrom highestPrice highestToken tokens = Some t
         /\ highestPrice < token_price t
         /\ (forall t', In t' pre -> token_price t' < token_price t)
         /\ (forall t', In t' post -> token_price t' <= token_price t).
Proof.
  induction tokens as [| token rest IH]; intros highestPrice highestToken.
  - left. split; [reflexivity | intros t []].
  - cbn [findHighPriceTokenFrom].
    destruct (token_price token >? highestPrice) eqn:Hgt.
    + apply Qltb_lt in Hgt. right.
      destruct (IH (token_price token) (Some token))
        as [[Hres Hle] | (pre & t & post & Heq & Hres & Hlt & Hpre & Hpost)].
      * exists [], token, rest. cbn. repeat split; auto. intros t' [].
      * exists (token :: pre), t, post. subst rest. cbn.
        repeat split; auto; try lra.
        intros t' [<- | Hin]; [exact Hlt | now apply Hpre].
    + apply Qltb_ge in Hgt.
      destruct (IH highestPrice highestToken)
        as [[Hres Hle] | (pre & t & post & Heq & Hres & Hlt & Hpre & Hpost)].
      * left. split; [exact Hres |].
        intros t [<- | Hin]; [exact Hgt | now apply Hle].
      * right. exists (token :: pre), t, post. subst rest. cbn.
        repeat split; auto.
        intros t' [<- | Hin]; [lra | now apply Hpre].
Qed.

(** X1. The token [findHighPriceToken] returns is a token of the market
    with a positive price; every token listed before it is strictly
    cheaper and every token listed after it is not dearer, so it is the
    first token of maximal price. *)
Theorem findHighPriceToken_first_maximum (market : Market) (t : Token) :
  findHighPriceToken market = Some t ->
  exists pre post,
    market_tokens market = (pre ++ t :: post)%list
    /\ 0 < token_price t
    /\ (forall t', In t' pre -> token_price t' < token_price t)
    /\ (forall t', In t' post -> token_price t' <= token_price t).
Proof.
  unfold findHighPriceToken. intros Hfind.
  destruct (findHighPriceTokenFrom_cases (market_tokens market) 0 None)
    as [[Hres _] | (pre & t0 & post & Heq & Hres & Hlt & Hpre & Hpost)];
    rewrite Hres in Hfind; [discriminate |].
  injection Hfind as <-. now exists pre, post.
Qed.

(** X2. [findHighPriceToken] returns [null] exactly when no token of the
    market has a positive price (in particular for a market without
    tokens). *)
Theorem findHighPriceToken_none_iff (market : Market) :
  findHighPriceToken market = None
  <-> forall t, In t (market_tokens market) -> token_price t <= 0.
Proof.
  unfold findHighPriceToken.
  destruct (findHighPriceTokenFrom_cases (market_tokens market) 0 None)
    as [[Hres Hle] | (pre & t0 & post & Heq & Hres & Hlt & Hpre & Hpost)];
    rewrite Hres.
  - split; [intros _; exact Hle | reflexivity].
  - split; [discriminate |]. intros Hall. exfalso.
    assert (Hin : In t0 (market_tokens market))
      by (rewrite Heq; apply in_or_app; right; now left).
    specialize (Hall t0 Hin). lra.
Qed.

Lemma findHighPriceToken_In (market : Market) (t : Token) :
  findHighPriceToken market = Some t -> In t (market_tokens market).
Proof.
  unfold findHighPriceToken. intros Hfind.
  destruct (findHighPriceTokenFrom_cases (market_tokens market) 0 None)
    as [[Hres _] | (pre & t0 & post & Heq & Hres & _)];
    rewrite Hres in Hfind; [discriminate |].
  injection Hfind as <-. rewrite Heq. apply in_or_app. right. now left.
Qed.

End HighPriceToken.

Section HighPriceTokenExample.
Import Scanner ScannerOps Scenario.

Lemma findHighPriceToken_first_maximum_witness :
  exists pre post,
    market_tokens (marketNamed "A" (99 / 100) false)
    = (pre ++ {| token_tokenId := "token_A"; token_outcome := "Yes";
                 token_price := 99 / 100; token_winner := false |}
           :: post)%list
    /\ 0 < 99 / 100
    /\ (forall t', In t' pre -> token_price t' < 99 / 100)
    /\ (forall t', In t' post -> token_price t' <= 99 / 100).
Proof.
  exact (findHighPriceToken_first_maximum
           (marketNamed "A" (99 / 100) false)
           {| token_tokenId := "token_A"; token_outcome := "Yes";
              token_price := 99 / 100; token_winner := false |}
           eq_refl).
Defined.

End HighPriceTokenExample.

(** ** What a scan stores *)

Section ScanEntries.
Import Scanner ScannerOps Stated.
Variables (cfg : Config) (now : Z).

Lemma get_delete_other {V : Type} (m : JsMap.t V) (k k' : string) :
  k <> k' -> JsMap.get (JsMap.delete m k) k' = JsMap.get m k'.
Proof.
  intros Hne. induction m as [| [k0 v0] m IH]; cbn; [reflexivity |].
  destruct (String.eqb k0 k) eqn:E; cbn.
  - apply String.eqb_eq in E. subst k0.
    apply String.eqb_neq in Hne. now rewrite Hne.
  - now rewrite IH.
Qed.

Lemma has_get {V : Type} (m : JsMap.t V) (k : string) :
  JsMap.has m k = true <-> exists v, JsMap.get m k = Some v.
Proof.
  unfold JsMap.has. destruct (JsMap.get m k) as [v |].
  - split; [intros _; now exists v | reflexivity].
  - split; [discriminate | intros [v Hv]; discriminate].
Qed.

Lemma addEligible_get_present (eligibleMarkets : list Market) :
  forall (watched : JsMap.t WatchedMarket) (id : string) (wm : WatchedMarket),
    JsMap.get watched id = Some wm ->
    JsMap.get (addEligible now eligibleMarkets watched) id = Some wm.
Proof.
  induction eligibleMarkets as [| market rest IH]; intros watched id wm Hget;
    cbn [addEligible]; [exact Hget |].
  apply IH.
  destruct (JsMap.has watched (market_id market)) eqn:Hhas; cbn [negb];
    [exact Hget |].
  rewrite get_set_other; [exact Hget |].
  intros E. unfold JsMap.has in Hhas. rewrite E, Hget in Hhas. discriminate.
Qed.

Lemma addEligible_get_absent (eligibleMarkets : list Market) :
  forall (watched : JsMap.t WatchedMarket) (id : string),
    JsMap.get watched id = None ->
    JsMap.get (addEligible now eligibleMarkets watched) id
    = option_map (freshEntry now)
        (find (fun m => String.eqb (market_id m) id) eligibleMarkets).
Proof.
  induction eligibleMarkets as [| market rest IH]; intros watched id Hget;
    cbn [addEligible find]; [exact Hget |].
  destruct (String.eqb (market_id market) id) eqn:E.
  - apply String.eqb_eq in E. subst id.
    unfold JsMap.has. rewrite Hget. cbn [negb option_map].
    apply addEligible_get_present. apply get_set_same.
  - apply String.eqb_neq in E. apply IH.
    destruct (negb _); [| exact Hget].
    now rewrite get_set_other.
Qed.

Lemma removal_get (eligibleMarkets : list Market) (ks : list string) :
  forall (watched : JsMap.t WatchedMarket) (id : string),
    foundIn eligibleMarkets id = true ->
    JsMap.get
      (fold_left
         (fun w k => if negb (foundIn eligibleMarkets k)
                     then JsMap.delete w k else w) ks watched) id
    = JsMap.get watched id.
Proof.
  induction ks as [| k ks IH]; intros watched id Hfound; cbn [fold_left];
    [reflexivity |].
  rewrite (IH _ id Hfound).
  destruct (foundIn eligibleMarkets k) eqn:Hk; cbn [negb]; [reflexivity |].
  apply get_delete_other. intros ->. congruence.
Qed.

Lemma find_foundIn (eligibleMarkets : list Market) (id : string) (m : Market) :
  find (fun m => String.eqb (market_id m) id) eligibleMarkets = Some m ->
  foundIn eligibleMarkets id = true.
Proof.
  intros Hfind. unfold foundIn. now rewrite Hfind.
Qed.

(** X3. A market that is watched and still eligible keeps the entry it
    has: the scan does not replace its stored snapshot, its [addedAt] or
    its cached highest-priced token by the freshly fetched data. *)
Theorem scan_keeps_watched_entry (markets : list Market)
        (watched : JsMap.t WatchedMarket) (id : string) (wm : WatchedMarket) :
  JsMap.get watched id = Some wm ->
  (exists m, In m markets /\ market_id m = id /\ eligible cfg now m) ->
  JsMap.get (scan cfg now markets watched) id = Some wm.
Proof.
  intros Hget (m & Hin & Hid & Hel). unfold scan, removeIneligible.
  rewrite removal_get.
  - now apply addEligible_get_present.
  - apply foundIn_iff. exists m. split; [| exact Hid].
    apply filterEligibleMarkets_In. tauto.
Qed.

(** X4. A market that was not watched and is eligible enters the
    watchlist with the snapshot of the first eligible fetched market of
    that id, [addedAt] set to the time of the scan and the highest-priced
    token of that snapshot. *)
Theorem scan_adds_fresh_entry (markets : list Market)
        (watched : JsMap.t WatchedMarket) (id : string) (m : Market) :
  JsMap.get watched id = None ->
  find (fun m => String.eqb (market_id m) id)
       (filterEligibleMarkets cfg now markets) = Some m ->
  JsMap.get (scan cfg now markets watched) id
  = Some {| watched_market := m; watched_addedAt := now;
            watched_highPriceToken := findHighPriceToken m |}.
Proof.
  intros Hget Hfind. unfold scan, removeIneligible.
  rewrite removal_get by now apply (find_foundIn _ _ m).
  rewrite (addEligible_get_absent _ _ _ Hget), Hfind. reflexivity.
Qed.

Lemma addEligible_noop (eligibleMarkets : list Market)
      (watched : JsMap.t WatchedMarket) :
  (forall m, In m eligibleMarkets -> JsMap.has watched (market_id m) = true) ->
  addEligible now eligibleMarkets watched = watched.
Proof.
  induction eligibleMarkets as [| market rest IH]; intros Hall;
    cbn [addEligible]; [reflexivity |].
  rewrite (Hall market) by now left. cbn [negb].
  apply IH. intros m Hin. apply Hall. now right.
Qed.

Lemma removal_noop (eligibleMarkets : list Market) (ks : list string)
      (watched : JsMap.t WatchedMarket) :
  (forall k, In k ks -> foundIn eligibleMarkets k = true) ->
  fold_left
    (fun w k => if negb (foundIn eligibleMarkets k)
                then JsMap.delete w k else w) ks watched
  = watched.
Proof.
  revert watched. induction ks as [| k ks IH]; intros watched Hall;
    cbn [fold_left]; [reflexivity |].
  rewrite (Hall k) by now left. cbn [negb].
  apply IH. intros k' Hin. apply Hall. now right.
Qed.

(** X5. Scanning again with the same fetched markets at the same time
    changes nothing: the watchlist a scan leaves is a fixed point of that
    scan. *)
Theorem scan_idempotent (markets : list Market)
        (watched : JsMap.t WatchedMarket) :
  JsMap.wf watched ->
  scan cfg now markets (scan cfg now markets watched)
  = scan cfg now markets watched.
Proof.
  intros Hwf.
  assert (Hkeys : forall id,
            JsMap.has (scan cfg now markets watched) id = true
            <-> foundIn (filterEligibleMarkets cfg now markets) id = true).
  { intros id. rewrite has_In_keys, foundIn_iff. unfold scan, removeIneligible.
    set (eligibleMarkets := filterEligibleMarkets cfg now markets).
    set (added := addEligible now eligibleMarkets watched).
    assert (Hadded : JsMap.wf added) by now apply addEligible_wf.
    destruct (removal_keys eligibleMarkets (JsMap.keys added) added id Hadded)
      as [_ Hiff].
    rewrite Hiff. unfold added. rewrite addEligible_keys.
    rewrite foundIn_iff. tauto. }
  unfold scan at 1. unfold removeIneligible.
  rewrite addEligible_noop.
  - apply removal_noop. intros k Hin. apply Hkeys. now apply has_In_keys.
  - intros m Hin. apply Hkeys. apply foundIn_iff. now exists m.
Qed.

End ScanEntries.

Section ScanEntriesExample.
Import Scanner ScannerOps Stated Scenario.

Lemma scan_keeps_watched_entry_witness :
  JsMap.get (scan config 30000 [marketNamed "A" (98 / 100) false] watchingA)
            "market_A"
  = Some (freshEntry 0 (marketNamed "A" (99 / 100) false)).
Proof.
  apply scan_keeps_watched_entry; [reflexivity |].
  exists (marketNamed "A" (98 / 100) false).
  split; [now left |]. split; [reflexivity |].
  unfold eligible. cbn. repeat split. left.
  split; [unfold dayMs, hourMs; lia |].
  eexists. split; [left; reflexivity |]. cbn. discriminate.
Defined.

Lemma scan_adds_fresh_entry_witness :
  JsMap.get (scan config 0 [marketNamed "A" (99 / 100) false] watchingB)
            "market_A"
  = Some (freshEntry 0 (marketNamed "A" (99 / 100) false)).
Proof.
  apply scan_adds_fresh_entry; reflexivity.
Defined.

Lemma scan_idempotent_witness :
  scan config 0 [marketNamed "A" (99 / 100) false]
       (scan config 0 [marketNamed "A" (99 / 100) false] watchingB)
  = scan config 0 [marketNamed "A" (99 / 100) false] watchingB.
Proof.
  apply scan_idempotent. vm_compute. constructor; [intros [] | constructor].
Defined.

End ScanEntriesExample.

(** ** The tokens polled for books *)

Section PolledTokens.
Import Scanner ScannerOps.

Lemma In_set {V : Type} (m : JsMap.t V) (k : string) (v : V) (e : string * V) :
  In e (JsMap.set m k v) -> e = (k, v) \/ In e m.
Proof.
  induction m as [| [k0 v0] m IH]; cbn.
  - intros [<- | []]. now left.
  - destruct (String.eqb k0 k) eqn:E; cbn.
    + apply String.eqb_eq in E. subst k0.
      intros [<- | Hin]; [now left | right; now right].
    + intros [<- | Hin]; [right; now left |].
      destruct (IH Hin) as [-> | H]; [now left | right; now right].
Qed.

Lemma In_delete {V : Type} (m : JsMap.t V) (k : string) (e : string * V) :
  In e (JsMap.delete m k) -> In e m.
Proof.
  induction m as [| [k0 v0] m IH]; cbn; [tauto |].
  destruct (String.eqb k0 k); cbn; [now right |].
  intros [<- | Hin]; [now left | right; now apply IH].
Qed.

Lemma cachedTokensOk_set (watched : JsMap.t WatchedMarket) (k : string)
      (wm : WatchedMarket) :
  cachedTokensOk watched ->
  (forall t, watched_highPriceToken wm = Some t ->
             In t (market_tokens (watched_market wm))) ->
  cachedTokensOk (JsMap.set watched k wm).
Proof.
  intros Hok Hnew id wm' t Hin Hhigh.
  destruct (In_set _ _ _ _ Hin) as [[= -> ->] | Hold].
  - now apply Hnew.
  - now apply (Hok id).
Qed.

Lemma cachedTokensOk_addEligible (now : Z) (eligibleMarkets : list Market) :
  forall watched : JsMap.t WatchedMarket,
    cachedTokensOk watched ->
    cachedTokensOk (addEligible now eligibleMarkets watched).
Proof.
  induction eligibleMarkets as [| market rest IH]; intros watched Hok;
    cbn [addEligible]; [exact Hok |].
  apply IH. destruct (negb _); [| exact Hok].
  apply cachedTokensOk_set; [exact Hok |].
  cbn. intros t Ht. now apply findHighPriceToken_In.
Qed.

Lemma cachedTokensOk_removal (eligibleMarkets : list Market)
      (ks : list string) :
  forall watched : JsMap.t WatchedMarket,
    cachedTokensOk watched ->
    cachedTokensOk
      (fold_left
         (fun w k => if negb (foundIn eligibleMarkets k)
                     then JsMap.delete w k else w) ks watched).
Proof.
  induction ks as [| k ks IH]; intros watched Hok; cbn [fold_left];
    [exact Hok |].
  apply IH. destruct (negb _); [| exact Hok].
  intros id wm t Hin. apply (Hok id). now apply (In_delete _ k).
Qed.

Lemma getHighPriceTokens_In (watched : JsMap.t WatchedMarket)
      (e : HighPriceEntry) :
  In e (getHighPriceTokens watched) ->
  In (high_marketId e, high_market e) watched
  /\ watched_highPriceToken (high_market e) = Some (high_token e).
Proof.
  induction watched as [| [id wm] rest IH]; cbn [getHighPriceTokens];
    [intros [] |].
  destruct (watched_highPriceToken wm) as [t |] eqn:Hhigh.
  - intros [<- | Hin]; cbn.
    + split; [now left | exact Hhigh].
    + destruct (IH Hin). split; [now right | assumption].
  - intros Hin. destruct (IH Hin). split; [now right | assumption].
Qed.

Lemma scan_cachedTokensOk (cfg : Config) (now : Z) (markets : list Market)
      (watched : JsMap.t WatchedMarket) :
  cachedTokensOk watched -> cachedTokensOk (scan cfg now markets watched).
Proof.
  intros Hok. unfold scan, removeIneligible.
  now apply cachedTokensOk_removal, cachedTokensOk_addEligible.
Qed.

(** X6. A scan keeps every cached highest-priced token among the tokens
    of the market stored with it, so every token [getHighPriceTokens]
    hands to the detector for polling is one of the token ids
    [getTokenIds] gives for subscription, and its entry names a watched
    market. *)
Theorem polled_tokens_are_watched (cfg : Config) (now : Z)
        (markets : list Market) (watched : JsMap.t WatchedMarket) :
  cachedTokensOk watched ->
  let watched' := scan cfg now markets watched in
  cachedTokensOk watched' /\
  forall e, In e (getHighPriceTokens watched') ->
            In (token_tokenId (high_token e)) (getTokenIds watched')
            /\ JsMap.has watched' (high_marketId e) = true.
Proof.
  intros Hok. cbv zeta.
  assert (Hok' : cachedTokensOk (scan cfg now markets watched))
    by now apply scan_cachedTokensOk.
  split; [exact Hok' |]. intros e He.
  apply getHighPriceTokens_In in He. destruct He as [Hin Hhigh]. split.
  - apply In_getTokenIds.
    exists (high_marketId e), (high_market e), (high_token e).
    split; [exact Hin |]. split; [| reflexivity].
    now apply (Hok' (high_marketId e)).
  - apply has_In_keys. unfold JsMap.keys.
    apply in_map_iff. now exists (high_marketId e, high_market e).
Qed.

Lemma keys_set_present {V : Type} (m : JsMap.t V) (k : string) (v v' : V) :
  JsMap.get m k = Some v -> JsMap.keys (JsMap.set m k v') = JsMap.keys m.
Proof.
  unfold JsMap.keys. induction m as [| [k0 v0] m IH]; cbn; [discriminate |].
  destruct (String.eqb k0 k); cbn; [reflexivity |].
  intros Hget. f_equal. now apply IH.
Qed.

(** X7. [refreshMarket] never adds or removes a watched market.  For a
    watched id and a market that came back it replaces the snapshot and
    the cached token and keeps [addedAt]; every other entry is left as it
    was, and with no market back or an id that is not watched the
    watchlist is unchanged. *)
Theorem refreshMarket_keeps_watchlist (marketId : string)
        (fetched : option Market) (watched : JsMap.t WatchedMarket) :
  let watched' := fst (refreshMarket marketId fetched watched) in
  JsMap.keys watched' = JsMap.keys watched /\
  (forall other, other <> marketId ->
                 JsMap.get watched' other = JsMap.get watched other) /\
  (forall market wm,
     fetched = Some market -> JsMap.get watched marketId = Some wm ->
     JsMap.get watched' marketId
     = Some {| watched_market := market;
               watched_addedAt := watched_addedAt wm;
               watched_highPriceToken := findHighPriceToken market |}) /\
  (fetched = None \/ JsMap.get watched marketId = None -> watched' = watched) /\
  (cachedTokensOk watched -> cachedTokensOk watched').
Proof.
  cbv zeta. unfold refreshMarket.
  destruct fetched as [market |];
    [destruct (JsMap.get watched marketId) as [wm |] eqn:Hget |];
    cbn [fst].
  - split; [now apply (keys_set_present _ _ wm) |].
    split; [intros other Hne; apply get_set_other; congruence |].
    split; [intros m' wm' [= <-] [= <-]; apply get_set_same |].
    split; [intros [H | H]; discriminate |].
    intros Hok. apply cachedTokensOk_set; [exact Hok |].
    cbn. intros t Ht. now apply findHighPriceToken_In.
  - repeat split; auto. intros m' wm' _ H. discriminate.
  - repeat split; auto. intros m' wm' H. discriminate.
Qed.

End PolledTokens.

Section PolledTokensExample.
Import Scanner ScannerOps Scenario.

Lemma polled_tokens_are_watched_witness :
  In "token_A" (getTokenIds watchingA)
  /\ JsMap.has watchingA "market_A" = true.
Proof.
  refine (proj2 (polled_tokens_are_watched config 0
                   [marketNamed "A" (99 / 100) false] JsMap.empty _)
            {| high_marketId := "market_A";
               high_token :=
                 {| token_tokenId := "token_A"; token_outcome := "Yes";
                    token_price := 99 / 100; token_winner := false |};
               high_market := freshEntry 0 (marketNamed "A" (99 / 100) false) |}
            _).
  - intros id wm t [].
  - left. reflexivity.
Defined.

End PolledTokensExample.

(** ** What the detector emits *)

Section DetectorEmissions.
Import Scanner ScannerOps Detector DetectorOps.
Variable cfg : Config.

Lemma analyzeOpportunity_values (markets : JsMap.t WatchedMarket) (now : Z)
      (tokenId : string) (orderBook : OrderBook) (o : Opportunity) :
  analyzeOpportunity cfg markets now tokenId orderBook = Some o ->
  exists ask rest,
    book_asks orderBook = ask :: rest
    /\ opp_currentPrice o = level_price ask
    /\ opp_expectedProfit o
       = (1 - level_price ask) * Qmin (level_size ask) (maxPositionSize cfg)
    /\ opp_confidence o = level_price ask * 100
    /\ opp_timestamp o = now
    /\ minCertaintyPrice cfg <= level_price ask
    /\ level_price ask <= maxBuyPrice cfg
    /\ minProfitThreshold cfg <= opp_expectedProfit o.
Proof.
  unfold analyzeOpportunity.
  destruct (book_asks orderBook) as [| ask rest]; [discriminate |].
  destruct (level_price ask >=? minCertaintyPrice cfg) eqn:Hmin;
    [| discriminate].
  destruct (level_price ask <=? maxBuyPrice cfg) eqn:Hmax; [| discriminate].
  destruct (level_size ask >=? book_minOrderSize orderBook); [| discriminate].
  cbn [andb].
  destruct (_ >=? minProfitThreshold cfg) eqn:Hprofit; [| discriminate].
  destruct (findMarketInfo markets tokenId) as [marketId outcome].
  intros [= <-]. exists ask, rest. cbn.
  apply Qle_bool_iff in Hmin, Hmax, Hprofit. tauto.
Qed.

(** X8. An opportunity the detector emits is priced inside
    [minCertaintyPrice, maxBuyPrice], promises at least
    minProfitThreshold, and, when maxBuyPrice is at most 1 and
    maxPositionSize is not negative, promises at most
    (1 - minCertaintyPrice) x maxPositionSize; its confidence is 100
    times its price. *)
Theorem emitted_opportunity_bounds (markets : JsMap.t WatchedMarket)
        (now : Z) (tokenId : string) (orderBook : OrderBook)
        (o : Opportunity) :
  maxBuyPrice cfg <= 1 ->
  0 <= maxPositionSize cfg ->
  analyzeOpportunity cfg markets now tokenId orderBook = Some o ->
  minCertaintyPrice cfg <= opp_currentPrice o /\
  opp_currentPrice o <= maxBuyPrice cfg /\
  minProfitThreshold cfg <= opp_expectedProfit o /\
  opp_expectedProfit o <= (1 - minCertaintyPrice cfg) * maxPositionSize cfg /\
  opp_confidence o == 100 * opp_currentPrice o.
Proof.
  intros Hone Hpos Hemit.
  destruct (analyzeOpportunity_values _ _ _ _ _ Hemit)
    as (ask & rest & _ & Hp & Hprofit & Hconf & _ & Hmin & Hmax & Hthr).
  rewrite Hp, Hconf. repeat split; auto; [| ring].
  rewrite Hprofit.
  assert (Hle : Qmin (level_size ask) (maxPositionSize cfg)
                <= maxPositionSize cfg) by apply Q.le_min_r.
  set (q := Qmin (level_size ask) (maxPositionSize cfg)) in *.
  apply Qle_trans with ((1 - level_price ask) * maxPositionSize cfg).
  - rewrite !(Qmult_comm (1 - level_price ask)).
    apply Qmult_le_compat_r; [exact Hle | lra].
  - apply Qmult_le_compat_r; [lra | exact Hpos].
Qed.

(** X10. [handlePriceChange] records the price as the asset's last price
    whatever it is (the last prices of other assets are untouched), and
    a price outside [minCertaintyPrice, maxBuyPrice] emits nothing. *)
Theorem handlePriceChange_records (markets : JsMap.t WatchedMarket) (now : Z)
        (getOrderBook : string -> BookReply) (event : PriceChangeEvent)
        (lastPrices : JsMap.t Q) :
  let result :=
    handlePriceChange cfg markets now getOrderBook event lastPrices in
  getLastPrice (fst result) (event_assetId event) = Some (event_price event) /\
  (forall other, other <> event_assetId event ->
     getLastPrice (fst result) other = getLastPrice lastPrices other) /\
  (event_price event < minCertaintyPrice cfg
   \/ maxBuyPrice cfg < event_price event ->
   snd result = Checked None) /\
  (forall o, snd result = Checked (Some o) ->
     opp_tokenId o = event_assetId event
     /\ minCertaintyPrice cfg <= event_price event <= maxBuyPrice cfg).
Proof.
  cbv zeta. unfold handlePriceChange, getLastPrice.
  destruct (event_price event >=? minCertaintyPrice cfg) eqn:Hmin;
    destruct (event_price event <=? maxBuyPrice cfg) eqn:Hmax;
    cbn [andb fst snd];
    (split; [apply get_set_same |]);
    (split; [intros other Hne; apply get_set_other; congruence |]);
    try (split; [reflexivity | intros o [=]]).
  apply Qle_bool_iff in Hmin, Hmax. split.
  - intros [H | H]; lra.
  - intros o. unfold checkOrderBook.
    destruct (getOrderBook (event_assetId event)) as [book | |];
      intros [= Hemit].
    apply analyzeOpportunity_fields in Hemit. tauto.
Qed.

End DetectorEmissions.

Section DetectorEmissionsExample.
Import Scanner ScannerOps Detector DetectorOps Scenario.

Lemma emitted_opportunity_bounds_witness :
  exists o,
    analyzeOpportunity config watchingA 1000 "token_A"
                       (bookFor "A" (99 / 100) 500) = Some o
    /\ opp_expectedProfit o
       <= (1 - minCertaintyPrice config) * maxPositionSize config.
Proof.
  eexists. split; [reflexivity |].
  refine (proj1 (proj2 (proj2 (proj2
            (emitted_opportunity_bounds config watchingA 1000 "token_A"
               (bookFor "A" (99 / 100) 500) _ _ _ eq_refl))))).
  - vm_compute. discriminate.
  - vm_compute. discriminate.
Defined.

End DetectorEmissionsExample.

(** ** Order sizes *)

Section OrderSizeBounds.
Import Executor ExecutorOps.
Variable cfg : Config.

Lemma calculateOrderSize_floor (opportunity : Opportunity) :
  calculateOrderSize cfg opportunity
  = inject_Z (Qfloor (cappedOrderSize cfg opportunity * 100)) / 100.
Proof. reflexivity. Qed.

Lemma floor_cents_mono (x y : Q) :
  x <= y ->
  inject_Z (Qfloor (x * 100)) / 100 <= inject_Z (Qfloor (y * 100)) / 100.
Proof.
  intros Hxy. apply Qmult_le_compat_r; [| discriminate].
  rewrite <- Zle_Qle. apply Qfloor_resp_le.
  apply Qmult_le_compat_r; [exact Hxy | discriminate].
Qed.

(** X12. With a positive minProfitThreshold and a non-negative
    defaultOrderSize, a larger expected profit never gives a smaller
    order. *)
Theorem calculateOrderSize_monotone (o1 o2 : Opportunity) :
  0 < minProfitThreshold cfg ->
  0 <= defaultOrderSize cfg ->
  opp_expectedProfit o1 <= opp_expectedProfit o2 ->
  calculateOrderSize cfg o1 <= calculateOrderSize cfg o2.
Proof.
  intros Hthr Hdef Hprofit. rewrite !calculateOrderSize_floor.
  apply floor_cents_mono. unfold cappedOrderSize. cbv zeta.
  set (r1 := opp_expectedProfit o1 / minProfitThreshold cfg).
  set (r2 := opp_expectedProfit o2 / minProfitThreshold cfg).
  assert (Hr : r1 <= r2).
  { unfold r1, r2. apply Qmult_le_compat_r; [exact Hprofit |].
    apply Qlt_le_weak, Qinv_lt_0_compat, Hthr. }
  apply Q.min_le_compat_r.
  destruct (r1 >? 1) eqn:H1; destruct (r2 >? 1) eqn:H2.
  - apply Qltb_lt in H1, H2.
    assert (Hmin : Qmin r1 2 <= Qmin r2 2) by now apply Q.min_le_compat_r.
    nra.
  - apply Qltb_lt in H1. apply Qltb_ge in H2. lra.
  - apply Qltb_lt in H2.
    destruct (Q.min_spec r2 2) as [[H E] | [H E]]; rewrite E; nra.
  - lra.
Qed.

End OrderSizeBounds.

Section OrderSizeBoundsExample.
Import Executor ExecutorOps Scenario.

Lemma calculateOrderSize_monotone_witness :
  calculateOrderSize config halfThresholdOpportunity
  <= calculateOrderSize config (detectedAt 0).
Proof.
  apply calculateOrderSize_monotone.
  - vm_compute. reflexivity.
  - vm_compute. discriminate.
  - vm_compute. discriminate.
Defined.

End OrderSizeBoundsExample.

(** ** The queue and its worker *)

Section QueueOrder.
Import Executor ExecutorOps.
Variables (cfg : Config) (isEnabled : bool).
Variables (clock : nat -> Z) (env : nat -> ExecEnv).

Lemma drain_dequeued (queue : list Opportunity) :
  forall k : nat,
    map dequeued (drain cfg isEnabled clock env k queue) = queue.
Proof.
  induction queue as [| o queue IH]; intros k; cbn [drain]; [reflexivity |].
  destruct (clock k - opp_timestamp o >? stalenessWindow)%Z;
    cbn; now rewrite IH.
Qed.

(** X14. [queueOpportunity] while a drain is in progress only appends
    the opportunity to the queue.  With the worker idle, every queued
    opportunity and the new one are dequeued exactly once, in the order
    they were queued, and the queue is left empty with the worker idle
    again. *)
Theorem queueOpportunity_fifo (opportunity : Opportunity) (s : QueueState) :
  let result := queueOpportunity cfg isEnabled clock env opportunity s in
  (isProcessing s = true ->
   result
   = ({| executionQueue := (executionQueue s ++ [opportunity])%list;
         isProcessing := true |}, [])) /\
  (isProcessing s = false ->
   map dequeued (snd result) = (executionQueue s ++ [opportunity])%list
   /\ executionQueue (fst result) = []
   /\ isProcessing (fst result) = false).
Proof.
  cbv zeta. unfold queueOpportunity, processQueue.
  cbn [isProcessing executionQueue]. split; intros Hflag; rewrite Hflag.
  - reflexivity.
  - cbn [orb]. rewrite length_app, Nat.add_comm. cbn [List.length Nat.add Nat.eqb].
    cbn [fst snd executionQueue isProcessing].
    split; [apply drain_dequeued | split; reflexivity].
Qed.

End QueueOrder.

(** ** The ledger across a restart *)

Section Restart.
Import Ledger LedgerOps.

Lemma get_In {V : Type} (m : JsMap.t V) (k : string) (v : V) :
  JsMap.get m k = Some v -> In (k, v) m.
Proof.
  induction m as [| [k0 v0] m IH]; cbn; [discriminate |].
  destruct (String.eqb k0 k) eqn:E.
  - apply String.eqb_eq in E. subst k0. intros [= <-]. now left.
  - intros H. right. now apply IH.
Qed.

Lemma not_In_keys_has {V : Type} (m : JsMap.t V) (k : string) :
  ~ In k (JsMap.keys m) -> JsMap.has m k = false.
Proof.
  intros Hnot. apply not_true_is_false. intros Hhas.
  now apply Hnot, has_In_keys.
Qed.

Lemma loadPositions_app (m : JsMap.t Position) :
  forall acc : JsMap.t Position,
    keyed m ->
    NoDup (JsMap.keys acc ++ JsMap.keys m) ->
    loadPositions (JsMap.values m) acc = (acc ++ m)%list.
Proof.
  induction m as [| [k p] m IH]; intros acc Hkeyed Hnodup.
  - cbn. now rewrite app_nil_r.
  - cbn [JsMap.values map snd loadPositions fold_left].
    assert (Hid : pos_id p = k) by (apply Hkeyed; now left).
    rewrite Hid. rewrite set_fresh.
    + change (fold_left (fun m0 pos => JsMap.set m0 (pos_id pos) pos)
                        (map snd m) (acc ++ [(k, p)])%list)
        with (loadPositions (JsMap.values m) (acc ++ [(k, p)])%list).
      rewrite IH.
      * now rewrite <- app_assoc.
      * intros k' p' Hin. apply Hkeyed. now right.
      * unfold JsMap.keys in *. rewrite map_app, <- app_assoc. exact Hnodup.
    + apply not_In_keys_has. cbn in Hnodup.
      apply NoDup_remove_2 in Hnodup. intros Hin. apply Hnodup.
      apply in_or_app. now left.
Qed.

Lemma construct_persisted (today : string) (s : State) :
  JsMap.wf (positions s) -> keyed (positions s) -> persisted s ->
  positions (restart today s) = positions s
  /\ stats (restart today s) = stats s.
Proof.
  intros Hwf Hkeyed [Hsaved | (Hsaved & Hpos & Hstats)];
    unfold restart, construct; rewrite Hsaved; cbn.
  - split; [| reflexivity].
    now apply (loadPositions_app (positions s) []).
  - now rewrite Hpos, Hstats.
Qed.

Lemma keyed_set (m : JsMap.t Position) (p : Position) :
  keyed m -> keyed (JsMap.set m (pos_id p) p).
Proof.
  intros Hkeyed k p' Hin.
  destruct (In_set _ _ _ _ Hin) as [[= -> ->] | Hold];
    [reflexivity | now apply Hkeyed].
Qed.

Lemma ledgerInv_step (op : Op) (s : State) :
  ledgerInv s -> ledgerInv (snd (step op s)).
Proof.
  intros (Hwf & Hkeyed & Hpers). destruct op as [today trade | id rp w | today].
  - unfold step, addPosition, checkDailyReset, bind, get, when, setDaily,
      setPositions, setStats, saveState, emit, modify, ret.
    destruct (negb (String.eqb today (dailyStartDate s))); cbn;
      (split; [now apply wf_set |]);
      (split; [| now left]);
      apply (keyed_set _
               {| pos_id := trade_id trade;
                  pos_marketId := trade_marketId trade;
                  pos_tokenId := trade_tokenId trade;
                  pos_outcome := "";
                  pos_entryPrice := trade_price trade;
                  pos_size := trade_size trade;
                  pos_timestamp := trade_timestamp trade;
                  pos_status := OPEN |}); exact Hkeyed.
  - unfold step, resolvePosition, bind, get.
    destruct (JsMap.get (positions s) id) as [position |] eqn:Hget;
      [| cbn; now repeat split].
    unfold setPositions, setStats, setDaily, saveState, emit, modify.
    cbn -[updateRates recordWin recordLoss].
    split; [now apply wf_set |]. split; [| now left].
    assert (Hid : pos_id position = id)
      by (apply Hkeyed; now apply get_In).
    rewrite <- Hid.
    apply (keyed_set _ (withStatus position
                          (if w then RESOLVED_WIN else RESOLVED_LOSS))).
    exact Hkeyed.
  - unfold step, getDailyPnL, checkDailyReset, bind, get, gets, when,
      setDaily, modify, ret.
    destruct (negb (String.eqb today (dailyStartDate s))); cbn;
      now repeat split.
Qed.

Lemma ledgerInv_run (ops : list Op) :
  forall s : State, ledgerInv s -> ledgerInv (snd (run ops s)).
Proof.
  induction ops as [| op ops IH]; intros s Hinv; [exact Hinv |].
  cbn [run]. unfold bind.
  pose proof (ledgerInv_step op s Hinv) as Hstep.
  destruct (step op s) as [[] s1]. now apply IH.
Qed.

(** X15. Whatever calls of [addPosition], [resolvePosition] and
    [getDailyPnL] a ledger that started empty has served, a manager
    constructed afterwards from the files it wrote holds the same
    positions under the same ids, in the same order, and the same
    stats.  The daily P&L is not written: it restarts at 0. *)
Theorem restart_reconstructs (ops : list Op) (today today' : string) :
  let s := snd (run ops (initial today)) in
  positions (restart today' s) = positions s /\
  stats (restart today' s) = stats s /\
  dailyPnL (restart today' s) = 0 /\
  dailyStartDate (restart today' s) = today'.
Proof.
  cbv zeta.
  assert (Hinv : ledgerInv (snd (run ops (initial today)))).
  { apply ledgerInv_run. split; [constructor |].
    split; [intros k p [] | right; now repeat split]. }
  destruct Hinv as (Hwf & Hkeyed & Hpers).
  destruct (construct_persisted today' _ Hwf Hkeyed Hpers) as [Hpos Hstats].
  split; [exact Hpos |]. split; [exact Hstats |].
  unfold restart, construct, loadState.
  destruct (saved (snd (run ops (initial today)))); split; reflexivity.
Qed.

End Restart.

(** ** Admission and resolution in the ledger *)

Section LedgerEffects.
Import Ledger LedgerOps.

(** X16. [addPosition] stores an OPEN position under the trade's id with
    the trade's price and size (whatever the trade's status), leaves the
    other positions alone, counts one more trade, announces the position
    and writes the files so that they hold the new positions and stats.
    The daily P&L is kept on the same day and reset to 0 on a new one. *)
Theorem addPosition_opens (today : string) (trade : Trade) (s : State) :
  let position := fst (addPosition today trade s) in
  let s' := snd (addPosition today trade s) in
  position
  = {| pos_id := trade_id trade; pos_marketId := trade_marketId trade;
       pos_tokenId := trade_tokenId trade; pos_outcome := "";
       pos_entryPrice := trade_price trade; pos_size := trade_size trade;
       pos_timestamp := trade_timestamp trade; pos_status := OPEN |} /\
  JsMap.get (positions s') (trade_id trade) = Some position /\
  (forall other, other <> trade_id trade ->
     JsMap.get (positions s') other = JsMap.get (positions s) other) /\
  totalTrades (stats s') = S (totalTrades (stats s)) /\
  winningTrades (stats s') = winningTrades (stats s) /\
  losingTrades (stats s') = losingTrades (stats s) /\
  emitted s' = (emitted s ++ [position_opened position])%list /\
  saved s' = Some {| snap_positions := JsMap.values (positions s');
                     snap_stats := stats s' |} /\
  dailyStartDate s' = today /\
  dailyPnL s' = (if String.eqb today (dailyStartDate s) then dailyPnL s else 0).
Proof.
  cbv zeta.
  unfold addPosition, checkDailyReset, bind, get, when, setDaily,
    setPositions, setStats, saveState, emit, modify, ret.
  destruct (String.eqb today (dailyStartDate s)) eqn:Hday; cbn;
    (split; [reflexivity |]);
    (split; [apply get_set_same |]);
    (split; [intros other Hne; apply get_set_other; congruence |]);
    repeat (split; [reflexivity |]); try reflexivity.
  split; [| reflexivity]. symmetry. now apply String.eqb_eq.
Qed.

Lemma sum_shift (l : list Position) (a : Q) :
  fold_left (fun sum p => sum + pos_entryPrice p * pos_size p) l a
  == a + fold_left (fun sum p => sum + pos_entryPrice p * pos_size p) l 0.
Proof.
  revert a. induction l as [| p l IH]; intros a; cbn [fold_left].
  - ring.
  - rewrite (IH (a + _)), (IH (0 + _)). ring.
Qed.

Lemma exposureOf_cons (k : string) (p : Position) (m : JsMap.t Position) :
  exposureOf ((k, p) :: m) == openCost p + exposureOf m.
Proof.
  unfold exposureOf, openCost, costOf, JsMap.values. cbn [map snd filter].
  destruct (status_eqb (pos_status p) OPEN); cbn [fold_left].
  - rewrite sum_shift. ring.
  - ring.
Qed.

Lemma exposureOf_set (m : JsMap.t Position) (id : string)
      (old new : Position) :
  JsMap.get m id = Some old ->
  exposureOf (JsMap.set m id new) == exposureOf m - openCost old + openCost new.
Proof.
  induction m as [| [k p] m IH]; cbn [JsMap.get JsMap.set]; [discriminate |].
  destruct (String.eqb k id).
  - intros [= ->]. rewrite !exposureOf_cons. ring.
  - intros Hget. rewrite !exposureOf_cons, (IH Hget). ring.
Qed.

Lemma getTotalExposure_exposureOf (s : State) :
  getTotalExposure s = exposureOf (positions s).
Proof. reflexivity. Qed.

(** X17. Resolving an OPEN position takes its cost, entryPrice x size,
    out of the total exposure; resolving a position that is not OPEN
    leaves the exposure as it is. *)
Theorem resolvePosition_frees_exposure (positionId : string)
        (resolvedPrice : Q) (isWinner : bool) (s : State)
        (position : Position) :
  JsMap.get (positions s) positionId = Some position ->
  getTotalExposure (snd (resolvePosition positionId resolvedPrice isWinner s))
  == getTotalExposure s
     - (if status_eqb (pos_status position) OPEN
        then pos_entryPrice position * pos_size position else 0).
Proof.
  intros Hget. unfold resolvePosition, bind, get. rewrite Hget.
  unfold setPositions, setStats, setDaily, saveState, emit, modify.
  cbn [snd]. rewrite !getTotalExposure_exposureOf.
  cbn [positions]. rewrite (exposureOf_set _ _ _ _ Hget).
  unfold openCost, costOf. destruct isWinner; cbn; ring.
Qed.

(** X18. A resolution moves the net profit (totalProfit - totalLoss) and
    the daily P&L by the same amount, the position's pnl, provided a
    losing position's cost is not negative. *)
Theorem resolvePosition_net_profit (positionId : string) (resolvedPrice : Q)
        (isWinner : bool) (s : State) (position : Position) :
  JsMap.get (positions s) positionId = Some position ->
  (isWinner = false -> 0 <= pos_entryPrice position * pos_size position) ->
  let s' := snd (resolvePosition positionId resolvedPrice isWinner s) in
  netProfit (stats s') - netProfit (stats s) == pnlOf position isWinner /\
  dailyPnL s' - dailyPnL s == pnlOf position isWinner.
Proof.
  intros Hget Hcost. cbv zeta. unfold resolvePosition, bind, get.
  rewrite Hget.
  unfold setPositions, setStats, setDaily, saveState, emit, modify, netProfit.
  destruct isWinner; unfold recordWin, recordLoss, updateRates;
    cbn [snd fst stats dailyPnL totalProfit totalLoss].
  - split; ring.
  - specialize (Hcost eq_refl).
    assert (Habs : Qabs (pnlOf position false) == - pnlOf position false).
    { apply Qabs_neg. unfold pnlOf. lra. }
    rewrite Habs. split; ring.
Qed.

(** X19. After a position the ledger holds is resolved, the stored win
    rate lies between 0 and 100. *)
Theorem resolvePosition_winRate_range (positionId : string)
        (resolvedPrice : Q) (isWinner : bool) (s : State)
        (position : Position) :
  JsMap.get (positions s) positionId = Some position ->
  let s' := snd (resolvePosition positionId resolvedPrice isWinner s) in
  0 <= winRate (stats s') /\ winRate (stats s') <= 100.
Proof.
  intros Hget. cbv zeta. unfold resolvePosition, bind, get. rewrite Hget.
  unfold setPositions, setStats, setDaily, saveState, emit, modify.
  cbn -[updateRates recordWin recordLoss].
  set (st := (if isWinner then recordWin (pnlOf position isWinner)
              else recordLoss (pnlOf position isWinner)) (stats s)).
  assert (Hpos : (0 < winningTrades st + losingTrades st)%nat)
    by (unfold st; destruct isWinner; cbn; lia).
  unfold updateRates. cbn [winRate]. rewrite (jsNum_pos _ Hpos).
  assert (Hw : 0 <= jsNum (winningTrades st)).
  { unfold jsNum. change 0 with (inject_Z 0). rewrite <- Zle_Qle. lia. }
  assert (Ht : 0 < jsNum (winningTrades st + losingTrades st)).
  { unfold jsNum. change 0 with (inject_Z 0). rewrite <- Zlt_Qlt. lia. }
  assert (Hle : jsNum (winningTrades st)
                <= jsNum (winningTrades st + losingTrades st)).
  { unfold jsNum. rewrite <- Zle_Qle. lia. }
  set (w := jsNum (winningTrades st)) in *.
  set (t := jsNum (winningTrades st + losingTrades st)) in *.
  assert (Hratio : 0 <= w / t /\ w / t <= 1).
  { split.
    - apply Qle_shift_div_l; [exact Ht | lra].
    - apply Qle_shift_div_r; [exact Ht | lra]. }
  lra.
Qed.

End LedgerEffects.

Section LedgerEffectsExample.
Import Ledger LedgerOps Scenario.

Lemma resolvePosition_frees_exposure_witness :
  getTotalExposure (snd (resolvePosition "trade_1" 1 true oneOpen))
  == getTotalExposure oneOpen - 98 / 100 * 100.
Proof.
  exact (resolvePosition_frees_exposure "trade_1" 1 true oneOpen
           firstPosition eq_refl).
Defined.

Lemma resolvePosition_net_profit_witness :
  let s' := snd (resolvePosition "trade_1" 0 false oneOpen) in
  netProfit (stats s') - netProfit (stats oneOpen)
  == pnlOf firstPosition false /\
  dailyPnL s' - dailyPnL oneOpen == pnlOf firstPosition false.
Proof.
  apply (resolvePosition_net_profit "trade_1" 0 false oneOpen firstPosition).
  - reflexivity.
  - intros _. vm_compute. discriminate.
Defined.

Lemma resolvePosition_winRate_range_witness :
  let s' := snd (resolvePosition "trade_1" 0 false oneOpen) in
  0 <= winRate (stats s') /\ winRate (stats s') <= 100.
Proof.
  exact (resolvePosition_winRate_range "trade_1" 0 false oneOpen
           firstPosition eq_refl).
Defined.

End LedgerEffectsExample.

(** ** The handler of an opportunity *)

Section Handler.
Import Ledger LedgerOps Executor ExecutorOps Bot.
Variables (cfg : Config) (isEnabled : bool) (today : string).
Variables (env : ExecEnv) (opportunity : Opportunity).

Lemma canOpenNewPosition_pure (size price : Q) (s : State) :
  canOpenNewPosition cfg size price s
  = (fst (canOpenNewPosition cfg size price s), s).
Proof.
  destruct (canOpenNewPosition_cases cfg size price s) as [Hs _].
  destruct (canOpenNewPosition cfg size price s) as [b s0].
  cbn in *. now subst s0.
Qed.

Lemma onOpportunity_cases (s : State) :
  let events := fst (onOpportunity cfg isEnabled today env opportunity s) in
  let s' := snd (onOpportunity cfg isEnabled today env opportunity s) in
  (s' = s /\
   (events = []
    \/ exists trade,
         executeOpportunity cfg isEnabled env opportunity
         = (Some trade, events)
         /\ trade_status trade <> MATCHED))
  \/ exists trade,
       executeOpportunity cfg isEnabled env opportunity = (Some trade, events)
       /\ trade_status trade = MATCHED
       /\ fst (canOpenNewPosition cfg (defaultOrderSize cfg)
                 (opp_currentPrice opportunity) s) = true
       /\ jsLength (getPositionsByMarket (opp_marketId opportunity) s)
          < maxPositionsPerMarket cfg
       /\ env_canTrade env = true
       /\ s' = snd (addPosition today trade s).
Proof.
  cbv zeta. unfold onOpportunity, bind, gets.
  rewrite canOpenNewPosition_pure.
  destruct (fst (canOpenNewPosition cfg (defaultOrderSize cfg)
                   (opp_currentPrice opportunity) s)) eqn:Hgate;
    cbn [negb]; [| left; cbn; split; [reflexivity | now left]].
  destruct (jsLength (getPositionsByMarket (opp_marketId opportunity) s)
            >=? maxPositionsPerMarket cfg) eqn:Hcap;
    [left; cbn; split; [reflexivity | now left] |].
  assert (Hroom : jsLength (getPositionsByMarket (opp_marketId opportunity) s)
                  < maxPositionsPerMarket cfg).
  { apply Qnot_le_lt. intros Hle. apply Qle_bool_iff in Hle. congruence. }
  destruct (env_canTrade env) eqn:Hauth;
    [| left; cbn; split; [reflexivity | now left]].
  destruct (executeOpportunity cfg isEnabled env opportunity)
    as [[trade |] events] eqn:Hexec;
    [| left; cbn; split; [reflexivity |]].
  - destruct (trade_status trade) eqn:Hstatus; cbn [isMatched];
      try (left; cbn; split; [reflexivity |]; right; exists trade;
           split; [reflexivity | congruence]).
    right. exists trade.
    destruct (addPosition today trade s) as [p s1]. cbn. now repeat split.
  - unfold executeOpportunity in Hexec.
    destruct isEnabled; cbn [negb] in Hexec; [| injection Hexec as <-; now left].
    rewrite Hauth in Hexec. cbn [negb] in Hexec.
    destruct (calculateOrderSize cfg opportunity <=? 0);
      [injection Hexec as <-; now left |].
    destruct (env_placeOrder env _) as [response |];
      [destruct (resp_success response) |]; discriminate.
Qed.

(** X20. The handler leaves the ledger untouched and emits nothing when
    the risk gate refuses, when the market already has
    maxPositionsPerMarket open positions, when the venue link is
    read-only or when execution is disabled.  Whenever it does change
    the ledger, the change is one [addPosition] of the trade the
    executor returned, and that trade is MATCHED: a FAILED trade never
    opens a position. *)
Theorem onOpportunity_effect (s : State) :
  let events := fst (onOpportunity cfg isEnabled today env opportunity s) in
  let s' := snd (onOpportunity cfg isEnabled today env opportunity s) in
  (fst (canOpenNewPosition cfg (defaultOrderSize cfg)
          (opp_currentPrice opportunity) s) = false
   \/ maxPositionsPerMarket cfg
      <= jsLength (getPositionsByMarket (opp_marketId opportunity) s)
   \/ env_canTrade env = false
   \/ isEnabled = false ->
   s' = s /\ events = []) /\
  (s' = s
   \/ exists trade,
        executeOpportunity cfg isEnabled env opportunity = (Some trade, events)
        /\ trade_status trade = MATCHED
        /\ s' = snd (addPosition today trade s)).
Proof.
  cbv zeta. split.
  - intros Hblocked. unfold onOpportunity, bind, gets.
    rewrite canOpenNewPosition_pure.
    destruct (fst (canOpenNewPosition cfg (defaultOrderSize cfg)
                     (opp_currentPrice opportunity) s)) eqn:Hgate;
      cbn [negb]; [| now split].
    destruct (jsLength (getPositionsByMarket (opp_marketId opportunity) s)
              >=? maxPositionsPerMarket cfg) eqn:Hcap; [now split |].
    destruct (env_canTrade env) eqn:Hauth; [| now split].
    destruct Hblocked as [Hb | [Hb | [Hb | Hb]]].
    + discriminate.
    + apply Qle_bool_iff in Hb. congruence.
    + discriminate.
    + unfold executeOpportunity. rewrite Hb. cbn. now split.
  - destruct (onOpportunity_cases s)
      as [[Hsame _] | (trade & Hexec & Hm & _ & _ & _ & Hadd)].
    + now left.
    + right. now exists trade.
Qed.

End Handler.

Section DailyLoss.
Import Ledger LedgerOps.
Variable cfg : Config.


End DailyLoss.

Section HandlerExample.
Import Ledger LedgerOps Executor Bot Scenario.


End HandlerExample.

(** ** Connection and subscriptions of the feed *)

Section FeedBehaviour.
Import Feed FeedOps Stated.

(** X23. [connect] is idempotent: while the socket is open or a
    connection is under way it does nothing, so a second [connect] right
    after a first opens no second socket. *)
Theorem connect_idempotent (s : State) :
  (isOpen s = true \/ isConnecting s = true -> connect s = (s, [])) /\
  connect (fst (connect s)) = (fst (connect s), []).
Proof.
  unfold connect. split.
  - intros [H | H]; rewrite H; [reflexivity | now rewrite orb_true_r].
  - destruct (isOpen s || isConnecting s) eqn:Hbusy; cbn [fst].
    + now rewrite Hbusy.
    + cbn. reflexivity.
Qed.

Lemma setAdd_In (x y : string) (l : list string) :
  In y (setAdd x l) <-> y = x \/ In y l.
Proof.
  unfold setAdd. destruct (existsb (String.eqb x) l) eqn:Hex.
  - apply existsb_exists in Hex. destruct Hex as (z & Hz & Heq).
    apply String.eqb_eq in Heq. subst z. intuition congruence.
  - rewrite in_app_iff. cbn. intuition congruence.
Qed.

Lemma setAdd_NoDup (x : string) (l : list string) :
  NoDup l -> NoDup (setAdd x l).
Proof.
  intros Hnodup. unfold setAdd.
  destruct (existsb (String.eqb x) l) eqn:Hex; [exact Hnodup |].
  apply NoDup_app; [exact Hnodup | constructor; [intros [] | constructor] |].
  intros y Hin [Heq | []]. subst y.
  assert (Hyes : existsb (String.eqb x) l = true).
  { apply existsb_exists. exists x. split; [exact Hin | apply String.eqb_refl]. }
  congruence.
Qed.

Lemma addAll_spec (assetIds : list string) :
  forall l : list string,
    NoDup l ->
    NoDup (fold_left (fun l assetId => setAdd assetId l) assetIds l)
    /\ forall y,
         In y (fold_left (fun l assetId => setAdd assetId l) assetIds l)
         <-> In y assetIds \/ In y l.
Proof.
  induction assetIds as [| a rest IH]; intros l Hnodup; cbn [fold_left].
  - split; [exact Hnodup | intros y; cbn; tauto].
  - destruct (IH (setAdd a l) (setAdd_NoDup a l Hnodup)) as [Hn Hin].
    split; [exact Hn |]. intros y. rewrite Hin, setAdd_In. cbn.
    intuition congruence.
Qed.

(** X24. Subscriptions are a set: after [subscribeToAssets] the
    subscribed assets are the old ones and the requested ones, each
    once.  Nothing is sent while the socket is not open; the next
    ['open'] then sends one subscription per subscribed asset and
    announces the connection. *)
Theorem subscribeToAssets_replayed (assetIds : list string) (s : State) :
  NoDup (subscribedAssets s) ->
  let s1 := fst (subscribeToAssets assetIds s) in
  NoDup (subscribedAssets s1) /\
  (forall y, In y (subscribedAssets s1)
             <-> In y assetIds \/ In y (subscribedAssets s)) /\
  (isOpen s = false -> snd (subscribeToAssets assetIds s) = None) /\
  (isOpen s = true -> snd (subscribeToAssets assetIds s) = Some assetIds) /\
  snd (onOpen s1)
  = (map Subscribe (subscribedAssets s1) ++ [Emit connected])%list /\
  subscribedAssets (fst (onOpen s1)) = subscribedAssets s1.
Proof.
  intros Hnodup. cbv zeta. unfold subscribeToAssets.
  destruct (addAll_spec assetIds (subscribedAssets s) Hnodup) as [Hn Hin].
  destruct (isOpen s); cbn [negb fst snd withSubscribed subscribedAssets];
    repeat split; auto; try discriminate; try apply Hin.
Qed.

(** X25. After [subscribeToMarkets] every token of every watched market
    is among the feed's subscribed assets; with no token to watch the
    feed is left as it was and no message is sent. *)
Theorem subscribeToMarkets_covers (watched : JsMap.t WatchedMarket)
        (s : State) :
  NoDup (subscribedAssets s) ->
  (forall tokenId,
     In tokenId (Scanner.getTokenIds watched) ->
     In tokenId (subscribedAssets (fst (subscribeToMarkets watched s)))) /\
  NoDup (subscribedAssets (fst (subscribeToMarkets watched s))) /\
  (Scanner.getTokenIds watched = [] ->
   subscribeToMarkets watched s = (s, None)).
Proof.
  intros Hnodup. unfold subscribeToMarkets. cbv zeta.
  destruct (Scanner.getTokenIds watched) as [| t rest] eqn:Hids.
  - cbn. repeat split; auto. intros tokenId [].
  - cbn [List.length Nat.ltb Nat.leb]. unfold subscribeToAssets.
    destruct (addAll_spec (t :: rest) (subscribedAssets s) Hnodup)
      as [Hn Hin].
    destruct (isOpen s); cbn [negb fst snd withSubscribed subscribedAssets];
      (split; [intros tokenId Ht; apply Hin; now left |]);
      (split; [exact Hn | discriminate]).
Qed.

(** X26. A successful open resets the backoff: whatever the feed went
    through before, the first close after an ['open'] waits the base
    delay of 1000 ms and opens a socket. *)
Theorem backoff_resets_after_open (s : State) :
  snd (onClose (fst (onOpen s)))
  = [Emit disconnected; Wait 1000; OpenSocket] /\
  reconnectAttempts (fst (onClose (fst (onOpen s)))) = 1%nat.
Proof.
  split; reflexivity.
Qed.

Lemma closes_exhausted (n : nat) :
  forall s : State,
    (maxReconnectAttempts <= reconnectAttempts s)%nat ->
    Forall (fun actions =>
              actions = [Emit disconnected; Emit max_reconnect_failed])
           (snd (closes n s))
    /\ reconnectAttempts (fst (closes n s)) = reconnectAttempts s.
Proof.
  induction n as [| n IH]; intros s Hmax.
  - split; [constructor | reflexivity].
  - rewrite closes_S.
    destruct (onClose_actions s) as [Hact Hcount].
    destruct (onClose s) as [s1 actions]. cbn [fst snd] in Hact, Hcount.
    assert (Hleb : (maxReconnectAttempts <=? reconnectAttempts s)%nat = true)
      by now apply Nat.leb_le.
    rewrite Hleb in Hcount. unfold closeActions in Hact.
    rewrite Hleb in Hact.
    destruct (IH s1) as [Hall Hsame]; [now rewrite Hcount |].
    destruct (closes n s1) as [s2 later]. cbn [fst snd] in *.
    split; [constructor; assumption | congruence].
Qed.

(** X27. Exhaustion lasts: once ten attempts are counted, every further
    close only announces the disconnection and emits
    [max_reconnect_failed]; no socket is opened and the count stays,
    however many closes follow. *)
Theorem reconnect_exhaustion_lasts (n : nat) (s : State) :
  (10 <= reconnectAttempts s)%nat ->
  Forall (fun actions =>
            actions = [Emit disconnected; Emit max_reconnect_failed])
         (snd (closes n s)) /\
  reconnectAttempts (fst (closes n s)) = reconnectAttempts s.
Proof.
  intros Hmax. now apply closes_exhausted.
Qed.

(** X28. [disconnect] forgets the subscriptions and drops the socket but
    does not stop reconnection: when the ['close'] of the socket it
    closed is handled, and fewer than ten attempts are counted, the feed
    waits 1000 x 2^attempts ms and opens a new socket, with nothing
    subscribed. *)
Theorem disconnect_then_close_reconnects (s : State) :
  (reconnectAttempts s < 10)%nat ->
  let s1 := fst (disconnect s) in
  subscribedAssets s1 = [] /\ ws s1 = None /\ pinging s1 = false /\
  snd (onClose s1)
  = [Emit disconnected;
     Wait (1000 * 2 ^ Z.of_nat (reconnectAttempts s)); OpenSocket] /\
  subscribedAssets (fst (onClose s1)) = [].
Proof.
  intros Hfew. cbv zeta.
  destruct (onClose_actions (fst (disconnect s))) as [Hact _].
  repeat split; try reflexivity.
  - rewrite Hact. unfold closeActions. cbn [disconnect fst reconnectAttempts].
    destruct (Nat.leb_spec maxReconnectAttempts (reconnectAttempts s)) as [H | H];
      [unfold maxReconnectAttempts in H; lia | reflexivity].
  - unfold onClose, attemptReconnect, connect, isOpen, disconnect.
    cbn [fst ws reconnectAttempts subscribedAssets isConnecting pinging].
    destruct (maxReconnectAttempts <=? reconnectAttempts s)%nat; reflexivity.
Qed.

End FeedBehaviour.

Section FeedBehaviourExample.
Import Feed FeedOps Scenario.

Lemma subscribeToAssets_replayed_witness :
  snd (onOpen (fst (subscribeToAssets ["token_A"; "token_B"; "token_A"]
                                      initial)))
  = [Subscribe "token_A"; Subscribe "token_B"; Emit connected].
Proof.
  destruct (subscribeToAssets_replayed ["token_A"; "token_B"; "token_A"]
              initial (NoDup_nil _)) as (_ & _ & _ & _ & Hreplay & _).
  exact Hreplay.
Defined.

Lemma subscribeToMarkets_covers_witness :
  In "token_A" (subscribedAssets (fst (subscribeToMarkets watchingA initial))).
Proof.
  destruct (subscribeToMarkets_covers watchingA initial (NoDup_nil _))
    as (Hcover & _).
  apply Hcover. left. reflexivity.
Defined.

Lemma reconnect_exhaustion_lasts_witness :
  Forall (fun actions =>
            actions = [Emit disconnected; Emit max_reconnect_failed])
         (snd (closes 3 (fst (closes 10 initial)))).
Proof.
  refine (proj1 (reconnect_exhaustion_lasts 3 (fst (closes 10 initial)) _)).
  vm_compute. repeat constructor.
Defined.

Lemma disconnect_then_close_reconnects_witness :
  snd (onClose (fst (disconnect (fst (onOpen initial)))))
  = [Emit disconnected; Wait 1000; OpenSocket].
Proof.
  destruct (disconnect_then_close_reconnects (fst (onOpen initial)))
    as (_ & _ & _ & Hact & _).
  - cbn. lia.
  - exact Hact.
Defined.

End FeedBehaviourExample.

(** ** Helpers *)

Section Truncate.
Import Helpers.

Lemma length_substring_prefix (s : string) :
  forall n : nat,
    String.length (substring 0 n s) = Nat.min n (String.length s).
Proof.
  induction s as [| c s IH]; intros [| n]; cbn; try reflexivity.
  now rewrite IH.
Qed.

Lemma length_append (s1 s2 : string) :
  String.length (s1 ++ s2) = (String.length s1 + String.length s2)%nat.
Proof.
  induction s1 as [| c s1 IH]; cbn; [reflexivity | now rewrite IH].
Qed.

(** X29. [truncate] returns a string that fits unchanged.  A longer
    string becomes its first maxLength - 3 characters followed by three
    dots, which is exactly maxLength characters when maxLength is at
    least 3; below 3 the result is the three dots alone, longer than
    maxLength. *)
Theorem truncate_length (str : string) (maxLength : Z) :
  ((Z.of_nat (String.length str) <= maxLength)%Z ->
   truncate str maxLength = str) /\
  ((maxLength < Z.of_nat (String.length str))%Z ->
   truncate str maxLength
   = substring 0 (Z.to_nat (maxLength - 3)) str ++ "..."
   /\ ((3 <= maxLength)%Z ->
       Z.of_nat (String.length (truncate str maxLength)) = maxLength)
   /\ ((maxLength < 3)%Z -> truncate str maxLength = "...")).
Proof.
  unfold truncate. split; intros Hlen.
  - apply Z.leb_le in Hlen. now rewrite Hlen.
  - assert (Hleb : (Z.of_nat (String.length str) <=? maxLength)%Z = false)
      by (apply Z.leb_gt; exact Hlen).
    rewrite Hleb. split; [reflexivity |]. split.
    + intros Hthree. rewrite length_append, length_substring_prefix. cbn.
      lia.
    + intros Hsmall.
      replace (Z.to_nat (maxLength - 3)) with 0%nat by lia.
      destruct str; reflexivity.
Qed.

End Truncate.

Section RetryLoop.
Import Helpers.
Context {T E : Type}.
Variables (fn : nat -> @Attempt T E) (baseDelay : Z).

Lemma retryFrom_success (k : nat) (value : T) :
  forall (remaining attempt : nat) (lastError : option E),
    (k < remaining)%nat ->
    (forall i, (i < k)%nat -> exists e, fn (attempt + i)%nat = Rejected e) ->
    fn (attempt + k)%nat = Resolved value ->
    retryFrom fn baseDelay remaining attempt lastError
    = (Returned value,
       map (fun i => (baseDelay * 2 ^ Z.of_nat i)%Z) (seq attempt k)).
Proof.
  induction k as [| k IH]; intros remaining attempt lastError Hlt Hfail Hok.
  - destruct remaining as [| remaining]; [lia |].
    cbn [retryFrom]. rewrite Nat.add_0_r in Hok. now rewrite Hok.
  - destruct remaining as [| remaining]; [lia |].
    cbn [retryFrom seq map].
    destruct (Hfail 0%nat) as [e He]; [lia |].
    rewrite Nat.add_0_r in He. rewrite He.
    rewrite (IH remaining (S attempt) (Some e)).
    + reflexivity.
    + lia.
    + intros i Hi. destruct (Hfail (S i)) as [e' He']; [lia |].
      exists e'. now rewrite Nat.add_succ_comm.
    + now rewrite Nat.add_succ_comm.
Qed.

Lemma retryFrom_exhausted (remaining : nat) :
  forall (attempt : nat) (lastError : option E) (error : nat -> E),
    (forall i, (i < remaining)%nat ->
               fn (attempt + i)%nat = Rejected (error (attempt + i)%nat)) ->
    retryFrom fn baseDelay remaining attempt lastError
    = (Threw (match remaining with
              | O => lastError
              | S r => Some (error (attempt + r)%nat)
              end),
       map (fun i => (baseDelay * 2 ^ Z.of_nat i)%Z) (seq attempt remaining)).
Proof.
  induction remaining as [| remaining IH];
    intros attempt lastError error Hfail; [reflexivity |].
  cbn [retryFrom seq map].
  pose proof (Hfail 0%nat ltac:(lia)) as He. rewrite Nat.add_0_r in He.
  rewrite He.
  rewrite (IH (S attempt) (Some (error attempt)) error).
  - destruct remaining as [| r].
    + now rewrite Nat.add_0_r.
    + now rewrite Nat.add_succ_comm.
  - intros i Hi. rewrite Nat.add_succ_comm. apply Hfail. lia.
Qed.

(** X30. [retry] returns the value of the first call of [fn] that
    succeeds, having slept baseDelay x 2^i after each failed call i
    before it.  When all maxRetries calls fail it throws the error of
    the last one, after having slept once more, baseDelay x 2^i for
    every i below maxRetries; with maxRetries 0 it calls nothing and
    throws [undefined]. *)
Theorem retry_backoff (maxRetries : nat) :
  (forall (k : nat) (value : T),
     (k < maxRetries)%nat ->
     (forall i, (i < k)%nat -> exists e, fn i = Rejected e) ->
     fn k = Resolved value ->
     retry fn maxRetries baseDelay
     = (Returned value,
        map (fun i => (baseDelay * 2 ^ Z.of_nat i)%Z) (seq 0 k))) /\
  (forall error : nat -> E,
     (forall i, (i < maxRetries)%nat -> fn i = Rejected (error i)) ->
     retry fn maxRetries baseDelay
     = (Threw (match maxRetries with
               | O => None
               | S r => Some (error r)
               end),
        map (fun i => (baseDelay * 2 ^ Z.of_nat i)%Z) (seq 0 maxRetries))).
Proof.
  unfold retry. split.
  - intros k value Hlt Hfail Hok.
    now apply retryFrom_success.
  - intros error Hfail.
    now apply (retryFrom_exhausted maxRetries 0 None error).
Qed.

End RetryLoop.

Section RetryExample.
Import Helpers.

Example retry_third_call_succeeds :
  retry (fun i => if (i <? 2)%nat then Rejected "timeout" else Resolved 7%nat)
        3 1000
  = (Returned 7%nat, [1000; 2000]%Z).
Proof. reflexivity. Qed.

Example retry_all_calls_fail :
  retry (fun _ => @Rejected nat string "timeout") 3 1000
  = (Threw (Some "timeout"), [1000; 2000; 4000]%Z).
Proof. reflexivity. Qed.

End RetryExample.

(** ** Rounding to a double *)

Section DoubleFacts.
Import Double.

Lemma pow2_pos (e : Z) : 0 < pow2 e.
Proof. apply Qpower_0_lt. reflexivity. Qed.

Lemma pow2_add (a b : Z) : pow2 (a + b) == pow2 a * pow2 b.
Proof. apply Qpower_plus. discriminate. Qed.

Lemma pow2_lt (a b : Z) : (a < b)%Z -> pow2 a < pow2 b.
Proof. intros H. apply Qpower_lt_compat_l; [exact H | reflexivity]. Qed.

Lemma pow2_le (a b : Z) : (a <= b)%Z -> pow2 a <= pow2 b.
Proof. intros H. apply Qpower_le_compat_l; [exact H | discriminate]. Qed.

Lemma pow2_lt_inv (a b : Z) : pow2 a < pow2 b -> (a < b)%Z.
Proof. intros H. apply (Qpower_lt_compat_l_inv 2); [exact H | reflexivity]. Qed.

Lemma pow2_Z (k : Z) : (0 <= k)%Z -> inject_Z (2 ^ k) == pow2 k.
Proof. intros H. now apply Zpower_Qpower. Qed.

Lemma ilog2_spec (x : Q) :
  0 < x -> pow2 (ilog2 x) <= x /\ x < pow2 (ilog2 x + 1).
Proof.
  intros Hx. unfold ilog2. destruct x as [n d].
  assert (Hn : (0 < n)%Z) by (unfold Qlt in Hx; cbn in Hx; lia).
  cbn [Qnum Qden].
  set (a := Z.log2 n). set (b := Z.log2 (Zpos d)).
  destruct (Z.log2_spec n Hn) as [Hna Hnb]. fold a in Hna, Hnb.
  destruct (Z.log2_spec (Zpos d) eq_refl) as [Hda Hdb]. fold b in Hda, Hdb.
  assert (Ha : (0 <= a)%Z) by apply Z.log2_nonneg.
  assert (Hb : (0 <= b)%Z) by apply Z.log2_nonneg.
  set (X := n # d) in *.
  set (N := inject_Z n). set (D := inject_Z (Zpos d)).
  assert (HX : N == X * D).
  { unfold X, N, D. rewrite (Qmake_Qdiv n d). field. discriminate. }
  assert (HD : 0 < D) by (unfold D; reflexivity).
  assert (HNa : pow2 a <= N).
  { rewrite <- (pow2_Z a Ha). unfold N. now rewrite <- Zle_Qle. }
  assert (HNb : N < pow2 (a + 1)).
  { rewrite <- (pow2_Z (a + 1)) by lia. unfold N. now rewrite <- Zlt_Qlt. }
  assert (HDa : pow2 b <= D).
  { rewrite <- (pow2_Z b Hb). unfold D. now rewrite <- Zle_Qle. }
  assert (HDb : D < pow2 (b + 1)).
  { rewrite <- (pow2_Z (b + 1)) by lia. unfold D. now rewrite <- Zlt_Qlt. }
  assert (Hlow : pow2 (a - b - 1) < X).
  { assert (E : pow2 (a - b - 1) * pow2 (b + 1) == pow2 a).
    { rewrite <- pow2_add. now replace (a - b - 1 + (b + 1))%Z with a by lia. }
    pose proof (pow2_pos (b + 1)) as Hp.
    pose proof (pow2_pos (a - b - 1)) as Hq.
    set (P1 := pow2 (a - b - 1)) in *. set (P2 := pow2 (b + 1)) in *.
    set (PA := pow2 a) in *.
    apply Qnot_le_lt. intros Hle. nra. }
  assert (Hhigh : X < pow2 (a - b + 1)).
  { assert (E : pow2 (a - b + 1) * pow2 b == pow2 (a + 1)).
    { rewrite <- pow2_add. now replace (a - b + 1 + b)%Z with (a + 1)%Z by lia. }
    pose proof (pow2_pos b) as Hp.
    set (P1 := pow2 (a - b + 1)) in *. set (P2 := pow2 b) in *.
    set (PA := pow2 (a + 1)) in *.
    apply Qnot_le_lt. intros Hle. nra. }
  destruct (Qle_bool (pow2 (a - b)) X) eqn:Htest.
  - apply Qle_bool_iff in Htest. split; [exact Htest | exact Hhigh].
  - split; [now apply Qlt_le_weak |].
    replace (a - b - 1 + 1)%Z with (a - b)%Z by lia.
    apply Qnot_le_lt. intros Hle. apply Qle_bool_iff in Hle. congruence.
Qed.

Lemma ilog2_mono (x y : Q) : 0 < x -> x <= y -> (ilog2 x <= ilog2 y)%Z.
Proof.
  intros Hx Hxy.
  destruct (ilog2_spec x Hx) as [Hlow _].
  destruct (ilog2_spec y) as [_ Hhigh]; [lra |].
  assert (H : pow2 (ilog2 x) < pow2 (ilog2 y + 1)) by lra.
  apply pow2_lt_inv in H. lia.
Qed.

Lemma rne_near (t : Q) :
  inject_Z (rne t) - t <= 1 # 2 /\ t - inject_Z (rne t) <= 1 # 2.
Proof.
  unfold rne. pose proof (Qfloor_le t) as Hlow.
  pose proof (Qlt_floor t) as Hhigh. rewrite inject_Z_plus in Hhigh.
  change (inject_Z 1) with 1 in Hhigh.
  destruct (Qcompare_spec (t - inject_Z (Qfloor t)) (1 # 2)) as [E | E | E].
  - destruct (Z.even (Qfloor t)); [| rewrite inject_Z_plus;
                                     change (inject_Z 1) with 1]; lra.
  - lra.
  - rewrite inject_Z_plus. change (inject_Z 1) with 1. lra.
Qed.

Lemma rne_proper (t u : Q) : t == u -> rne t = rne u.
Proof.
  intros E. unfold rne. rewrite (Qfloor_comp t u E).
  assert (Ec : (t - inject_Z (Qfloor u) ?= 1 # 2)
               = (u - inject_Z (Qfloor u) ?= 1 # 2)).
  { apply Qcompare_comp; [now rewrite E | reflexivity]. }
  now rewrite Ec.
Qed.

Lemma rne_Z (z : Z) : rne (inject_Z z) = z.
Proof.
  unfold rne. rewrite Qfloor_Z.
  destruct (Qcompare_spec (inject_Z z - inject_Z z) (1 # 2)) as [E | E | E].
  - exfalso. lra.
  - reflexivity.
  - exfalso. lra.
Qed.

Lemma rne_mono (t u : Q) : t <= u -> (rne t <= rne u)%Z.
Proof.
  intros Htu. destruct (Z.le_gt_cases (rne t) (rne u)) as [H | H];
    [exact H | exfalso].
  destruct (rne_near t) as [Ht _]. destruct (rne_near u) as [_ Hu].
  assert (Hz : (rne u + 1 <= rne t)%Z) by lia.
  rewrite Zle_Qle, inject_Z_plus in Hz. change (inject_Z 1) with 1 in Hz.
  assert (E : t == u) by lra.
  apply rne_proper in E. lia.
Qed.

Lemma cexp_mono (x y : Q) : 0 < x -> x <= y -> (cexp x <= cexp y)%Z.
Proof.
  intros Hx Hxy. unfold cexp. pose proof (ilog2_mono x y Hx Hxy). lia.
Qed.

Lemma scaled_lt (x : Q) : 0 < x -> x / pow2 (cexp x) < pow2 53.
Proof.
  intros Hx. destruct (ilog2_spec x Hx) as [_ Hhigh].
  pose proof (pow2_pos (cexp x)) as Hp.
  apply Qlt_shift_div_r; [exact Hp |].
  rewrite <- pow2_add.
  eapply Qlt_le_trans; [exact Hhigh |].
  apply pow2_le. unfold cexp. lia.
Qed.

Lemma scaled_ge (x : Q) :
  0 < x -> (emin < cexp x)%Z -> pow2 52 <= x / pow2 (cexp x).
Proof.
  intros Hx He. destruct (ilog2_spec x Hx) as [Hlow _].
  pose proof (pow2_pos (cexp x)) as Hp.
  apply Qle_shift_div_l; [exact Hp |].
  rewrite <- pow2_add.
  eapply Qle_trans; [| exact Hlow].
  apply pow2_le. unfold cexp in *. lia.
Qed.

Lemma roundPos_nonneg (x : Q) : 0 <= x -> 0 <= roundPos x.
Proof.
  intros Hx. unfold roundPos.
  pose proof (pow2_pos (cexp x)) as Hp.
  apply Qmult_le_0_compat; [| lra].
  change 0 with (inject_Z 0). rewrite <- Zle_Qle.
  rewrite <- (rne_Z 0). apply rne_mono. change (inject_Z 0) with 0.
  apply Qle_shift_div_l; [exact Hp | lra].
Qed.

Lemma roundPos_mono (x y : Q) :
  0 < x -> x <= y -> roundPos x <= roundPos y.
Proof.
  intros Hx Hxy. assert (Hy : 0 < y) by lra.
  pose proof (cexp_mono x y Hx Hxy) as He.
  unfold roundPos.
  pose proof (pow2_pos (cexp x)) as Hpx.
  pose proof (pow2_pos (cexp y)) as Hpy.
  destruct (Z.eq_dec (cexp x) (cexp y)) as [Eq | Hne].
  - rewrite <- Eq. apply Qmult_le_compat_r; [| lra].
    rewrite <- Zle_Qle. apply rne_mono.
    apply Qmult_le_compat_r; [exact Hxy |].
    apply Qlt_le_weak, Qinv_lt_0_compat, Hpx.
  - assert (Hlt : (cexp x < cexp y)%Z) by lia.
    assert (Hupper : inject_Z (rne (x / pow2 (cexp x))) <= pow2 53).
    { rewrite <- (pow2_Z 53) by lia. rewrite <- Zle_Qle.
      rewrite <- (rne_Z (2 ^ 53)). apply rne_mono.
      rewrite (pow2_Z 53) by lia. apply Qlt_le_weak. now apply scaled_lt. }
    assert (Hlower : pow2 52 <= inject_Z (rne (y / pow2 (cexp y)))).
    { rewrite <- (pow2_Z 52) by lia. rewrite <- Zle_Qle.
      rewrite <- (rne_Z (2 ^ 52)) at 1. apply rne_mono.
      rewrite (pow2_Z 52) by lia. apply scaled_ge; [exact Hy |].
      unfold cexp in *. lia. }
    apply Qle_trans with (pow2 53 * pow2 (cexp x)).
    + apply Qmult_le_compat_r; [exact Hupper | lra].
    + apply Qle_trans with (pow2 52 * pow2 (cexp y)).
      * rewrite <- !pow2_add. apply pow2_le. lia.
      * apply Qmult_le_compat_r; [exact Hlower | lra].
Qed.

Lemma round_proper (x y : Q) : x == y -> round x = round y.
Proof.
  intros E. unfold round.
  assert (Ered : Qred x = Qred y) by now apply Qred_complete.
  assert (Eneg : Qred (- x) = Qred (- y))
    by (apply Qred_complete; now rewrite E).
  unfold Qeq in E.
  destruct (Qnum x) eqn:Hx; destruct (Qnum y) eqn:Hy;
    try reflexivity; try (exfalso; cbn in E; lia);
    now rewrite ?Ered, ?Eneg.
Qed.

Lemma round_nonneg (x : Q) : 0 <= x -> 0 <= round x.
Proof.
  intros Hx. unfold round. destruct (Qnum x) eqn:Hn.
  - discriminate.
  - apply roundPos_nonneg. now rewrite Qred_correct.
  - exfalso. unfold Qle in Hx. cbn in Hx. rewrite Hn in Hx. lia.
Qed.

Lemma round_mono (x y : Q) : 0 <= x -> x <= y -> round x <= round y.
Proof.
  intros Hx Hxy. unfold round at 1. destruct (Qnum x) eqn:Hn.
  - apply round_nonneg. lra.
  - assert (Hpos : 0 < x) by (unfold Qlt; cbn; rewrite Hn; lia).
    assert (Hy : 0 < y) by lra.
    unfold round. destruct (Qnum y) eqn:Hm.
    + exfalso. unfold Qlt in Hy. cbn in Hy. rewrite Hm in Hy. lia.
    + apply roundPos_mono; rewrite ?Qred_correct; assumption.
    + exfalso. unfold Qlt in Hy. cbn in Hy. rewrite Hm in Hy. lia.
  - exfalso. unfold Qle in Hx. cbn in Hx. rewrite Hn in Hx. lia.
Qed.

(** 0.1 is not a double; the nearest one is 3602879701896397 / 2^55.
    A tie goes to the even significand: 2^53 + 1 rounds down to 2^53 and
    2^53 + 3 up to 2^53 + 4. *)
Lemma round_examples :
  round (1 / 10) == 3602879701896397 # 36028797018963968 /\
  round (inject_Z (2 ^ 53 + 1)) == inject_Z (2 ^ 53) /\
  round (inject_Z (2 ^ 53 + 3)) == inject_Z (2 ^ 53 + 4) /\
  round (- (1 / 10)) == - round (1 / 10) /\
  round 100 == 100.
Proof.
  repeat split; vm_compute; reflexivity.
Qed.

End DoubleFacts.

(** ** The risk gate, in the statement's words *)

Section RiskGateStated.
Import Ledger LedgerOps Stated Scenario.





End RiskGateStated.

(** ** Order sizing in double arithmetic *)

Section RoundedSizing.
Import Executor Stated.
Variable fl : Q -> Q.
Variable cfg : Config.

(** Without rounding, [Rounded] is [Executor]. *)
Lemma calculateOrderSize_unrounded (opportunity : Opportunity) :
  Rounded.calculateOrderSize (fun x => x) cfg opportunity
  = Executor.calculateOrderSize cfg opportunity.
Proof. reflexivity. Qed.

Lemma roundedOrderSize_unrounded (opportunity : Opportunity) :
  roundedOrderSize (fun x => x) cfg opportunity
  = clampedOrderSize cfg opportunity.
Proof. reflexivity. Qed.

Lemma executeOpportunity_unrounded (isEnabled : bool) (env : ExecEnv)
      (opportunity : Opportunity) :
  Rounded.executeOpportunity (fun x => x) cfg isEnabled env opportunity
  = Executor.executeOpportunity cfg isEnabled env opportunity.
Proof. reflexivity. Qed.

Lemma rounded_scale_clamp (d r : Q) :
  (forall x y, x == y -> fl x == fl y) ->
  fl d == d ->
  (if r >? 1 then fl (d * Qmin r 2) else d) == fl (d * Qmax 1 (Qmin 2 r)).
Proof.
  intros Hproper Hd. pose proof (scale_clamp d r) as Hexact.
  destruct (r >? 1).
  - now apply Hproper.
  - rewrite <- (Hproper _ _ Hexact). now symmetry.
Qed.

Lemma rounded_size_clamped (opportunity : Opportunity) :
  (forall x y, x == y -> fl x == fl y) ->
  fl (defaultOrderSize cfg) == defaultOrderSize cfg ->
  Rounded.calculateOrderSize fl cfg opportunity
  == roundedOrderSize fl cfg opportunity.
Proof.
  intros Hproper Hd.
  unfold Rounded.calculateOrderSize, roundedOrderSize, profitRatio.
  cbv zeta.
  set (r := fl (opp_expectedProfit opportunity / minProfitThreshold cfg)).
  pose proof (rounded_scale_clamp (defaultOrderSize cfg) r Hproper Hd) as Hscale.
  set (x := if r >? 1 then fl (defaultOrderSize cfg * Qmin r 2)
            else defaultOrderSize cfg) in *.
  set (y := fl (defaultOrderSize cfg * Qmax 1 (Qmin 2 r))) in *.
  assert (E : Qmin x (maxPositionSize cfg) * 100
              == Qmin (maxPositionSize cfg) y * 100).
  { rewrite Q.min_comm, Hscale. reflexivity. }
  apply Hproper in E. apply Qfloor_comp in E. rewrite E. reflexivity.
Qed.

Lemma rounded_execute_refused (isEnabled : bool) (env : ExecEnv)
      (opportunity : Opportunity) :
  isEnabled = false \/ env_canTrade env = false
  \/ Rounded.calculateOrderSize fl cfg opportunity <= 0 ->
  Rounded.executeOpportunity fl cfg isEnabled env opportunity = (None, []).
Proof.
  intros Hno. unfold Rounded.executeOpportunity.
  destruct isEnabled; [| reflexivity]. cbn [negb].
  destruct (env_canTrade env); [| reflexivity]. cbn [negb].
  destruct Hno as [H | [H | H]]; try discriminate.
  apply Qle_bool_iff in H. now rewrite H.
Qed.

Lemma rounded_execute_trade (isEnabled : bool) (env : ExecEnv)
      (opportunity : Opportunity) (trade : Trade)
      (events : list ExecutorEvent) :
  Rounded.executeOpportunity fl cfg isEnabled env opportunity
  = (Some trade, events) ->
  trade_id trade = env_tradeId env
  /\ trade_price trade = opp_currentPrice opportunity
  /\ trade_size trade = Rounded.calculateOrderSize fl cfg opportunity
  /\ 0 < Rounded.calculateOrderSize fl cfg opportunity.
Proof.
  unfold Rounded.executeOpportunity.
  destruct isEnabled; cbn [negb]; [| discriminate].
  destruct (env_canTrade env); cbn [negb]; [| discriminate].
  destruct (Rounded.calculateOrderSize fl cfg opportunity <=? 0) eqn:Hsize;
    [discriminate |].
  assert (Hpos : 0 < Rounded.calculateOrderSize fl cfg opportunity).
  { apply Qnot_le_lt. intros Hle. apply Qle_bool_iff in Hle. congruence. }
  destruct (env_placeOrder env _) as [response |];
    [destruct (resp_success response) |];
    intros [= <- _]; cbn; now repeat split.
Qed.

(** The amount the size is computed from is between 0 and every bound
    that is at least [maxPositionSize] or at least twice
    [defaultOrderSize]. *)
Lemma rounded_capped_bounds (r bound : Q) :
  (forall x y, 0 <= x -> x <= y -> fl x <= fl y) ->
  fl 0 == 0 ->
  0 <= defaultOrderSize cfg ->
  0 <= maxPositionSize cfg ->
  let capped :=
    Qmin (if r >? 1 then fl (defaultOrderSize cfg * Qmin r 2)
          else defaultOrderSize cfg)
         (maxPositionSize cfg) in
  0 <= capped /\
  (maxPositionSize cfg <= bound -> capped <= bound) /\
  (fl bound == bound -> 2 * defaultOrderSize cfg <= bound -> capped <= bound).
Proof.
  intros Hmono Hzero Hd Hmax. cbv zeta.
  set (d := defaultOrderSize cfg) in *.
  set (scaled := if r >? 1 then fl (d * Qmin r 2) else d).
  assert (Hlow : 0 <= scaled).
  { unfold scaled. destruct (r >? 1) eqn:Hr; [| exact Hd].
    apply Qltb_lt in Hr.
    assert (Hprod : 0 <= d * Qmin r 2).
    { destruct (Q.min_spec r 2) as [[_ E] | [_ E]]; rewrite E; nra. }
    pose proof (Hmono 0 (d * Qmin r 2) (Qle_refl 0) Hprod). lra. }
  split; [now apply Q.min_glb |]. split.
  - intros Hb. eapply Qle_trans; [apply Q.le_min_r | exact Hb].
  - intros Hfix Hb. eapply Qle_trans; [apply Q.le_min_l |].
    unfold scaled. destruct (r >? 1) eqn:Hr; [| lra].
    apply Qltb_lt in Hr.
    assert (Hprod : 0 <= d * Qmin r 2 /\ d * Qmin r 2 <= bound).
    { destruct (Q.min_spec r 2) as [[H E] | [H E]]; rewrite E; nra. }
    destruct Hprod as [H0 H1].
    pose proof (Hmono (d * Qmin r 2) bound H0 H1). lra.
Qed.

(** Rounding down to the cent, with its two roundings, keeps an amount
    between 0 and a bound that is held exactly, and whose hundredfold is
    held exactly, between them. *)
Lemma rounded_floor_bounds (capped bound : Q) :
  (forall x y, 0 <= x -> x <= y -> fl x <= fl y) ->
  fl 0 == 0 ->
  0 <= capped ->
  0 <= fl (inject_Z (Qfloor (fl (capped * 100))) / 100) /\
  (fl bound == bound -> fl (bound * 100) == bound * 100 ->
   capped <= bound ->
   fl (inject_Z (Qfloor (fl (capped * 100))) / 100) <= bound).
Proof.
  intros Hmono Hzero Hlow.
  assert (Hcents : 0 <= fl (capped * 100)).
  { pose proof (Hmono 0 (capped * 100) (Qle_refl 0)). lra. }
  assert (Hfloor : 0 <= inject_Z (Qfloor (fl (capped * 100))) / 100).
  { apply Qle_shift_div_l; [reflexivity |].
    rewrite Qmult_0_l. change 0 with (inject_Z 0). rewrite <- Zle_Qle.
    change 0%Z with (Qfloor 0). now apply Qfloor_resp_le. }
  split.
  - pose proof (Hmono 0 _ (Qle_refl 0) Hfloor). lra.
  - intros Hfix Hfix100 Hb.
    assert (Hup : fl (capped * 100) <= bound * 100).
    { assert (H0 : 0 <= capped * 100) by lra.
      assert (H1 : capped * 100 <= bound * 100) by lra.
      pose proof (Hmono _ _ H0 H1). lra. }
    assert (Hdiv : inject_Z (Qfloor (fl (capped * 100))) / 100 <= bound).
    { apply Qle_shift_div_r; [reflexivity |].
      eapply Qle_trans; [apply Qfloor_le | exact Hup]. }
    pose proof (Hmono _ _ Hfloor Hdiv). lra.
Qed.

Lemma rounded_size_bounds (opportunity : Opportunity) (bound : Q) :
  (forall x y, 0 <= x -> x <= y -> fl x <= fl y) ->
  fl 0 == 0 ->
  0 <= defaultOrderSize cfg ->
  0 <= maxPositionSize cfg ->
  0 <= Rounded.calculateOrderSize fl cfg opportunity /\
  (fl bound == bound -> fl (bound * 100) == bound * 100 ->
   maxPositionSize cfg <= bound \/ 2 * defaultOrderSize cfg <= bound ->
   Rounded.calculateOrderSize fl cfg opportunity <= bound).
Proof.
  intros Hmono Hzero Hd Hmax. unfold Rounded.calculateOrderSize. cbv zeta.
  set (r := fl (opp_expectedProfit opportunity / minProfitThreshold cfg)).
  destruct (rounded_capped_bounds r bound Hmono Hzero Hd Hmax)
    as (Hlow & Hcap & Htwice).
  cbv zeta in Hlow, Hcap, Htwice.
  destruct (rounded_floor_bounds _ bound Hmono Hzero Hlow) as [Hnonneg Hle].
  split; [exact Hnonneg |].
  intros Hfix Hfix100 [Hb | Hb]; apply Hle; auto.
Qed.

(** C3, as the code has it.  Every quotient and product being rounded
    to a double before it is used ([fl]; the default size is a double
    and minProfitThreshold is not zero), the order size is
    min(maxPositionSize, defaultOrderSize x m) rounded down to the cent,
    where the multiplier m is the profit ratio kept between 1 and 2 (a
    ratio of 1 or less leaves the default size as it is).  No trade is
    returned when that size is not positive or the venue link is not
    authenticated, and a trade that is returned carries that size. *)
Theorem executeOpportunity_order_size (isEnabled : bool) (env : ExecEnv)
        (opportunity : Opportunity) :
  (forall x y, x == y -> fl x == fl y) ->
  fl (defaultOrderSize cfg) == defaultOrderSize cfg ->
  ~ minProfitThreshold cfg == 0 ->
  Rounded.calculateOrderSize fl cfg opportunity
  == roundedOrderSize fl cfg opportunity /\
  (roundedOrderSize fl cfg opportunity <= 0 \/ env_canTrade env = false ->
   Rounded.executeOpportunity fl cfg isEnabled env opportunity = (None, [])) /\
  (forall trade,
     fst (Rounded.executeOpportunity fl cfg isEnabled env opportunity)
     = Some trade ->
     trade_size trade == roundedOrderSize fl cfg opportunity
     /\ 0 < roundedOrderSize fl cfg opportunity
     /\ env_canTrade env = true).
Proof.
  intros Hproper Hd _.
  pose proof (rounded_size_clamped opportunity Hproper Hd) as Hsize.
  split; [exact Hsize |]. split.
  - intros [Hle | Hfalse]; apply rounded_execute_refused.
    + right. right. now rewrite Hsize.
    + right. now left.
  - intros trade Hsome.
    destruct (Rounded.executeOpportunity fl cfg isEnabled env opportunity)
      as [result events] eqn:Hexec.
    cbn in Hsome. subst result.
    destruct (rounded_execute_trade _ _ _ _ _ Hexec) as (_ & _ & Hsz & Hpos).
    rewrite Hsz, <- Hsize. split; [reflexivity |]. split; [exact Hpos |].
    destruct (env_canTrade env) eqn:Hauth; [reflexivity |].
    rewrite rounded_execute_refused in Hexec by (right; now left).
    discriminate.
Qed.

(** X11. With a rounding that keeps the order of non-negative numbers
    and keeps 0 (minProfitThreshold not zero, defaultOrderSize and
    maxPositionSize not negative), the order size is not negative, and
    it is at most every bound that is a double, has a double for its
    hundredfold, and is at least maxPositionSize or at least twice
    defaultOrderSize. *)
Theorem calculateOrderSize_bounds (opportunity : Opportunity) :
  (forall x y, 0 <= x -> x <= y -> fl x <= fl y) ->
  fl 0 == 0 ->
  ~ minProfitThreshold cfg == 0 ->
  0 <= defaultOrderSize cfg ->
  0 <= maxPositionSize cfg ->
  0 <= Rounded.calculateOrderSize fl cfg opportunity /\
  forall bound : Q,
    fl bound == bound ->
    fl (bound * 100) == bound * 100 ->
    maxPositionSize cfg <= bound \/ 2 * defaultOrderSize cfg <= bound ->
    Rounded.calculateOrderSize fl cfg opportunity <= bound.
Proof.
  intros Hmono Hzero _ Hd Hmax. split.
  - exact (proj1 (rounded_size_bounds opportunity 0 Hmono Hzero Hd Hmax)).
  - intros bound.
    exact (proj2 (rounded_size_bounds opportunity bound Hmono Hzero Hd Hmax)).
Qed.

(** X13. With minProfitThreshold not zero, [executeOpportunity] returns
    no trade and emits nothing when the executor is disabled, the venue
    link is not authenticated or the size is not positive.  Otherwise it
    places one FOK BUY order for the opportunity's token at its price
    with the computed size and returns a BUY trade with the same token,
    price and size, and the venue's reply decides the rest: on success
    the trade is MATCHED, carries the venue's order id and is announced
    by [trade_executed]; on a refusal it is FAILED, has no order id and
    is announced by [trade_failed] with the venue's message; when the
    call throws it is FAILED, has no order id and is announced by
    [trade_failed].  A returned trade is never PENDING. *)
Theorem executeOpportunity_outcome (isEnabled : bool) (env : ExecEnv)
        (opportunity : Opportunity) :
  ~ minProfitThreshold cfg == 0 ->
  let size := Rounded.calculateOrderSize fl cfg opportunity in
  let request :=
    {| req_tokenId := opp_tokenId opportunity;
       req_price := opp_currentPrice opportunity;
       req_size := size; req_side := BUY; req_orderType := FOK |} in
  (isEnabled = false \/ env_canTrade env = false \/ size <= 0 ->
   Rounded.executeOpportunity fl cfg isEnabled env opportunity = (None, [])) /\
  (isEnabled = true -> env_canTrade env = true -> 0 < size ->
   exists trade events,
     Rounded.executeOpportunity fl cfg isEnabled env opportunity
     = (Some trade, events)
     /\ trade_id trade = env_tradeId env
     /\ trade_marketId trade = opp_marketId opportunity
     /\ trade_tokenId trade = opp_tokenId opportunity
     /\ trade_side trade = BUY
     /\ trade_price trade = opp_currentPrice opportunity
     /\ trade_size trade = size
     /\ trade_timestamp trade = env_now env
     /\ trade_status trade <> PENDING
     /\ match env_placeOrder env request with
        | Answered response =>
            if resp_success response
            then trade_status trade = MATCHED
                 /\ trade_orderId trade = resp_orderId response
                 /\ events = [trade_executed trade]
            else trade_status trade = FAILED
                 /\ trade_orderId trade = None
                 /\ events = [trade_failed trade (resp_errorMsg response)]
        | Thrown =>
            trade_status trade = FAILED
            /\ trade_orderId trade = None
            /\ events = [trade_failed trade None]
        end).
Proof.
  intros _. cbv zeta. split; [apply rounded_execute_refused |].
  intros -> Hauth Hpos. unfold Rounded.executeOpportunity.
  rewrite Hauth. cbn [negb].
  assert (Hsize : (Rounded.calculateOrderSize fl cfg opportunity <=? 0) = false).
  { apply not_true_iff_false. intros Hle. apply Qle_bool_iff in Hle. lra. }
  rewrite Hsize.
  destruct (env_placeOrder env _) as [response |];
    [destruct (resp_success response) |];
    eexists; eexists; (split; [reflexivity |]); cbn;
    repeat split; discriminate.
Qed.

End RoundedSizing.

Section RoundedSizingExample.
Import Executor Stated Scenario.

Lemma round_respects_Qeq (x y : Q) :
  x == y -> Double.round x == Double.round y.
Proof. intros E. now rewrite (round_proper x y E). Qed.

(** On paper 0.0055 / 0.005 is 1.1 and the order 110 shares; in doubles
    the quotient is just under 1.1, the product with 100 and then with
    100 again stays just under 11000, and the floor takes the cent:
    109.99. *)
Lemma executeOpportunity_order_size_witness :
  Rounded.calculateOrderSize Double.round config64 (profiting (55 / 10000))
  == roundedOrderSize Double.round config64 (profiting (55 / 10000))
  /\ roundedOrderSize Double.round config64 (profiting (55 / 10000))
     == Double.round (10999 / 100).
Proof.
  split; [| vm_compute; reflexivity].
  refine (proj1 (executeOpportunity_order_size Double.round config64 true
                   (fillingEnv "trade_1") (profiting (55 / 10000)) _ _ _)).
  - exact round_respects_Qeq.
  - vm_compute. reflexivity.
  - vm_compute. discriminate.
Defined.

(** At a profit ratio of one half the code sizes the order at the
    default 100, where the stated formula gives 50, in exact arithmetic
    and in doubles alike.  The rounding shows in the cents: for an
    expected profit of 0.0055 (1.1 times the threshold on paper, 110
    shares) the code gives 109.99, and for 0.005005 it gives 100.1 where
    exact arithmetic on the same doubles gives 100.09. *)
Lemma calculateOrderSize_ratio_below_one :
  (Executor.calculateOrderSize config halfThresholdOpportunity == 100 /\
   Rounded.calculateOrderSize Double.round config64 (profiting (25 / 10000))
   == 100 /\
   statedOrderSize config halfThresholdOpportunity == 50 /\
   statedOrderSize config64 (profiting (25 / 10000)) == 50) /\
  (Rounded.calculateOrderSize Double.round config64 (profiting (55 / 10000))
   == Double.round (10999 / 100) /\
   Double.round (10999 / 100) < 110 /\
   statedOrderSize config
     {| opp_marketId := "m1"; opp_tokenId := "t1"; opp_outcome := "Yes";
        opp_currentPrice := 99 / 100; opp_expectedProfit := 55 / 10000;
        opp_confidence := 99; opp_timestamp := 0 |} == 110) /\
  (Rounded.calculateOrderSize Double.round config64
     (profiting (5005 / 1000000))
   == Double.round (1001 / 10) /\
   clampedOrderSize config64 (profiting (5005 / 1000000)) == 10009 / 100 /\
   statedOrderSize config64 (profiting (5005 / 1000000)) == 10009 / 100 /\
   10009 / 100 < Double.round (1001 / 10)).
Proof.
  repeat split; vm_compute; reflexivity.
Qed.

Lemma calculateOrderSize_bounds_witness :
  0 <= Rounded.calculateOrderSize Double.round config64
         (profiting (55 / 10000))
  /\ Rounded.calculateOrderSize Double.round config64 (profiting (55 / 10000))
     <= maxPositionSize config64
  /\ Rounded.calculateOrderSize Double.round config64 (profiting (55 / 10000))
     <= 2 * defaultOrderSize config64.
Proof.
  destruct (calculateOrderSize_bounds Double.round config64
              (profiting (55 / 10000))) as [Hlow Hbound].
  - exact round_mono.
  - reflexivity.
  - vm_compute. discriminate.
  - vm_compute. discriminate.
  - vm_compute. discriminate.
  - split; [exact Hlow |]. split; apply Hbound.
    + vm_compute. reflexivity.
    + vm_compute. reflexivity.
    + left. apply Qle_refl.
    + vm_compute. reflexivity.
    + vm_compute. reflexivity.
    + right. apply Qle_refl.
Defined.

(** The venue rejects the order: the trade comes back FAILED, without an
    order id, and [trade_failed] carries the venue's message. *)
Lemma executeOpportunity_outcome_witness :
  exists trade,
    Rounded.executeOpportunity Double.round config64 true
      (rejectingEnv "trade_1") (profiting (55 / 10000))
    = (Some trade, [trade_failed trade (Some "not filled")])
    /\ trade_status trade = FAILED
    /\ trade_orderId trade = None
    /\ trade_size trade
       = Rounded.calculateOrderSize Double.round config64
           (profiting (55 / 10000)).
Proof.
  destruct (proj2 (executeOpportunity_outcome Double.round config64 true
                     (rejectingEnv "trade_1") (profiting (55 / 10000))
                     ltac:(vm_compute; discriminate))
              eq_refl eq_refl ltac:(vm_compute; reflexivity))
    as (trade & events & Hexec & _ & _ & _ & _ & _ & Hsize & _ & _ & Hreply).
  cbn in Hreply. destruct Hreply as (Hstatus & Hid & Hevents).
  exists trade. rewrite Hexec, Hevents. now repeat split.
Defined.

End RoundedSizingExample.

(** ** The handler across its await *)

Section InterleavedHandler.
Import Ledger LedgerOps Executor Interleaved.
Variable fl : Q -> Q.
Variables (cfg : Config) (isEnabled : bool) (today : string).
Variables (env : ExecEnv) (opportunity : Opportunity).
Variable meanwhile : M unit.

Lemma untilAwait_cases (s : State) :
  snd (untilAwait cfg env opportunity s) = s /\
  (fst (untilAwait cfg env opportunity s) = true ->
   fst (canOpenNewPosition cfg (defaultOrderSize cfg)
          (opp_currentPrice opportunity) s) = true
   /\ jsLength (getPositionsByMarket (opp_marketId opportunity) s)
      < maxPositionsPerMarket cfg
   /\ env_canTrade env = true).
Proof.
  unfold untilAwait, bind, gets, ret.
  rewrite canOpenNewPosition_pure.
  destruct (fst (canOpenNewPosition cfg (defaultOrderSize cfg)
                   (opp_currentPrice opportunity) s)) eqn:Hgate;
    cbn [negb fst snd]; [| split; [reflexivity | discriminate]].
  destruct (jsLength (getPositionsByMarket (opp_marketId opportunity) s)
            >=? maxPositionsPerMarket cfg) eqn:Hcap;
    cbn [fst snd]; [split; [reflexivity | discriminate] |].
  split; [reflexivity |]. intros Hauth. split; [reflexivity |].
  split; [| exact Hauth].
  apply Qnot_le_lt. intros Hle. apply Qle_bool_iff in Hle. congruence.
Qed.

Lemma fromAwait_cases (result : option Trade * list ExecutorEvent)
      (s : State) :
  snd (fromAwait today result s) = s
  \/ exists trade,
       fst result = Some trade
       /\ trade_status trade = MATCHED
       /\ snd (fromAwait today result s) = snd (addPosition today trade s).
Proof.
  unfold fromAwait. destruct (fst result) as [trade |]; [| now left].
  destruct (trade_status trade) eqn:Hstatus; cbn [Bot.isMatched];
    try (now left).
  right. exists trade. unfold bind, ret.
  destruct (addPosition today trade s) as [p s1]. now repeat split.
Qed.

Lemma onOpportunity_phases (s : State) :
  snd (onOpportunity fl cfg isEnabled today env opportunity meanwhile s)
  = if fst (untilAwait cfg env opportunity s)
    then snd (fromAwait today
                (Rounded.executeOpportunity fl cfg isEnabled env opportunity)
                (snd (meanwhile s)))
    else s.
Proof.
  unfold onOpportunity. unfold bind at 1.
  destruct (untilAwait_cases s) as [Hsame _].
  destruct (untilAwait cfg env opportunity s) as [go s0].
  cbn [fst snd] in *. subst s0.
  destruct go; [| reflexivity].
  unfold bind. now destruct (meanwhile s).
Qed.

(** With exact arithmetic and nothing happening during the wait, a run
    is a run of [Bot.onOpportunity]. *)
Lemma onOpportunity_uninterrupted (s : State) :
  onOpportunity (fun x => x) cfg isEnabled today env opportunity (ret tt) s
  = Bot.onOpportunity cfg isEnabled today env opportunity s.
Proof.
  unfold onOpportunity, Bot.onOpportunity, untilAwait, bind, gets, ret.
  rewrite canOpenNewPosition_pure.
  destruct (fst (canOpenNewPosition cfg (defaultOrderSize cfg)
                   (opp_currentPrice opportunity) s));
    cbn [negb]; [| reflexivity].
  destruct (jsLength (getPositionsByMarket (opp_marketId opportunity) s)
            >=? maxPositionsPerMarket cfg); [reflexivity |].
  destruct (env_canTrade env); [| reflexivity].
  unfold fromAwait.
  change (Rounded.executeOpportunity (fun x => x) cfg isEnabled env opportunity)
    with (Executor.executeOpportunity cfg isEnabled env opportunity).
  destruct (Executor.executeOpportunity cfg isEnabled env opportunity)
    as [[trade |] events]; cbn [fst snd]; [| reflexivity].
  destruct (Bot.isMatched (trade_status trade)); reflexivity.
Qed.
(** X21. What the checks of the handler guarantee, and when.  The
    handler reads the ledger, awaits the executor, and only then adds
    the position, to the ledger as it is by then.  When the checks
    refuse, the run changes nothing.  When they pass, the run either
    leaves the later ledger as it is or adds to it the MATCHED trade the
    executor returned, which raises the exposure found there by price x
    size, at most twice defaultOrderSize x price.  So the exposure ends
    within maxTotalExposure + defaultOrderSize x price when it was
    within the ceiling at the checks and did not grow during the wait;
    when other runs added positions meanwhile no bound relative to the
    ceiling follows.  (The trade id is fresh; price, defaultOrderSize
    and maxPositionSize are not negative; minProfitThreshold is not
    zero; twice the default size and its hundredfold are doubles; the
    rounding keeps 0 and the order of non-negative numbers.) *)
Theorem onOpportunity_exposure_bound (s : State) :
  (forall x y, 0 <= x -> x <= y -> fl x <= fl y) ->
  fl 0 == 0 ->
  fl (2 * defaultOrderSize cfg) == 2 * defaultOrderSize cfg ->
  fl (2 * defaultOrderSize cfg * 100) == 2 * defaultOrderSize cfg * 100 ->
  ~ minProfitThreshold cfg == 0 ->
  0 <= defaultOrderSize cfg ->
  0 <= maxPositionSize cfg ->
  0 <= opp_currentPrice opportunity ->
  let later := snd (meanwhile s) in
  let s' :=
    snd (onOpportunity fl cfg isEnabled today env opportunity meanwhile s) in
  JsMap.has (positions later) (env_tradeId env) = false ->
  (fst (untilAwait cfg env opportunity s) = false -> s' = s) /\
  (fst (untilAwait cfg env opportunity s) = true ->
   (s' = later
    \/ exists trade events,
         Rounded.executeOpportunity fl cfg isEnabled env opportunity
         = (Some trade, events)
         /\ trade_status trade = MATCHED
         /\ s' = snd (addPosition today trade later)
         /\ getTotalExposure s'
            == getTotalExposure later
               + opp_currentPrice opportunity
                 * Rounded.calculateOrderSize fl cfg opportunity)
   /\ getTotalExposure later <= getTotalExposure s'
   /\ getTotalExposure s'
      <= getTotalExposure later
         + 2 * defaultOrderSize cfg * opp_currentPrice opportunity) /\
  (getTotalExposure s <= maxTotalExposure cfg ->
   getTotalExposure later <= getTotalExposure s ->
   getTotalExposure s'
   <= maxTotalExposure cfg
      + defaultOrderSize cfg * opp_currentPrice opportunity).
Proof.
  intros Hmono Hzero Hfix Hfix100 _ Hd Hmax Hprice. cbv zeta. intros Hfresh.
  rewrite onOpportunity_phases.
  set (later := snd (meanwhile s)) in *.
  set (result := Rounded.executeOpportunity fl cfg isEnabled env opportunity).
  assert (Hroom : 0 <= defaultOrderSize cfg * opp_currentPrice opportunity)
    by now apply Qmult_le_0_compat.
  assert (Hafter :
            snd (fromAwait today result later) = later
            \/ exists trade events,
                 result = (Some trade, events)
                 /\ trade_status trade = MATCHED
                 /\ snd (fromAwait today result later)
                    = snd (addPosition today trade later)
                 /\ getTotalExposure (snd (fromAwait today result later))
                    == getTotalExposure later
                       + opp_currentPrice opportunity
                         * Rounded.calculateOrderSize fl cfg opportunity
                 /\ 0 < Rounded.calculateOrderSize fl cfg opportunity
                 /\ Rounded.calculateOrderSize fl cfg opportunity
                    <= 2 * defaultOrderSize cfg).
  { destruct (fromAwait_cases result later)
      as [Hsame | (trade & Hsome & Hm & Hadd)]; [now left |].
    right. exists trade, (snd result).
    assert (Hexec : result = (Some trade, snd result))
      by (destruct result as [t e]; cbn in *; now subst t).
    destruct (rounded_execute_trade fl cfg _ _ _ _ _ Hexec)
      as (Hid & Hp & Hsz & Hpos).
    repeat (split; [assumption |]). split.
    - rewrite Hadd, addPosition_exposure by (rewrite Hid; exact Hfresh).
      rewrite Hp, Hsz. reflexivity.
    - split; [exact Hpos |].
      apply (rounded_size_bounds fl cfg opportunity
               (2 * defaultOrderSize cfg) Hmono Hzero Hd Hmax);
        [exact Hfix | exact Hfix100 | right; apply Qle_refl]. }
  assert (Hcost :
            forall size : Q,
              0 < size -> size <= 2 * defaultOrderSize cfg ->
              0 <= opp_currentPrice opportunity * size
              /\ opp_currentPrice opportunity * size
                 <= 2 * defaultOrderSize cfg * opp_currentPrice opportunity).
  { intros size Hpos Hle. split; nra. }
  split; [| split].
  - intros Hgo. now rewrite Hgo.
  - intros Hgo. rewrite Hgo.
    destruct Hafter
      as [Hsame | (trade & events & Hexec & Hm & Hadd & Hexp & Hpos & Hle)].
    + rewrite Hsame. split; [now left |]. split; lra.
    + destruct (Hcost _ Hpos Hle) as [Hc0 Hc1].
      split; [| split; lra].
      right. exists trade, events. now repeat split.
  - intros Hwithin Hstill.
    destruct (fst (untilAwait cfg env opportunity s)) eqn:Hgo; [| lra].
    destruct (untilAwait_cases s) as [_ Hchecks].
    destruct (Hchecks Hgo) as (Hgate & _ & _).
    destruct (canOpenNewPosition_cases cfg (defaultOrderSize cfg)
                (opp_currentPrice opportunity) s) as (_ & _ & Hyes).
    apply Hyes in Hgate.
    assert (Hok : getTotalExposure s
                  + defaultOrderSize cfg * opp_currentPrice opportunity
                  <= maxTotalExposure cfg).
    { apply Qnot_lt_le. intros Hlt. apply Hgate. now left. }
    destruct Hafter
      as [Hsame | (trade & events & Hexec & Hm & Hadd & Hexp & Hpos & Hle)].
    + rewrite Hsame. lra.
    + destruct (Hcost _ Hpos Hle) as [Hc0 Hc1]. lra.
Qed.

End InterleavedHandler.

Section InterleavedHandlerExample.
Import Ledger LedgerOps Executor Interleaved Scenario.

(** Two runs overlap on a ledger with an exposure of about 4900: the
    run for market Y starts and ends while the run for market X waits
    for the venue.  Both pass the same checks on the same ledger and
    both add an order of 200 shares: the run for X raises the exposure
    it finds after the wait, about 5096, by its own 196.  The result,
    about 5292, is above the ceiling of 5000 by more than the cost of a
    default order. *)
Lemma onOpportunity_exposure_bound_witness :
  let meanwhile :=
    onOpportunity Double.round config64 true today (fillingEnv "trade_Y")
                  (opportunityIn "Y") (ret tt) ;; ret tt in
  let later := snd (meanwhile nearCeiling) in
  let s' := snd (overlappingRuns nearCeiling) in
  getTotalExposure later < getTotalExposure s' /\
  getTotalExposure s'
  <= getTotalExposure later
     + 2 * defaultOrderSize config64 * opp_currentPrice (opportunityIn "X") /\
  getTotalExposure nearCeiling <= maxTotalExposure config64 /\
  maxTotalExposure config64
  + defaultOrderSize config64 * opp_currentPrice (opportunityIn "X")
  < getTotalExposure s'.
Proof.
  cbv zeta.
  destruct (onOpportunity_exposure_bound Double.round config64 true today
              (fillingEnv "trade_X") (opportunityIn "X")
              (onOpportunity Double.round config64 true today
                 (fillingEnv "trade_Y") (opportunityIn "Y") (ret tt) ;; ret tt)
              nearCeiling)
    as (_ & Hpassed & _).
  - exact round_mono.
  - reflexivity.
  - vm_compute. reflexivity.
  - vm_compute. reflexivity.
  - vm_compute. discriminate.
  - vm_compute. discriminate.
  - vm_compute. discriminate.
  - vm_compute. discriminate.
  - vm_compute. reflexivity.
  - destruct (Hpassed eq_refl) as (_ & _ & Hupper).
    split; [vm_compute; reflexivity |].
    split; [exact Hupper |].
    split; vm_compute; [discriminate | reflexivity].
Defined.

End InterleavedHandlerExample.

(** ** The periodic poll of books *)

Section PeriodicPoll.
Import Scanner ScannerOps Detector DetectorOps.
Variable cfg : Config.
Variable marketsAt : nat -> JsMap.t WatchedMarket.
Variable clock : nat -> Z.
Variable getOrderBook : nat -> string -> BookReply.

Lemma scanEntries_In (entries : list HighPriceEntry) :
  forall (k : nat) (o : Opportunity),
    In o (scanEntries cfg marketsAt clock getOrderBook k entries) ->
    exists i entry orderBook,
      nth_error entries i = Some entry
      /\ getOrderBook (k + i)%nat (token_tokenId (high_token entry))
         = Book orderBook
      /\ analyzeOpportunity cfg (marketsAt (k + i)%nat) (clock (k + i)%nat)
           (token_tokenId (high_token entry)) orderBook = Some o.
Proof.
  induction entries as [| entry rest IH]; intros k o; cbn [scanEntries];
    [intros [] |].
  assert (Hrest :
            In o (scanEntries cfg marketsAt clock getOrderBook (S k) rest) ->
            exists i e b,
              nth_error (entry :: rest) i = Some e
              /\ getOrderBook (k + i)%nat (token_tokenId (high_token e))
                 = Book b
              /\ analyzeOpportunity cfg (marketsAt (k + i)%nat)
                   (clock (k + i)%nat) (token_tokenId (high_token e)) b
                 = Some o).
  { intros Hin. destruct (IH _ _ Hin) as (i & e & b & Hnth & Hbook & Hemit).
    exists (S i), e, b. replace (k + S i)%nat with (S k + i)%nat by lia.
    now repeat split. }
  unfold checkOrderBook.
  destruct (getOrderBook k (token_tokenId (high_token entry)))
    as [orderBook | |] eqn:Hbook; [| exact Hrest | exact Hrest].
  destruct (analyzeOpportunity cfg (marketsAt k) (clock k) _ orderBook)
    as [o' |] eqn:Hemit; [| exact Hrest].
  intros [<- | Hin]; [| now apply Hrest].
  exists 0%nat, entry, orderBook. rewrite Nat.add_0_r. now repeat split.
Qed.

(** X9. A poll that starts while the detector is stopped emits nothing.
    Otherwise every opportunity it emits is for a token that was watched
    when the poll started, the [i]-th of the tokens to poll, and its
    market id and outcome are looked up in the watchlist as it is when
    that token's book comes back: if the token is still watched then,
    they are those of a watched market holding the token; if the scanner
    has dropped the market meanwhile, they are the empty strings.  (The
    watchlist at the start is one whose cached tokens belong to their
    markets, as every scan leaves it.) *)
Theorem scanOrderBooks_emits_watched (isRunning : bool)
        (atStart : JsMap.t WatchedMarket) :
  cachedTokensOk atStart ->
  (isRunning = false ->
   scanOrderBooks cfg isRunning atStart marketsAt clock getOrderBook = []) /\
  forall o,
    In o (scanOrderBooks cfg isRunning atStart marketsAt clock getOrderBook) ->
    isRunning = true
    /\ In (opp_tokenId o) (getTokenIds atStart)
    /\ exists i entry,
         nth_error (getHighPriceTokens atStart) i = Some entry
         /\ token_tokenId (high_token entry) = opp_tokenId o
         /\ opp_timestamp o = clock i
         /\ (In (opp_tokenId o) (getTokenIds (marketsAt i)) ->
             exists wm t,
               In (opp_marketId o, wm) (marketsAt i)
               /\ In t (market_tokens (watched_market wm))
               /\ token_tokenId t = opp_tokenId o
               /\ opp_outcome o = token_outcome t)
         /\ (~ In (opp_tokenId o) (getTokenIds (marketsAt i)) ->
             opp_marketId o = "" /\ opp_outcome o = "").
Proof.
  intros Hok. split; [intros ->; reflexivity |].
  intros o. unfold scanOrderBooks.
  destruct isRunning; cbn [negb]; [| intros []].
  intros Hin. apply scanEntries_In in Hin.
  destruct Hin as (i & entry & orderBook & Hnth & _ & Hemit).
  cbn [Nat.add] in Hemit.
  pose proof (nth_error_In _ _ Hnth) as Hentry.
  apply getHighPriceTokens_In in Hentry. destruct Hentry as [Hpair Hhigh].
  assert (Htime : opp_timestamp o = clock i).
  { revert Hemit. unfold analyzeOpportunity.
    destruct (book_asks orderBook) as [| ask rest]; [discriminate |].
    destruct (_ && _); [| discriminate].
    destruct (_ >=? _); [| discriminate].
    destruct (findMarketInfo _ _). now intros [= <-]. }
  apply analyzeOpportunity_fields in Hemit.
  destruct Hemit as (Htok & Hid & Hout).
  split; [reflexivity |]. split.
  - rewrite Htok. apply In_getTokenIds.
    exists (high_marketId entry), (high_market entry), (high_token entry).
    split; [exact Hpair |]. split; [| reflexivity].
    now apply (Hok (high_marketId entry)).
  - exists i, entry. split; [exact Hnth |]. split; [now symmetry |].
    split; [exact Htime |]. rewrite Hid, Hout, Htok. split.
    + apply findMarketInfo_found.
    + intros Hnot. now rewrite (findMarketInfo_missing _ _ Hnot).
Qed.

End PeriodicPoll.

Section PeriodicPollExample.
Import Scanner ScannerOps Detector DetectorOps Scenario.

(** The poll starts with market A watched; while the book of its token
    is awaited the scanner finds the market closed and drops it.  The
    opportunity is emitted all the same, for the token that was to be
    polled, with the empty market id and outcome. *)
Lemma scanOrderBooks_emits_watched_witness :
  exists o,
    scanOrderBooks config true watchingA (fun _ => afterEviction)
                   (fun _ => 31000%Z)
                   (fun _ _ => Book (bookFor "A" (99 / 100) 500)) = [o]
    /\ In (opp_tokenId o) (getTokenIds watchingA)
    /\ ~ In (opp_tokenId o) (getTokenIds afterEviction)
    /\ opp_marketId o = "" /\ opp_outcome o = "".
Proof.
  eexists. split; [reflexivity |].
  destruct (proj2 (scanOrderBooks_emits_watched config (fun _ => afterEviction)
                     (fun _ => 31000%Z)
                     (fun _ _ => Book (bookFor "A" (99 / 100) 500))
                     true watchingA
                     (scan_cachedTokensOk config 0
                        [marketNamed "A" (99 / 100) false] JsMap.empty
                        (fun id wm t (H : In (id, wm) JsMap.empty) => match H with end)))
                  _ (or_introl eq_refl))
    as (_ & Hwatched & _).
  split; [exact Hwatched |].
  split; [intros [] | split; reflexivity].
Defined.

End PeriodicPollExample.
